(** * LogpushEstimator: time-series store and analytics core

    A shallow embedding of the Go sources

      - [src/database] : [LogSize], [SQLiteController], [InsertLogSize],
        [QueryByTimeRange], [GetAll], [Close];
      - [src/gui/handlers/api.go] : [calculateStats], [aggregateByHour],
        [calculateSizeBreakdown];

    together with the parts of the Go runtime they rely on: 64-bit
    two's-complement integers, [time.Time] with [After], [Truncate] and
    [Format], binary64 floating point (through the IEEE 754 specification
    [SpecFloat] of the standard library) and the SQL statements the
    controller sends to SQLite. *)

From Stdlib Require Import ZArith Zpower List Lia Lqa Bool Ascii String.
From Stdlib Require Import QArith Qabs Qpower.
From Stdlib Require Import Floats.SpecFloat.
From stdpp Require Import gmap strings list fin_maps sorting.

#[local] Open Scope Z_scope.

(* ===================================================================== *)
(** * Machine integers *)
(* ===================================================================== *)

Module Int64.

Definition modulus : Z := 2 ^ 64.
Definition max_int64 : Z := 2 ^ 63 - 1.
Definition min_int64 : Z := - 2 ^ 63.

(** The value of an unbounded integer once stored in an [int64]:
    reduction modulo [2^64] into [min_int64 .. max_int64]. *)
Definition wrap (z : Z) : Z := (z + 2 ^ 63) mod modulus - 2 ^ 63.

(** The value of an unbounded integer once stored in a [uint64]. *)
Definition uwrap (z : Z) : Z := z mod modulus.

Definition in_range (z : Z) : Prop := min_int64 <= z <= max_int64.

#[global] Instance in_range_dec z : Decision (in_range z).
Proof. unfold in_range. apply _. Defined.

(** Go's [a + b] on [int64]. *)
Definition add (a b : Z) : Z := wrap (a + b).

(** Go's [^x] on [uint64] (bitwise complement). *)
Definition unot (x : Z) : Z := uwrap (Z.lnot x).

(** Go's [x >> n] on [uint64]. *)
Definition ushr (x : Z) (n : Z) : Z := Z.shiftr x n.

(** Go's conversion [int64(x)] of a [uint64]. *)
Definition of_uint64 (x : Z) : Z := wrap x.

End Int64.

(** Go's [len]: the length of a slice as an integer. *)
Definition len {A} (l : list A) : Z := Z.of_nat (length l).

(* ===================================================================== *)
(** * The [time] package *)
(* ===================================================================== *)

Module GoTime.

(** A [time.Time] is an instant together with the location it is shown
    in.  The instant is kept as the number of nanoseconds elapsed since
    the zero time, January 1 of year 1, 00:00:00 UTC; the location is a
    fixed zone, kept as its offset in seconds east of UTC (this is what
    a timestamp read back from a DATETIME column carries).  Locations
    whose offset changes with the instant, and the bounds of the 64-bit
    fields of [time.Time], are left out. *)
Record Time : Type := mkTime { abs_ns : Z; zone_offset : Z }.

#[global] Instance Time_eq_dec : EqDecision Time.
Proof. solve_decision. Defined.

(** The zero value [time.Time{}]. *)
Definition zero : Time := mkTime 0 0.

Definition Nanosecond : Z := 1.
Definition Second : Z := 1000000000 * Nanosecond.
Definition Minute : Z := 60 * Second.
Definition Hour : Z := 60 * Minute.

(** [t.After(u)]: the instant of [t] is later than that of [u]. *)
Definition After (t u : Time) : bool := abs_ns u <? abs_ns t.

(** [t.Add(d)]. *)
Definition Add (t : Time) (d : Z) : Time :=
  mkTime (abs_ns t + d) (zone_offset t).

(** [t.Truncate(d)]: [t] rounded down to a multiple of [d] since the
    zero time; the location is kept.  It works on the instant, not on
    the wall clock shown in the location. *)
Definition Truncate (t : Time) (d : Z) : Time :=
  if d <=? 0 then t else Add t (- (abs_ns t mod d)).

(** ** Calendar *)

(** Year, month and day of the proleptic Gregorian calendar for a
    number of days counted from January 1 of year 1. *)
Definition civil_of_days (days : Z) : Z * Z * Z :=
  let z := days + 306 in
  let era := z / 146097 in
  let doe := z - era * 146097 in
  let yoe := (doe - doe / 1460 + doe / 36524 - doe / 146096) / 365 in
  let doy := doe - (365 * yoe + yoe / 4 - yoe / 100) in
  let mp := (5 * doy + 2) / 153 in
  let d := doy - (153 * mp + 2) / 5 + 1 in
  let m := if mp <? 10 then mp + 3 else mp - 9 in
  let y := yoe + era * 400 + (if m <=? 2 then 1 else 0) in
  (y, m, d).

(** ** Formatting *)

Definition digit (n : Z) : ascii := ascii_of_nat (48 + Z.to_nat (n mod 10)).

(** The last [width] decimal digits of a non-negative [n], put in front
    of [acc]. *)
Fixpoint digits (width : nat) (n : Z) (acc : string) : string :=
  match width with
  | O => acc
  | S w => digits w (n / 10) (String (digit n) acc)
  end.

(** The number of decimal digits of a positive [u]; [fuel] bounds the
    number of divisions by ten. *)
Fixpoint count_digits (fuel : nat) (u : Z) : nat :=
  match fuel with
  | O => O
  | S fuel' => if u =? 0 then O else S (count_digits fuel' (u / 10))
  end.

(** [appendInt(b, x, width)] of package [time]: a minus sign for a
    negative [x], then the magnitude in decimal, padded with zeros on the
    left up to [width] digits. *)
Definition appendInt (x : Z) (width : nat) : string :=
  let u := Z.abs x in
  let n := Nat.max 1 (count_digits (S (Z.to_nat (Z.log2 u))) u) in
  let sign := if x <? 0 then "-"%string else ""%string in
  (sign ++ digits (Nat.max width n) u EmptyString)%string.

(** The zone suffix printed for the layout element [Z07:00]. *)
Definition format_zone (offset : Z) : string :=
  if offset =? 0 then "Z"%string
  else
    let zone := Z.quot offset 60 in
    let sign := if zone <? 0 then "-"%string else "+"%string in
    (sign ++ appendInt (Z.quot (Z.abs zone) 60) 2 ++ ":"
       ++ appendInt (Z.rem (Z.abs zone) 60) 2)%string.

(** The date and the time of day printed for the layout elements
    [2006-01-02T15:04:05]: the wall clock of [t] in its own location, to
    the second. *)
Definition format_clock (t : Time) : string :=
  let local := abs_ns t / Second + zone_offset t in
  let days := local / 86400 in
  let secs := local mod 86400 in
  let '(y, m, d) := civil_of_days days in
  (appendInt y 4 ++ "-" ++ appendInt m 2 ++ "-" ++ appendInt d 2 ++ "T"
     ++ appendInt (secs / 3600) 2 ++ ":" ++ appendInt (secs / 60 mod 60) 2
     ++ ":" ++ appendInt (secs mod 60) 2)%string.

(** [t.Format("2006-01-02T15:04:05Z07:00")], which is also
    [t.Format(time.RFC3339)]: the wall clock of [t] followed by its
    zone. *)
Definition Format_RFC3339 (t : Time) : string :=
  (format_clock t ++ format_zone (zone_offset t))%string.

(** [time.Date(y, mo, d, h, mi, s, 0, FixedZone(offset))] for dates of
    the years 1 and later, used to write down test inputs. *)
Definition days_before_year (y : Z) : Z :=
  let p := y - 1 in 365 * p + p / 4 - p / 100 + p / 400.

Definition is_leap (y : Z) : bool :=
  ((y mod 4 =? 0) && negb (y mod 100 =? 0)) || (y mod 400 =? 0).

Definition days_before_month (y m : Z) : Z :=
  nth (Z.to_nat (m - 1)) [0; 31; 59; 90; 120; 151; 181; 212; 243; 273; 304; 334] 0
  + (if (2 <? m) && is_leap y then 1 else 0).

Definition Date (y mo d h mi s offset : Z) : Time :=
  let days := days_before_year y + days_before_month y mo + (d - 1) in
  mkTime ((days * 86400 + h * 3600 + mi * 60 + s - offset) * Second) offset.

End GoTime.

Import GoTime.

(* ===================================================================== *)
(** * Package [database] *)
(* ===================================================================== *)

Module Database.

(** [type LogSize struct { ID int64; Timestamp time.Time; Filesize int64 }] *)
Record LogSize : Type := mkLogSize { ID : Z; Timestamp : Time; Filesize : Z }.

#[global] Instance LogSize_eq_dec : EqDecision LogSize.
Proof. solve_decision. Defined.

(** ** The SQL engine behind [*sql.DB]

    The table [log_sizes (id INTEGER PRIMARY KEY AUTOINCREMENT,
    timestamp DATETIME NOT NULL, filesize INTEGER NOT NULL)] is the list
    of its rows in the order they were written; [sqlite_sequence] is the
    largest row id that AUTOINCREMENT has handed out.  A handle that has
    been closed refuses every statement.  Two DATETIME values are
    compared by the instants they denote, which is the order of the
    stored values when they are written in one zone.  The calls of the
    logger change nothing in the store and are left out. *)
Inductive error : Type :=
| ErrDatabaseClosed   (* sql: database is closed *)
| ErrDatabaseFull.    (* SQLITE_FULL: no row id left *)

Record sqlDB : Type := mkDB {
  closed : bool;
  log_sizes : list LogSize;
  sqlite_sequence : Z
}.

Definition largest_rowid (rows : list LogSize) : Z :=
  foldr (fun r acc => Z.max (ID r) acc) 0 rows.

(** [INSERT INTO log_sizes (timestamp, filesize) VALUES (?, ?)]: one
    statement, executed atomically.  AUTOINCREMENT picks the successor
    of the largest row id ever used and fails once that is the largest
    64-bit integer. *)
Definition exec_insert (d : sqlDB) (ts : Time) (filesize : Z)
  : sqlDB * option error :=
  if closed d then (d, Some ErrDatabaseClosed)
  else
    let last := Z.max (sqlite_sequence d) (largest_rowid (log_sizes d)) in
    if Int64.max_int64 <=? last then (d, Some ErrDatabaseFull)
    else
      let row := mkLogSize (last + 1) ts filesize in
      (mkDB false (log_sizes d ++ [row]) (last + 1), None).

(** [ORDER BY key]: a stable insertion sort on an integer key. *)
Fixpoint insert_by (key : LogSize -> Z) (r : LogSize) (l : list LogSize)
  : list LogSize :=
  match l with
  | [] => [r]
  | x :: l' => if key r <? key x then r :: l else x :: insert_by key r l'
  end.

Definition order_by (key : LogSize -> Z) (l : list LogSize) : list LogSize :=
  foldr (insert_by key) [] l.

Definition ts_key (r : LogSize) : Z := abs_ns (Timestamp r).

(** The row predicate [timestamp >= ? AND timestamp < ?]. *)
Definition in_window (start end_ : Time) (r : LogSize) : Prop :=
  abs_ns start <= ts_key r /\ ts_key r < abs_ns end_.

#[global] Instance in_window_dec start end_ r : Decision (in_window start end_ r).
Proof. unfold in_window. apply _. Defined.

(** [SELECT id, timestamp, filesize FROM log_sizes
     WHERE timestamp >= ? AND timestamp < ? ORDER BY timestamp] *)
Definition query_time_range (d : sqlDB) (start end_ : Time)
  : list LogSize + error :=
  if closed d then inr ErrDatabaseClosed
  else inl (order_by ts_key (filter (in_window start end_) (log_sizes d))).

(** [SELECT id, timestamp, filesize FROM log_sizes ORDER BY id] *)
Definition query_all (d : sqlDB) : list LogSize + error :=
  if closed d then inr ErrDatabaseClosed
  else inl (order_by ID (log_sizes d)).

(** The loop [for rows.Next() { rows.Scan(...); out = append(out, l) }].
    Every column is NOT NULL and of the scanned type, so [Scan] does
    not fail. *)
Definition scan_rows (rows : list LogSize) : list LogSize :=
  fold_left (fun out l => out ++ [l]) rows [].

(** ** The controller *)

Record SQLiteController : Type := mkController { db : sqlDB }.

(** The controller [NewSQLiteController] returns for a database file
    that did not exist: an empty table. *)
Definition NewSQLiteController : SQLiteController :=
  mkController (mkDB false [] 0).

(** A controller whose open handle is on the given table contents. *)
Definition opened (rows : list LogSize) (seq : Z) : SQLiteController :=
  mkController (mkDB false rows seq).

(** [func (c *SQLiteController) InsertLogSize(filesize int64) error];
    [now] is the reading of [time.Now()]. *)
Definition InsertLogSize (c : SQLiteController) (now : Time) (filesize : Z)
  : SQLiteController * option error :=
  let '(d, err) := exec_insert (db c) now filesize in
  match err with
  | Some e => (c, Some e)
  | None => (mkController d, None)
  end.

(** [func (c *SQLiteController) QueryByTimeRange(start, end time.Time)
     ([]LogSize, error)] *)
Definition QueryByTimeRange (c : SQLiteController) (start end_ : Time)
  : list LogSize * option error :=
  match query_time_range (db c) start end_ with
  | inr e => ([], Some e)
  | inl rows => (scan_rows rows, None)
  end.

(** [func (c *SQLiteController) GetAll() ([]LogSize, error)] *)
Definition GetAll (c : SQLiteController) : list LogSize * option error :=
  match query_all (db c) with
  | inr e => ([], Some e)
  | inl rows => (scan_rows rows, None)
  end.

(** [func (c *SQLiteController) Close() error]: closing a [*sql.DB]
    marks the handle closed; closing it again is not an error. *)
Definition Close (c : SQLiteController) : SQLiteController * option error :=
  (mkController (mkDB true (log_sizes (db c)) (sqlite_sequence (db c))), None).

(** A run of [InsertLogSize] calls issued one after the other, each
    with its clock reading and size; the run stops at the first error. *)
Fixpoint insert_all (c : SQLiteController) (calls : list (Time * Z))
  : SQLiteController * option error :=
  match calls with
  | [] => (c, None)
  | (now, size) :: rest =>
      match InsertLogSize c now size with
      | (c', None) => insert_all c' rest
      | (c', Some e) => (c', Some e)
      end
  end.

End Database.

Import Database.

(* ===================================================================== *)
(** * Binary64 floating point *)
(* ===================================================================== *)

Module Float64.

(** Go's [float64] is IEEE 754 binary64: 53 bits of precision, results
    rounded to nearest, ties to even. *)
Definition prec : Z := 53.
Definition emax : Z := 1024.

Definition float64 : Type := spec_float.

(** The conversion [float64(n)] of an integer. *)
Definition of_int (n : Z) : float64 := binary_normalize prec emax n 0 false.

Definition div (x y : float64) : float64 := SFdiv prec emax x y.
Definition mul (x y : float64) : float64 := SFmul prec emax x y.

(** The zero value [0.0]. *)
Definition zero : float64 := S754_zero false.

(** The exact value of a finite float; infinities and NaN have none. *)
Definition to_Q (x : float64) : option Q :=
  match x with
  | S754_zero _ => Some 0%Q
  | S754_finite s m e =>
      let v := (inject_Z (Z.pos m) * Qpower 2 e)%Q in
      Some (if s then Qopp v else v)
  | _ => None
  end.

End Float64.

(* ===================================================================== *)
(** * Package [handlers]: the analytics functions of [api.go] *)
(* ===================================================================== *)

Module Handlers.

Import Float64.

(** What a Go function call ends in: a returned value or a run-time
    panic. *)
Inductive outcome (A : Type) : Type :=
| Returns (a : A)
| Panics (msg : string).
Arguments Returns {A} a.
Arguments Panics {A} msg.

#[global] Instance outcome_bind : MBind outcome := fun A B f m =>
  match m with
  | Returns a => f a
  | Panics msg => Panics msg
  end.

(** [s[i]] on a slice: a panic when [i] is out of range. *)
Definition index {A} (s : list A) (i : nat) : outcome A :=
  match s !! i with
  | Some a => Returns a
  | None => Panics "index out of range"
  end.

(** Go's [int] is 64 bits wide on the supported platforms. *)
Definition int_add (a b : Z) : Z := Int64.wrap (a + b).

(** ** [calculateStats] *)

Record LogSizeStats : Type := mkStats {
  TotalRecords : Z;
  TotalSize : Z;
  AverageSize : float64;
  MinSize : Z;
  MaxSize : Z;
  LastUpdated : string
}.

(** The zero value [LogSizeStats{}]. *)
Definition zero_stats : LogSizeStats := mkStats 0 0 zero 0 0 "".

(** The local variables of the loop of [calculateStats]. *)
Record stats_vars : Type := mkVars {
  total : Z; min : Z; max : Z; lastUpdated : Time
}.

(** One iteration of [for _, log := range logs]. *)
Definition stats_step (v : stats_vars) (log : LogSize) : stats_vars :=
  let total := Int64.add (total v) (Filesize log) in
  let min := if Filesize log <? min v then Filesize log else min v in
  let max := if max v <? Filesize log then Filesize log else max v in
  let lastUpdated :=
    if After (Timestamp log) (lastUpdated v) then Timestamp log
    else lastUpdated v in
  mkVars total min max lastUpdated.

Definition calculateStats (logs : list LogSize) : outcome LogSizeStats :=
  if len logs =? 0 then Returns zero_stats
  else
    first ← index logs 0;
    let v := fold_left stats_step logs
               (mkVars 0 (Filesize first) (Filesize first) GoTime.zero) in
    let avg := div (of_int (total v)) (of_int (len logs)) in
    Returns (mkStats (Int64.wrap (len logs)) (total v) avg (min v) (max v)
               (Format_RFC3339 (lastUpdated v))).

(** ** [aggregateByHour] *)

Record TimeSeriesPoint : Type := mkPoint {
  point_Timestamp : string;
  point_Count : Z;
  point_TotalSize : Z
}.

(** The value type of [hourMap]:
    [struct { Count int; TotalSize int64 }]. *)
Record hourData : Type := mkHourData { Count : Z; hour_TotalSize : Z }.

Definition hourKey (log : LogSize) : string :=
  Format_RFC3339 (Truncate (Timestamp log) Hour).

(** One iteration of the first loop: a missing key reads as the zero
    value. *)
Definition hour_step (hourMap : gmap string hourData) (log : LogSize)
  : gmap string hourData :=
  let data := default (mkHourData 0 0) (hourMap !! hourKey log) in
  <[hourKey log :=
      mkHourData (int_add (Count data) 1)
                 (Int64.add (hour_TotalSize data) (Filesize log))]> hourMap.

Definition hourMap_of (logs : list LogSize) : gmap string hourData :=
  fold_left hour_step logs ∅.

Definition point_of (kv : string * hourData) : TimeSeriesPoint :=
  mkPoint kv.1 (Count kv.2) (hour_TotalSize kv.2).

(** [aggregateByHour logs result]: [result] is a slice the call
    [aggregateByHour(logs)] can return.  The second loop ranges over a
    Go map, whose iteration order is not fixed: every order of the
    entries is a possible result. *)
Definition aggregateByHour (logs : list LogSize)
    (result : list TimeSeriesPoint) : Prop :=
  result ≡ₚ point_of <$> map_to_list (hourMap_of logs).

(** ** [calculateSizeBreakdown] *)

Record SizeBreakdown : Type := mkBreakdown {
  Range : string;
  breakdown_Count : Z;
  Percentage : float64
}.

Record sizeRange : Type := mkRange { Name : string; Min : Z; Max : Z }.

Definition ranges : list sizeRange := [
  mkRange "< 1KB" 0 1024;
  mkRange "1KB - 10KB" 1024 (10 * 1024);
  mkRange "10KB - 100KB" (10 * 1024) (100 * 1024);
  mkRange "100KB - 1MB" (100 * 1024) (1024 * 1024);
  mkRange "1MB - 10MB" (1024 * 1024) (10 * 1024 * 1024);
  mkRange "> 10MB" (10 * 1024 * 1024)
    (Int64.of_uint64 (Int64.ushr (Int64.unot 0) 1))
].

(** [rangeCounts[i]++] *)
Definition increment (rangeCounts : list Z) (i : nat) : outcome (list Z) :=
  c ← index rangeCounts i;
  Returns (<[i := int_add c 1]> rangeCounts).

(** The inner loop [for i, r := range ranges], entered at index [i]
    with [rs] the ranges still to be tried: the first range that holds
    the size is counted and the loop is left. *)
Fixpoint count_in_range (rs : list sizeRange) (i : nat) (filesize : Z)
    (rangeCounts : list Z) : outcome (list Z) :=
  match rs with
  | [] => Returns rangeCounts
  | r :: rs' =>
      if (Min r <=? filesize) && (filesize <? Max r)
      then increment rangeCounts i
      else count_in_range rs' (S i) filesize rangeCounts
  end.

(** The outer loop [for _, log := range logs]. *)
Fixpoint count_logs (logs : list LogSize) (rangeCounts : list Z)
  : outcome (list Z) :=
  match logs with
  | [] => Returns rangeCounts
  | log :: logs' =>
      rangeCounts' ← count_in_range ranges 0 (Filesize log) rangeCounts;
      count_logs logs' rangeCounts'
  end.

(** [percentage := 0.0; if total > 0 { percentage =
    float64(rangeCounts[i]) / float64(total) * 100 }] *)
Definition percentage_of (count total : Z) : float64 :=
  if 0 <? total then mul (div (of_int count) (of_int total)) (of_int 100)
  else zero.

(** The second loop [for i, r := range ranges], entered at index [i]. *)
Fixpoint breakdown_rows (rs : list sizeRange) (i : nat)
    (rangeCounts : list Z) (total : Z) (result : list SizeBreakdown)
  : outcome (list SizeBreakdown) :=
  match rs with
  | [] => Returns result
  | r :: rs' =>
      c ← index rangeCounts i;
      breakdown_rows rs' (S i) rangeCounts total
        (result ++ [mkBreakdown (Name r) c (percentage_of c total)])
  end.

Definition calculateSizeBreakdown (logs : list LogSize)
  : outcome (list SizeBreakdown) :=
  let rangeCounts := replicate (length ranges) 0 in
  let total := len logs in
  rangeCounts' ← count_logs logs rangeCounts;
  breakdown_rows ranges 0 rangeCounts' total [].

End Handlers.

Import Float64 Handlers.

(* ===================================================================== *)
(** * Package [strconv] *)
(* ===================================================================== *)

Module Strconv.

Definition is_digit (ch : ascii) : bool :=
  let n := nat_of_ascii ch in (48 <=? n)%nat && (n <=? 57)%nat.

Definition digit_value (ch : ascii) : Z := Z.of_nat (nat_of_ascii ch) - 48.

(** The loop over the bytes of the digits,
    [n = n*10 + int(ch - '0')]: a byte that is no decimal digit is a
    syntax error. *)
Fixpoint atoi_digits (s : string) (n : Z) : option Z :=
  match s with
  | EmptyString => Some n
  | String ch s' =>
      if is_digit ch then atoi_digits s' (n * 10 + digit_value ch) else None
  end.

(** [strconv.Atoi(s)], with [None] for a call that returns an error:
    an optional sign, then at least one decimal digit and nothing else
    (a syntax error otherwise), and a value that fits Go's 64-bit [int]
    (a range error otherwise).  The fast path for short strings and the
    path through [ParseInt] agree on this. *)
Definition Atoi (s : string) : option Z :=
  match s with
  | EmptyString => None
  | String ch rest =>
      let neg := Ascii.eqb ch "-" in
      let s' := if neg || Ascii.eqb ch "+" then rest else s in
      match s' with
      | EmptyString => None
      | _ =>
          un ← atoi_digits s' 0;
          let n := if neg then - un else un in
          if decide (Int64.in_range n) then Some n else None
      end
  end.

End Strconv.

(* ===================================================================== *)
(** * Package [net/http]: what the handlers read and write *)
(* ===================================================================== *)

Module Http.

(** [url.Values], the parsed query of a request. *)
Definition Values : Type := gmap string (list string).

(** [v.Get(key)]: the first value of the key, the empty string when
    there is none. *)
Definition Get (v : Values) (key : string) : string :=
  match v !! key with
  | Some (x :: _) => x
  | _ => EmptyString
  end.

(** The parts of a [*http.Request] the handlers read: the method, the
    path [r.URL.Path], the parsed query [r.URL.Query()], and what
    [io.ReadAll(r.Body)] returns, [None] when the read fails. *)
Record Request : Type := mkRequest {
  Method : string;
  Path : string;
  Query : Values;
  Body : option string
}.

Definition MethodPost : string := "POST".
Definition StatusOK : Z := 200.
Definition StatusBadRequest : Z := 400.
Definition StatusMethodNotAllowed : Z := 405.
Definition StatusInternalServerError : Z := 500.

End Http.

(* ===================================================================== *)
(** * Package [handlers]: the endpoints of [MakeAPIHandlers] *)
(* ===================================================================== *)

Module Api.

Import Strconv Http.

(** The values the endpoints put in the [Data] field. *)
Inductive data : Type :=
| Logs (logs : list LogSize)
| Stats (stats : LogSizeStats)
| TimeSeries (points : list TimeSeriesPoint)
| Breakdown (rows : list SizeBreakdown).

(** [type APIResponse struct { Success bool; Data interface{};
    Error string }] *)
Record APIResponse : Type := mkAPIResponse {
  Success : bool;
  Data : option data;
  Error : string
}.

(** What a handler leaves in the [http.ResponseWriter]: the status code,
    the two headers it sets and the value it encodes as the body.  The
    JSON text of the body is not modelled. *)
Record ResponseWriter : Type := mkResponseWriter {
  Code : Z;
  ContentType : string;
  AccessControlAllowOrigin : string;
  Encoded : APIResponse
}.

(** [sendSuccessResponse(w, data)]: no call of [WriteHeader], so the
    status is 200. *)
Definition sendSuccessResponse (d : data) : ResponseWriter :=
  mkResponseWriter StatusOK "application/json" "*"
    (mkAPIResponse true (Some d) EmptyString).

(** [sendErrorResponse(w, message)] *)
Definition sendErrorResponse (message : string) : ResponseWriter :=
  mkResponseWriter StatusInternalServerError "application/json" "*"
    (mkAPIResponse false None message).

(** [handlers["/api/logs/recent"]]; [now] is the reading of
    [time.Now()]. *)
Definition logs_recent (c : SQLiteController) (now : Time) : ResponseWriter :=
  let end_ := now in
  let start := Add end_ (-24 * Hour) in
  let '(logs, err) := QueryByTimeRange c start end_ in
  match err with
  | Some _ => sendErrorResponse "Failed to fetch recent logs"
  | None => sendSuccessResponse (Logs logs)
  end.

(** [handlers["/api/logs/range"]].  The handler reads its two bounds
    with [time.Parse(time.RFC3339, s)], which is kept abstract here:
    [Parse s] is the time of a text the library accepts, [None] for a
    text it rejects. *)
Section LogsRange.

Variable Parse : string -> option Time.

Definition logs_range (c : SQLiteController) (r : Request) : ResponseWriter :=
  let startStr := Get (Query r) "start" in
  let endStr := Get (Query r) "end" in
  if String.eqb startStr EmptyString || String.eqb endStr EmptyString
  then sendErrorResponse "start and end parameters required"
  else
    match Parse startStr with
    | None => sendErrorResponse "Invalid start time format (use RFC3339)"
    | Some start =>
        match Parse endStr with
        | None => sendErrorResponse "Invalid end time format (use RFC3339)"
        | Some end_ =>
            let '(logs, err) := QueryByTimeRange c start end_ in
            match err with
            | Some _ => sendErrorResponse "Failed to fetch logs"
            | None => sendSuccessResponse (Logs logs)
            end
        end
    end.

End LogsRange.

(** [handlers["/api/stats/summary"]] *)
Definition stats_summary (c : SQLiteController) : outcome ResponseWriter :=
  let '(logs, err) := GetAll c in
  match err with
  | Some _ => Returns (sendErrorResponse "Failed to fetch statistics")
  | None =>
      stats ← calculateStats logs;
      Returns (sendSuccessResponse (Stats stats))
  end.

(** The number of hours [handlers["/api/charts/timeseries"]] looks back:
    24 unless the query has an [hours] value that [strconv.Atoi] reads
    as a positive integer. *)
Definition timeseries_hours (r : Request) : Z :=
  let hoursStr := Get (Query r) "hours" in
  let hours := 24 in
  if String.eqb hoursStr EmptyString then hours
  else
    match Atoi hoursStr with
    | Some h => if 0 <? h then h else hours
    | None => hours
    end.

(** [end.Add(-time.Duration(hours) * time.Hour)]: the negation and the
    product are taken in [int64]. *)
Definition timeseries_start (end_ : Time) (hours : Z) : Time :=
  Add end_ (Int64.wrap (Int64.wrap (- hours) * Hour)).

(** [handlers["/api/charts/timeseries"]]: [w] is a response the handler
    can leave; the order of the points is that of a map iteration. *)
Definition charts_timeseries (c : SQLiteController) (now : Time) (r : Request)
    (w : ResponseWriter) : Prop :=
  let hours := timeseries_hours r in
  let end_ := now in
  let start := timeseries_start end_ hours in
  let '(logs, err) := QueryByTimeRange c start end_ in
  match err with
  | Some _ => w = sendErrorResponse "Failed to fetch time series data"
  | None =>
      exists timeSeries,
        aggregateByHour logs timeSeries
        /\ w = sendSuccessResponse (TimeSeries timeSeries)
  end.

(** [handlers["/api/charts/breakdown"]] *)
Definition charts_breakdown (c : SQLiteController) : outcome ResponseWriter :=
  let '(logs, err) := GetAll c in
  match err with
  | Some _ => Returns (sendErrorResponse "Failed to fetch breakdown data")
  | None =>
      breakdown ← calculateSizeBreakdown logs;
      Returns (sendSuccessResponse (Breakdown breakdown))
  end.

End Api.

(* ===================================================================== *)
(** * Package [main]: the ingestion endpoint *)
(* ===================================================================== *)

Module Main.

Import Http.

(** What [makeIngestionHandler] leaves in the [http.ResponseWriter]: the
    status code and the text written. *)
Record ResponseRecorder : Type := mkRecorder {
  rec_Code : Z;
  rec_Body : string
}.

(** [bodySize := int64(len(body))] *)
Definition bodySize (body : string) : Z :=
  Int64.wrap (Z.of_nat (String.length body)).

(** The handler [makeIngestionHandler(db)] returns, run on one request;
    [now] is the reading of [time.Now()] inside [InsertLogSize]. *)
Definition makeIngestionHandler (c : SQLiteController) (now : Time)
    (r : Request) : SQLiteController * ResponseRecorder :=
  if negb (String.eqb (Method r) MethodPost)
  then (c, mkRecorder StatusMethodNotAllowed "Method not allowed")
  else
    match Body r with
    | None => (c, mkRecorder StatusBadRequest "Failed to read request body")
    | Some body =>
        if bodySize body <=? 0
        then (c, mkRecorder StatusBadRequest "Request body cannot be empty")
        else
          let '(c', err) := InsertLogSize c now (bodySize body) in
          match err with
          | Some _ =>
              (c', mkRecorder StatusInternalServerError "Failed to write log size")
          | None => (c', mkRecorder StatusOK "OK")
          end
    end.

End Main.

Import Strconv Http Api Main.

(* ===================================================================== *)
(** * Packages [strings] and [path/filepath] *)
(* ===================================================================== *)

Module Filepath.

(** [strings.TrimPrefix(s, prefix)]: [s] without the leading [prefix],
    [s] itself when it does not start with it. *)
Fixpoint trim_prefix (s prefix : string) : option string :=
  match prefix, s with
  | EmptyString, _ => Some s
  | String p prefix', String c s' =>
      if Ascii.eqb c p then trim_prefix s' prefix' else None
  | String _ _, EmptyString => None
  end.

Definition TrimPrefix (s prefix : string) : string :=
  default s (trim_prefix s prefix).

(** [os.IsPathSeparator] on Unix. *)
Definition IsPathSeparator (c : ascii) : bool := Ascii.eqb c "/".

(** The loop of [filepath.Ext], which walks back from the end of the
    path: [seen] is what it has passed, [rev_path] what is left of the
    path, last byte first.  It stops at a separator with no extension,
    and at a dot with the dot and what follows it. *)
Fixpoint ext_scan (rev_path : list ascii) (seen : string) : string :=
  match rev_path with
  | [] => EmptyString
  | c :: rev_path' =>
      if IsPathSeparator c then EmptyString
      else if Ascii.eqb c "." then String c seen
      else ext_scan rev_path' (String c seen)
  end.

(** [filepath.Ext(path)] *)
Definition Ext (path : string) : string :=
  ext_scan (rev (list_ascii_of_string path)) EmptyString.

(** The buffer [out] of [filepath.Clean] is kept as the bytes written so
    far, last byte first; [out.w] is its length. *)
Definition lazybuf : Type := list ascii.

(** The loop [for out.w > dotdot && out.index(out.w) != '/' { out.w-- }]
    that follows [out.w--]: [dropped] is the byte at index [out.w]. *)
Fixpoint backtrack (dropped : ascii) (out : lazybuf) (dotdot : nat) : lazybuf :=
  match out with
  | [] => []
  | c :: out' =>
      if (dotdot <? length out)%nat && negb (Ascii.eqb dropped "/")
      then backtrack c out' dotdot
      else out
  end.

(** The loop that copies a path element,
    [for ; r < n && path[r] != '/'; r++ { out.append(path[r]) }]:
    the buffer and what is left of the path after it. *)
Fixpoint copy_element (rest : string) (out : lazybuf) : lazybuf * string :=
  match rest with
  | EmptyString => (out, EmptyString)
  | String c rest' =>
      if IsPathSeparator c then (out, rest)
      else copy_element rest' (c :: out)
  end.

(** [r == n || path[r] == '/'] *)
Definition at_element_end (rest : string) : bool :=
  match rest with
  | EmptyString => true
  | String c _ => IsPathSeparator c
  end.

(** The main loop [for r < n] of [filepath.Clean]; [rest] is the path
    from index [r] on, and [fuel] bounds the number of iterations, each
    of which moves [r] forward. *)
Fixpoint clean_loop (fuel : nat) (rooted : bool) (rest : string)
    (out : lazybuf) (dotdot : nat) : lazybuf :=
  match fuel with
  | O => out
  | S fuel' =>
      match rest with
      | EmptyString => out
      | String c rest1 =>
          if IsPathSeparator c then
            (* empty path element *)
            clean_loop fuel' rooted rest1 out dotdot
          else if Ascii.eqb c "." && at_element_end rest1 then
            (* . element *)
            clean_loop fuel' rooted rest1 out dotdot
          else if Ascii.eqb c "."
                  && match rest1 with
                     | String c1 rest2 => Ascii.eqb c1 "." && at_element_end rest2
                     | EmptyString => false
                     end
          then
            (* .. element: remove to last separator *)
            let rest2 := match rest1 with
                         | String _ rest2 => rest2
                         | EmptyString => EmptyString
                         end in
            if (dotdot <? length out)%nat then
              (* can backtrack *)
              match out with
              | dropped :: out' =>
                  clean_loop fuel' rooted rest2 (backtrack dropped out' dotdot) dotdot
              | [] => clean_loop fuel' rooted rest2 out dotdot
              end
            else if negb rooted then
              (* cannot backtrack, but not rooted, so append .. element *)
              let out1 := if (0 <? length out)%nat then "/"%char :: out else out in
              let out2 := "."%char :: "."%char :: out1 in
              clean_loop fuel' rooted rest2 out2 (length out2)
            else clean_loop fuel' rooted rest2 out dotdot
          else
            (* real path element: add slash if needed, copy element *)
            let out1 :=
              if (rooted && negb (length out =? 1)%nat)
                 || (negb rooted && negb (length out =? 0)%nat)
              then "/"%char :: out else out in
            let '(out2, rest') := copy_element rest out1 in
            clean_loop fuel' rooted rest' out2 dotdot
      end
  end.

(** [filepath.Clean(path)] on Unix, where a path has no volume name. *)
Definition Clean (path : string) : string :=
  match path with
  | EmptyString => "."
  | String c rest =>
      let rooted := IsPathSeparator c in
      let out :=
        if rooted then clean_loop (String.length path) rooted rest ["/"%char] 1
        else clean_loop (S (String.length path)) rooted path [] 0 in
      match out with
      | [] => "."
      | _ => string_of_list_ascii (rev out)
      end
  end.

(** [strings.Join(elem, "/")] *)
Fixpoint join_separator (elem : list string) : string :=
  match elem with
  | [] => EmptyString
  | [e] => e
  | e :: elem' => (e ++ "/" ++ join_separator elem')%string
  end.

(** [filepath.Join(elem...)]: the elements from the first non-empty one
    on, joined by separators and cleaned. *)
Fixpoint Join (elem : list string) : string :=
  match elem with
  | [] => EmptyString
  | e :: elem' =>
      if String.eqb e EmptyString then Join elem'
      else Clean (join_separator elem)
  end.

End Filepath.

(* ===================================================================== *)
(** * Package [handlers]: static files *)
(* ===================================================================== *)

Module Static.

Import Http Filepath.

(** What [os.Open] finds at a path: a regular file with its content, or
    something it fails to open for another reason than absence.
    Directories are left out. *)
Inductive node : Type :=
| RegularFile (content : string)
| Unreadable.

(** The file system, by the path given to [os.Open]. *)
Definition FileSystem : Type := gmap string node.

(** What the handler leaves in the [http.ResponseWriter]: one of the two
    error replies of [net/http], or the headers it has set and the body
    it has copied, with the status 200 the first write implies. *)
Inductive response : Type :=
| NotFound                          (* http.NotFound(w, r) *)
| InternalServerError               (* http.Error(w, ..., 500) *)
| Served (header : gmap string string) (body : string).

(** [fmt.Sprintf("%d", n)] for a size, which is not negative. *)
Definition FormatInt (n : Z) : string := appendInt n 0.

(** The switch on the extension. *)
Definition content_type (ext : string) : string :=
  if String.eqb ext ".css" then "text/css"
  else if String.eqb ext ".js" then "application/javascript"
  else if String.eqb ext ".html" then "text/html"
  else "text/plain".

(** The file the handler opens for a request. *)
Definition static_file_path (r : Request) : string :=
  let path := TrimPrefix (Path r) "/static" in
  Join ["src/gui/static"; path]%string.

(** The handler [MakeStaticFileHandler(logger)] returns, run on one
    request over a file system. *)
Definition MakeStaticFileHandler (fs : FileSystem) (r : Request) : response :=
  let filePath := static_file_path r in
  let header : gmap string string :=
    {[ "Cache-Control"%string := "public, max-age=3600"%string ]} in
  let ext := Ext filePath in
  let header := <[ "Content-Type"%string := content_type ext ]> header in
  match fs !! filePath with
  | None => NotFound
  | Some Unreadable => InternalServerError
  | Some (RegularFile content) =>
      let size := Z.of_nat (String.length content) in
      let header := <[ "Content-Length"%string := FormatInt size ]> header in
      Served header content
  end.

End Static.

Import Filepath Static.

(* ===================================================================== *)
(** * Vocabulary of the statements

    The notions the theorems below are stated with: what it means for a
    rational to lie at a rounding record, the exact value of a float, the
    rows and row ids of a store, interleavings of callers, sums and first
    occurrences, the range and the hour of an observation, and the inputs
    of the examples. *)
(* ===================================================================== *)

(** The non-negative rational [N / D] lies at the record [mrs]: between
    the mantissa [m] and [m + 1], the round bit telling whether it is at
    or above the midpoint, the sticky bit whether it is off both [m] and
    the midpoint. *)
Definition located (N D : Z) (mrs : shr_record) : Prop :=
  0 < D /\ 0 <= shr_m mrs
  /\ shr_m mrs * D <= N < (shr_m mrs + 1) * D
  /\ (shr_r mrs = true <-> (2 * shr_m mrs + 1) * D <= 2 * N)
  /\ (shr_s mrs = true <-> (N <> shr_m mrs * D /\ 2 * N <> (2 * shr_m mrs + 1) * D)).

(** The unit roundoff of binary64. *)
Definition roundoff : Q := 1 # (2 ^ 53).

(** The rational [m * 2^e]: the exact value of the float with mantissa
    [m] and exponent [e]. *)
Definition valQ (m e : Z) : Q := (inject_Z m * 2 ^ e)%Q.

(** Closes the cases of a statement that a number lies at a record. *)
Ltac located_case :=
  unfold located; cbn [shr_record_of_loc shr_m shr_r shr_s];
  repeat match goal with
         | |- _ /\ _ => split
         | |- _ <-> _ => split; intros
         end;
  first [lia | done | exfalso; lia].

(** A bound on the relative error of a percentage, which goes through
    four roundings: two conversions, a division and a multiplication. *)
Definition percent_error : Q := 1 # (2 ^ 50).


Definition key_lt (key : LogSize -> Z) (x y : LogSize) : Prop := key x < key y.

(** The rows of the table behind a controller. *)
Definition table (c : SQLiteController) : list LogSize := log_sizes (db c).

(** The largest row id in use or handed out so far. *)
Definition last_rowid (c : SQLiteController) : Z :=
  Z.max (sqlite_sequence (db c)) (largest_rowid (table c)).

(** The table is in strictly increasing order of [id]. *)
Definition id_ordered (rows : list LogSize) : Prop :=
  StronglySorted (key_lt ID) rows.

(** [InsertLogSize] changes the store through one INSERT statement, which
    SQLite executes atomically, and [*sql.DB] may be shared by goroutines.
    A concurrent execution of several callers is therefore an
    interleaving of their calls: at each step one caller that still has
    calls to make issues its next one. *)
Inductive interleaving {A : Type} : list (list A) -> list A -> Prop :=
| interleaving_done callers :
    Forall (fun calls => calls = []) callers -> interleaving callers []
| interleaving_step callers i x rest schedule :
    callers !! i = Some (x :: rest) ->
    interleaving (<[i := rest]> callers) schedule ->
    interleaving callers (x :: schedule).

(** The number of calls all callers make together. *)
Definition total_calls {A} (callers : list (list A)) : nat :=
  sum_list (length <$> callers).

(** The exact sum of the sizes of a list of observations. *)
Definition sum_sizes (logs : list LogSize) : Z :=
  foldr (fun l acc => Filesize l + acc) 0 logs.

(** [x], found at index [i], is the first element of [l] with [P]. *)
Definition first_with {A} (P : A -> Prop) (l : list A) (i : nat) (x : A) : Prop :=
  l !! i = Some x /\ P x /\ forall j y, l !! j = Some y -> (j < i)%nat -> ~ P y.

(** [x], found at index [i], is the first observation of [l] with the
    latest instant. *)
Definition first_latest (l : list LogSize) (i : nat) (x : LogSize) : Prop :=
  l !! i = Some x
  /\ (forall y, y ∈ l -> abs_ns (Timestamp y) <= abs_ns (Timestamp x))
  /\ (forall j y, l !! j = Some y -> (j < i)%nat ->
        abs_ns (Timestamp y) < abs_ns (Timestamp x)).

(** A size lies in a range: [Min <= size < Max]. *)
Definition in_size_range (size : Z) (r : sizeRange) : Prop :=
  Min r <= size /\ size < Max r.

#[local] Instance in_size_range_dec size r : Decision (in_size_range size r).
Proof. unfold in_size_range. apply _. Defined.

(** The index of the first range of the table, in its order, that holds
    the size. *)
Definition range_index (size : Z) : option nat :=
  fst <$> list_find (in_size_range size) ranges.

(** The number of observations of [logs] that fall in range [j]. *)
Definition hits (j : nat) (logs : list LogSize) : Z :=
  len (filter (fun l => range_index (Filesize l) = Some j) logs).

(** The number of observations that no range holds. *)
Definition misses (logs : list LogSize) : Z :=
  len (filter (fun l => range_index (Filesize l) = None) logs).

(** The observations of [logs] whose hour key is [k], in input order. *)
Definition hour_logs (k : string) (logs : list LogSize) : list LogSize :=
  filter (fun l => hourKey l = k) logs.

(** The start of the clock hour that holds [t] on the wall clock of the
    zone of [t]: minutes, seconds and fractions of the local time set to
    zero, in the same zone. *)
Definition clock_hour_start (t : Time) : Time :=
  let local := abs_ns t + zone_offset t * Second in
  mkTime (local - local mod Hour - zone_offset t * Second) (zone_offset t).

(** Inputs of the tests of [handlers_test.go] and of the examples
    below. *)
Definition three_in_two_hours : list LogSize := [
  mkLogSize 1 (Date 2024 1 1 10 0 0 0) 1500;
  mkLogSize 2 (Date 2024 1 1 10 30 0 0) 1500;
  mkLogSize 3 (Date 2024 1 1 11 0 0 0) 700
].

(** The buckets of [three_in_two_hours]. *)
Definition two_hour_buckets : list TimeSeriesPoint := [
  mkPoint "2024-01-01T10:00:00Z" 2 3000;
  mkPoint "2024-01-01T11:00:00Z" 1 700
].

(** The sizes of the summary example of the specification. *)
Definition sizes_1000_2000_3000 : list LogSize := [
  mkLogSize 1 (Date 2024 1 1 8 0 0 0) 1000;
  mkLogSize 2 (Date 2024 1 1 9 0 0 0) 2000;
  mkLogSize 3 (Date 2024 1 1 10 0 0 0) 3000
].

(** The row of [calculateSizeBreakdown] for range [j], named [name]:
    the number of observations of the range and their percentage. *)
Definition breakdown_row (name : string) (j : nat) (logs : list LogSize)
  : SizeBreakdown :=
  mkBreakdown name (hits j logs) (percentage_of (hits j logs) (len logs)).

(** What the percentage of a row is: zero when there is no observation;
    otherwise the binary64 value of [count / total * 100], which is
    [100 * count / total] up to a relative error of [2^-50]. *)
Definition percentage_spec (count total : Z) (p : float64) : Prop :=
  (total = 0 -> p = zero)
  /\ (0 < total ->
       p = mul (div (of_int count) (of_int total)) (of_int 100)
       /\ exists q, to_Q p = Some q
            /\ (Qabs (q - 100 * inject_Z count / inject_Z total)
                 <= percent_error * (100 * inject_Z count / inject_Z total))%Q).

(** One observation in each of the six ranges. *)
Definition one_per_range : list LogSize := [
  mkLogSize 1 (Date 2024 1 1 10 0 0 0) 512;
  mkLogSize 2 (Date 2024 1 1 10 0 1 0) (5 * 1024);
  mkLogSize 3 (Date 2024 1 1 10 0 2 0) (50 * 1024);
  mkLogSize 4 (Date 2024 1 1 10 0 3 0) (500 * 1024);
  mkLogSize 5 (Date 2024 1 1 10 0 4 0) (5 * 1024 * 1024);
  mkLogSize 6 (Date 2024 1 1 10 0 5 0) (50 * 1024 * 1024)
].

(** Three observations, one of them of negative size. *)
Definition with_negative : list LogSize := [
  mkLogSize 1 (Date 2024 1 1 10 0 0 0) 512;
  mkLogSize 2 (Date 2024 1 1 10 0 1 0) (-1);
  mkLogSize 3 (Date 2024 1 1 10 0 2 0) 2048
].

(** Requests served one after the other by the ingestion handler, each
    with the clock reading of its insert: the store they leave and the
    responses, in order. *)
Fixpoint serve_all (c : SQLiteController) (requests : list (Time * Request))
  : SQLiteController * list ResponseRecorder :=
  match requests with
  | [] => (c, [])
  | (now, r) :: rest =>
      let '(c1, w) := makeIngestionHandler c now r in
      let '(c2, ws) := serve_all c1 rest in
      (c2, w :: ws)
  end.

(** The size the ingestion handler stores for a request, if it is one the
    handler passes on to the store: a POST whose body can be read and is
    not empty. *)
Definition accepted_size (r : Request) : option Z :=
  if String.eqb (Method r) MethodPost then
    match Body r with
    | Some body => if 0 <? bodySize body then Some (bodySize body) else None
    | None => None
    end
  else None.

(** The rows an open store with row ids to spare gains from a run of
    requests: one per accepted request, in order. *)
Definition accepted (requests : list (Time * Request)) : list (Time * Z) :=
  omap (fun '(now, r) => pair now <$> accepted_size r) requests.

(** The sum of [f] over a list. *)
Definition sum_with {A} (f : A -> Z) (l : list A) : Z :=
  foldr (fun x acc => f x + acc) 0 l.

(** The largest number of hours whose length in nanoseconds fits a
    [time.Duration], and the largest for which the negated product
    [-hours * time.Hour] wraps around once. *)
Definition max_duration_hours : Z := 2562047.
Definition max_wrapped_hours : Z := 5124095.

(** A request for the time series of the last [hours] hours, as
    [/api/charts/timeseries?hours=...] is parsed. *)
Definition timeseries_request (hours : string) : Request :=
  mkRequest "GET" "/api/charts/timeseries" {[ "hours"%string := [hours] ]} None.

(** The requests of the table of [TestMakeIngestionHandler], each with a
    clock reading. *)
Definition test_requests : list (Time * Request) := [
  (Date 2024 1 1 10 0 0 0, mkRequest "POST" "/ingest" ∅ (Some "test log data"));
  (Date 2024 1 1 10 0 1 0, mkRequest "GET" "/ingest" ∅ (Some EmptyString));
  (Date 2024 1 1 10 0 2 0, mkRequest "POST" "/ingest" ∅ (Some EmptyString));
  (Date 2024 1 1 10 0 3 0, mkRequest "POST" "/ingest" ∅ (Some "This is test log data"))
]%string.

(** A bound on the relative error of an average, which goes through
    three roundings: two conversions and a division. *)
Definition average_error : Q := 1 # (2 ^ 51).

(** The number of days from January 1 of year 1 to a date of the
    proleptic Gregorian calendar. *)
Definition days_of_civil (y m d : Z) : Z :=
  days_before_year y + days_before_month y m + (d - 1).

(** The seconds of the wall clock of [t] since the zero time, and the
    instants whose wall clock shows a year from 1 to 9999, the years
    that are written with four digits. *)
Definition wall_seconds (t : Time) : Z := abs_ns t / Second + zone_offset t.

Definition four_digit_year (t : Time) : Prop :=
  0 <= wall_seconds t < 3652059 * 86400.

(** A zone whose offset is a whole number of minutes, less than a
    hundred hours from UTC: the offsets the suffix [+hh:mm] can show. *)
Definition whole_minute_zone (t : Time) : Prop :=
  zone_offset t mod 60 = 0 /\ -360000 < zone_offset t < 360000.

(** Two dots in a row occur in a string. *)
Fixpoint has_dotdot (s : string) : bool :=
  match s with
  | String c (String c' _ as s') =>
      (Ascii.eqb c "." && Ascii.eqb c' ".") || has_dotdot s'
  | _ => false
  end.

(** No path separator occurs in a string. *)
Fixpoint separator_free (s : string) : bool :=
  match s with
  | EmptyString => true
  | String c s' => negb (IsPathSeparator c) && separator_free s'
  end.

(** A string ends with a path separator, and a string is empty or ends
    with one: the places of a path where an element starts. *)
Fixpoint ends_with_separator (s : string) : bool :=
  match s with
  | EmptyString => false
  | String c EmptyString => IsPathSeparator c
  | String _ s' => ends_with_separator s'
  end.

Definition at_boundary (s : string) : bool :=
  match s with
  | EmptyString => true
  | _ => ends_with_separator s
  end.

(** The extensions the static file handler knows, each with its
    content type. *)
Definition known_types : list (string * string) :=
  [(".css", "text/css"); (".js", "application/javascript");
   (".html", "text/html")]%string.

(** A path is the directory of the static files or lies below it. *)
Definition under_static (path : string) : Prop :=
  path = "src/gui/static"%string
  \/ exists rest, path = ("src/gui/static/" ++ rest)%string.

(** A request for a path, as the static file handler reads it. *)
Definition static_request (path : string) : Request :=
  mkRequest "GET" path ∅ None.

(** The files of the dashboard. *)
Definition dashboard_files : FileSystem :=
  {[ "src/gui/static/css/dashboard.css"%string := RegularFile "body { margin: 0; }";
     "src/gui/static/js/dashboard.js"%string := RegularFile "new LogPushDashboard();" ]}.

(** The two shapes of an answer of the API: status 200 with the success
    flag, data and no message; or status 500 with no success flag, no
    data and a message.  Either way the body is declared as JSON and
    the answer may be read from any origin. *)
Definition api_answer (w : ResponseWriter) : Prop :=
  ContentType w = "application/json"%string
  /\ AccessControlAllowOrigin w = "*"%string
  /\ ((Code w = 200 /\ Success (Encoded w) = true
        /\ Data (Encoded w) <> None /\ Error (Encoded w) = EmptyString)
      \/ (Code w = 500 /\ Success (Encoded w) = false
          /\ Data (Encoded w) = None /\ Error (Encoded w) <> EmptyString)).





(* ===================================================================== *)
(** * Binary64 rounding

    The operations of [Float64] round to nearest, ties to even.  This
    section follows a positive rational through the rounding of
    [SpecFloat]: the shifts that cut the mantissa to 53 bits keep track of
    where the number lies between two neighbouring mantissas, and the
    result is within one unit roundoff, [2^-53], of the number. *)
(* ===================================================================== *)

Lemma shr_1_located N D mrs : located N D mrs -> located N (2 * D) (shr_1 mrs).
Proof.
  destruct mrs as [m r s]. unfold located. cbn [shr_m shr_r shr_s].
  intros (HD & Hm & HN & Hr & Hs).
  assert (Hrs : orb r s = true <-> N <> m * D).
  { rewrite orb_true_iff, Hr, Hs. clear Hr Hs.
    split; [intros [?|[? ?]]; lia|].
    intros ?. destruct (Z.eq_dec (2 * N) ((2 * m + 1) * D)); [left|right]; lia. }
  clear Hr Hs.
  destruct m as [|[p|p|]|p]; cbn [shr_1 shr_m shr_r shr_s]; rewrite ?Hrs;
    lia.
Qed.

Lemma pow2_xO p : 2 ^ Z.pos p~0 = 2 ^ Z.pos p * 2 ^ Z.pos p.
Proof. rewrite <- Z.pow_add_r by lia. f_equal. lia. Qed.

Lemma pow2_xI p : 2 ^ Z.pos p~1 = 2 * (2 ^ Z.pos p * 2 ^ Z.pos p).
Proof.
  rewrite <- Z.pow_add_r by lia. rewrite <- Z.pow_succ_r by lia. f_equal. lia.
Qed.

Lemma iter_pos_located p : forall N D mrs,
  located N D mrs -> located N (D * 2 ^ Z.pos p) (SpecFloat.iter_pos shr_1 p mrs).
Proof.
  induction p as [p IH|p IH|]; intros N D mrs H; cbn [SpecFloat.iter_pos].
  - replace (D * 2 ^ Z.pos p~1) with (2 * D * 2 ^ Z.pos p * 2 ^ Z.pos p)
      by (rewrite pow2_xI; ring).
    apply IH, IH. by apply shr_1_located.
  - replace (D * 2 ^ Z.pos p~0) with (D * 2 ^ Z.pos p * 2 ^ Z.pos p)
      by (rewrite pow2_xO; ring).
    by apply IH, IH.
  - replace (D * 2 ^ 1) with (2 * D) by lia. by apply shr_1_located.
Qed.

Lemma iter_pos_located_m p N D mrs :
  located N D mrs -> shr_m (SpecFloat.iter_pos shr_1 p mrs) = shr_m mrs / 2 ^ Z.pos p.
Proof.
  intros H. pose proof (iter_pos_located p N D mrs H) as H'.
  destruct H as (HD & Hm & HN & _). destruct H' as (HD' & Hm' & HN' & _).
  set (m' := shr_m (SpecFloat.iter_pos shr_1 p mrs)) in *. set (m := shr_m mrs) in *.
  assert (0 < 2 ^ Z.pos p) by (apply Z.pow_pos_nonneg; lia).
  set (P := 2 ^ Z.pos p) in *.
  apply Z.div_unique with (r := m - m' * P); [|lia].
  left. split.
  - assert (m' * P * D < (m + 1) * D) by lia.
    assert (m' * P < m + 1) by (apply (Z.mul_lt_mono_pos_r D); lia). lia.
  - assert (m * D < (m' + 1) * P * D) by lia.
    assert (m < (m' + 1) * P) by (apply (Z.mul_lt_mono_pos_r D); lia). lia.
Qed.

(** Rounding to nearest, ties to even, moves to one of the two
    neighbouring integers, at most half a unit away. *)
Lemma round_nearest_even_located N D mrs :
  located N D mrs ->
  let n := round_nearest_even (shr_m mrs) (loc_of_shr_record mrs) in
  shr_m mrs <= n <= shr_m mrs + 1 /\ Z.abs (2 * n * D - 2 * N) <= D.
Proof.
  destruct mrs as [m r s]. unfold located. cbn [shr_m shr_r shr_s].
  intros (HD & Hm & HN & Hr & Hs).
  destruct r, s; cbn [loc_of_shr_record round_nearest_even].
  - assert ((2 * m + 1) * D <= 2 * N) by (by apply Hr). lia.
  - assert ((2 * m + 1) * D <= 2 * N) by (by apply Hr).
    assert (~ (N <> m * D /\ 2 * N <> (2 * m + 1) * D))
      by (intros HH; apply Hs in HH; done).
    destruct (Z.even m); lia.
  - assert (~ (2 * m + 1) * D <= 2 * N) by (intros HH; apply Hr in HH; done). lia.
  - assert (~ (2 * m + 1) * D <= 2 * N) by (intros HH; apply Hr in HH; done). lia.
Qed.

Lemma digits2_pos_size p : digits2_pos p = Pos.size p.
Proof. induction p; simpl; congruence. Qed.

Lemma Zdigits2_bounds m :
  0 < m -> 2 ^ (Zdigits2 m - 1) <= m < 2 ^ Zdigits2 m.
Proof.
  destruct m as [|p|p]; try lia. intros _. cbn [Zdigits2].
  rewrite digits2_pos_size.
  pose proof (Pos.size_gt p) as Hgt. pose proof (Pos.size_le p) as Hle.
  apply Pos2Z.pos_lt_pos in Hgt. apply Pos2Z.pos_le_pos in Hle.
  rewrite Pos2Z.inj_pow in Hgt, Hle.
  split; [|exact Hgt].
  replace (Z.pos (Pos.size p)) with (Z.succ (Z.pos (Pos.size p) - 1)) in Hle by lia.
  rewrite Z.pow_succ_r in Hle by lia. lia.
Qed.

Lemma Zdigits2_unique m d :
  2 ^ (d - 1) <= m < 2 ^ d -> 0 < d -> Zdigits2 m = d.
Proof.
  intros Hm Hd.
  assert (0 < m) by (pose proof (Z.pow_pos_nonneg 2 (d - 1)); lia).
  pose proof (Zdigits2_bounds m H) as Hb.
  assert (0 < Zdigits2 m) by (destruct m; simpl; lia).
  destruct (Z.lt_trichotomy (Zdigits2 m) d) as [Hlt|[Heq|Hgt]]; [|done|].
  - assert (2 ^ Zdigits2 m <= 2 ^ (d - 1)) by (apply Z.pow_le_mono_r; lia). lia.
  - assert (2 ^ d <= 2 ^ (Zdigits2 m - 1)) by (apply Z.pow_le_mono_r; lia). lia.
Qed.

Lemma shr_m_of_loc m l : shr_m (shr_record_of_loc m l) = m.
Proof. by destruct l as [|[]]. Qed.

Lemma located_exact m : 0 <= m -> located m 1 (shr_record_of_loc m loc_Exact).
Proof. intros Hm. unfold located. simpl. repeat split; try lia; try done. Qed.

(** The first step of rounding: the mantissa is cut down to 53 bits. *)
Lemma shr_fexp_located mx ex lx N D :
  located N D (shr_record_of_loc mx lx) ->
  53 <= Zdigits2 mx -> -1074 <= ex ->
  exists mrs,
    shr_fexp 53 1024 mx ex lx = (mrs, ex + (Zdigits2 mx - 53))
    /\ located N (D * 2 ^ (Zdigits2 mx - 53)) mrs
    /\ 2 ^ 52 <= shr_m mrs < 2 ^ 53.
Proof.
  intros Hloc Hd Hex.
  assert (Hpos : 0 < mx).
  { destruct Hloc as (_ & H0 & _). rewrite shr_m_of_loc in H0.
    destruct mx; simpl in Hd; lia. }
  pose proof (Zdigits2_bounds mx Hpos) as Hb.
  unfold shr_fexp, fexp, emin.
  replace (Z.max (Zdigits2 mx + ex - 53) (3 - 1024 - 53) - ex)
    with (Zdigits2 mx - 53) by lia.
  destruct (Zdigits2 mx - 53) as [|p|p] eqn:Hn; [| |lia]; unfold shr.
  - eexists. split; [by rewrite Z.add_0_r|]. rewrite Z.mul_1_r.
    split; [done|]. rewrite shr_m_of_loc.
    replace (Zdigits2 mx) with 53 in Hb by lia. exact Hb.
  - eexists. split; [done|]. split; [by apply iter_pos_located|].
    rewrite (iter_pos_located_m p N D _ Hloc), shr_m_of_loc.
    assert (0 < 2 ^ Z.pos p) by (apply Z.pow_pos_nonneg; lia).
    replace (Zdigits2 mx) with (Z.pos p + 53) in Hb by lia.
    replace (Z.pos p + 53 - 1) with (52 + Z.pos p) in Hb by lia.
    replace (Z.pos p + 53) with (53 + Z.pos p) in Hb by lia.
    rewrite !Z.pow_add_r in Hb by lia. split.
    + apply Z.div_le_lower_bound; lia.
    + apply Z.div_lt_upper_bound; lia.
Qed.

(** Rounding a located positive number to binary64. *)
Lemma binary_round_aux_located mx ex lx N D :
  located N D (shr_record_of_loc mx lx) ->
  53 <= Zdigits2 mx -> -1074 <= ex -> ex + Zdigits2 mx <= 1023 ->
  let D' := D * 2 ^ (Zdigits2 mx - 53) in
  let e' := ex + (Zdigits2 mx - 53) in
  exists m e m1,
    binary_round_aux 53 1024 false mx ex lx = S754_finite false m e
    /\ Zdigits2 (Z.pos m) = 53
    /\ e' <= e <= e' + 1
    /\ m1 = Z.pos m * 2 ^ (e - e')
    /\ Z.abs (2 * m1 * D' - 2 * N) <= D'
    /\ 2 ^ 52 * D' <= N.
Proof.
  intros Hloc Hd Hex Hmax D' e'.
  destruct (shr_fexp_located mx ex lx N D Hloc Hd Hex) as (mrs & Hshr & Hloc' & Hm).
  fold D' in Hloc'. fold e' in Hshr.
  unfold binary_round_aux. rewrite Hshr.
  destruct (round_nearest_even_located N D' mrs Hloc') as (Hn & Habs).
  set (m1 := round_nearest_even (shr_m mrs) (loc_of_shr_record mrs)) in *.
  assert (H52 : 2 ^ 52 * D' <= N).
  { destruct Hloc' as (HD' & _ & HN & _). nia. }
  assert (Hm1 : 2 ^ 52 <= m1 <= 2 ^ 53) by lia.
  destruct (Z.eq_dec m1 (2 ^ 53)) as [Heq|Hne].
  - (* the mantissa overflowed to 2^53: one more shift *)
    assert (Hd1 : Zdigits2 m1 = 54) by (rewrite Heq; done).
    destruct (shr_fexp_located m1 e' loc_Exact m1 1) as (mrs2 & Hshr2 & Hloc2 & Hm2).
    { apply located_exact. lia. }
    { lia. }
    { unfold e'. lia. }
    rewrite Hshr2. rewrite Hd1 in *. change (54 - 53) with 1 in *.
    change (1 * 2 ^ 1) with 2 in Hloc2.
    assert (Hsame : shr_m mrs2 = 2 ^ 52).
    { destruct Hloc2 as (_ & _ & HN & _). rewrite Heq in HN. lia. }
    rewrite Hsame. change (2 ^ 52) with (Z.pos (2 ^ 52)) at 1. cbv iota.
    replace (e' + 1 <=? 1024 - 53) with true
      by (symmetry; apply Z.leb_le; unfold e'; lia).
    exists (2 ^ 52)%positive, (e' + 1), m1.
    split; [done|]. split; [done|]. split; [lia|]. split; [|done].
    replace (e' + 1 - e') with 1 by lia. rewrite Heq. done.
  - assert (Hd1 : Zdigits2 m1 = 53) by (apply Zdigits2_unique; lia).
    destruct (shr_fexp_located m1 e' loc_Exact m1 1) as (mrs2 & Hshr2 & Hloc2 & Hm2).
    { apply located_exact. lia. }
    { lia. }
    { unfold e'. lia. }
    rewrite Hshr2. rewrite Hd1 in *. change (53 - 53) with 0 in *.
    rewrite Z.add_0_r. change (1 * 2 ^ 0) with 1 in Hloc2.
    assert (Hsame : shr_m mrs2 = m1).
    { destruct Hloc2 as (_ & _ & HN & _). lia. }
    rewrite Hsame. destruct m1 as [|p|p] eqn:Hp; try lia.
    replace (e' <=? 1024 - 53) with true by (symmetry; apply Z.leb_le; unfold e'; lia).
    exists p, e', (Z.pos p). split; [done|]. split; [done|]. split; [lia|].
    split; [|done]. rewrite Z.sub_diag. lia.
Qed.

Lemma Qpow2_pos e : (0 < 2 ^ e)%Q.
Proof. by apply Qpower_0_lt. Qed.

Lemma Qpow2_add a b : (2 ^ (a + b) == 2 ^ a * 2 ^ b)%Q.
Proof. by apply Qpower_plus. Qed.

Lemma Qpow2_inject n : 0 <= n -> (inject_Z (2 ^ n) == 2 ^ n)%Q.
Proof. intros Hn. by rewrite Zpower_Qpower. Qed.

(** Rounding a located positive rational: the result is a normal
    binary64 number within one unit roundoff of it. *)
Lemma binary_round_aux_Q mx ex lx N D :
  located N D (shr_record_of_loc mx lx) ->
  53 <= Zdigits2 mx -> -1074 <= ex -> ex + Zdigits2 mx <= 1023 ->
  exists m e,
    binary_round_aux 53 1024 false mx ex lx = S754_finite false m e
    /\ Zdigits2 (Z.pos m) = 53
    /\ ex + Zdigits2 mx - 53 <= e <= ex + Zdigits2 mx - 52
    /\ let x := (inject_Z N / inject_Z D * 2 ^ ex)%Q in
       ((1 - roundoff) * x <= valQ (Z.pos m) e <= (1 + roundoff) * x)%Q.
Proof.
  intros Hloc Hd Hex Hmax.
  destruct (binary_round_aux_located mx ex lx N D Hloc Hd Hex Hmax)
    as (m & e & m1 & Hround & Hdig & He & Hm1 & Habs & H52).
  exists m, e. split; [done|]. split; [done|]. split; [lia|].
  set (n := Zdigits2 mx - 53) in *. set (D' := D * 2 ^ n) in *.
  set (e' := ex + n) in *. cbv zeta.
  assert (HD : 0 < D) by (by destruct Hloc).
  assert (Hn : 0 <= n) by (unfold n; lia).
  assert (HP : 0 < 2 ^ n) by (by apply Z.pow_pos_nonneg).
  assert (HD' : 0 < D') by (unfold D'; lia).
  (* the integer form of the bound *)
  assert (Hlo : 9007199254740991 * N <= 9007199254740992 * (m1 * D')) by lia.
  assert (Hhi : 9007199254740992 * (m1 * D') <= 9007199254740993 * N) by lia.
  rewrite Zle_Qle in Hlo, Hhi.
  rewrite !inject_Z_mult in Hlo, Hhi.
  set (nq := inject_Z N) in *. set (mq := inject_Z m1) in *.
  set (dq := inject_Z D') in *.
  assert (Hdq : (0 < dq)%Q) by (unfold dq; rewrite <- (Zlt_Qlt 0); lia).
  change (inject_Z 9007199254740991) with (9007199254740991 # 1)%Q in Hlo.
  change (inject_Z 9007199254740992) with (9007199254740992 # 1)%Q in Hlo, Hhi.
  change (inject_Z 9007199254740993) with (9007199254740993 # 1)%Q in Hhi.
  assert (Hw : ((1 - roundoff) * nq <= mq * dq <= (1 + roundoff) * nq)%Q).
  { unfold roundoff. change (2 ^ 53)%positive with 9007199254740992%positive. lra. }
  (* both sides as multiples of 2^e' / D' *)
  set (c := (2 ^ e' / dq)%Q).
  assert (Hc : (0 < c)%Q).
  { unfold c. apply Qlt_shift_div_l; [done|]. rewrite Qmult_0_l. apply Qpow2_pos. }
  assert (Hval : (valQ (Z.pos m) e == mq * dq * c)%Q).
  { unfold valQ, c, mq. rewrite Hm1, inject_Z_mult.
    rewrite Qpow2_inject by lia.
    replace e with ((e - e') + e') at 1 by lia. rewrite Qpow2_add.
    field. lra. }
  assert (Hx : (nq / inject_Z D * 2 ^ ex == nq * c)%Q).
  { unfold c, dq, D', e'. rewrite inject_Z_mult, Qpow2_inject by lia.
    rewrite Qpow2_add.
    assert (0 < inject_Z D)%Q by (rewrite <- (Zlt_Qlt 0); lia).
    pose proof (Qpow2_pos n). field. split; lra. }
  rewrite Hval, Hx. destruct Hw as [Hw1 Hw2]. split.
  - rewrite Qmult_assoc. by apply Qmult_le_compat_r; [|lra].
  - rewrite Qmult_assoc. by apply Qmult_le_compat_r; [|lra].
Qed.

Lemma iter_xO_pos p k : Z.pos (Pos.iter xO p k) = Z.pos p * 2 ^ Z.pos k.
Proof.
  change (Pos.iter xO p k) with (shift_pos k p).
  rewrite shift_pos_correct. change (Z.pow_pos 2 k) with (2 ^ Z.pos k). lia.
Qed.

Lemma Zdigits2_range m lo hi :
  2 ^ lo <= m < 2 ^ hi -> 0 <= lo -> lo + 1 <= Zdigits2 m <= hi.
Proof.
  intros Hm Hlo.
  assert (0 < 2 ^ lo) by (by apply Z.pow_pos_nonneg).
  pose proof (Zdigits2_bounds m ltac:(lia)) as Hb.
  assert (0 < Zdigits2 m) by (destruct m; simpl; lia).
  split.
  - destruct (Z.le_gt_cases (lo + 1) (Zdigits2 m)); [done|].
    assert (2 ^ Zdigits2 m <= 2 ^ lo) by (apply Z.pow_le_mono_r; lia). lia.
  - destruct (Z.le_gt_cases (Zdigits2 m) hi); [done|].
    assert (2 ^ hi <= 2 ^ (Zdigits2 m - 1)) by (apply Z.pow_le_mono_r; lia). lia.
Qed.

(** ** Conversion of an integer *)

Lemma of_int_Q n :
  0 < n < 2 ^ 64 ->
  exists m e,
    of_int n = S754_finite false m e
    /\ Zdigits2 (Z.pos m) = 53
    /\ -52 <= e <= 12
    /\ ((1 - roundoff) * inject_Z n <= valQ (Z.pos m) e <= (1 + roundoff) * inject_Z n)%Q.
Proof.
  intros Hn. destruct n as [|p|p]; try lia.
  unfold of_int, binary_normalize, binary_round, prec, emax.
  set (d := Z.pos (digits2_pos p)).
  assert (Hd : Zdigits2 (Z.pos p) = d) by done.
  pose proof (Zdigits2_bounds (Z.pos p) ltac:(lia)) as Hb. rewrite Hd in Hb.
  assert (Hd64 : 1 <= d <= 64).
  { split; [unfold d; lia|].
    destruct (Z.le_gt_cases d 64); [done|].
    assert (2 ^ 64 <= 2 ^ (d - 1)) by (apply Z.pow_le_mono_r; lia). lia. }
  unfold fexp, emin, shl_align.
  replace (Z.max (d + 0 - 53) (3 - 1024 - 53) - 0) with (d - 53) by lia.
  destruct (d - 53) as [|k|k] eqn:Hk.
  - (* exactly 53 bits *)
    destruct (binary_round_aux_Q (Z.pos p) 0 loc_Exact (Z.pos p) 1)
      as (m & e & Hr & Hdig & He & Hv); [by apply located_exact|lia|lia|lia|].
    exists m, e. split; [done|]. split; [done|]. split; [lia|].
    cbv zeta in Hv.
    assert (Hx : (inject_Z (Z.pos p) / inject_Z 1 * 2 ^ 0 == inject_Z (Z.pos p))%Q)
      by (simpl; field).
    by rewrite Hx in Hv.
  - (* more than 53 bits: the rounding cuts *)
    destruct (binary_round_aux_Q (Z.pos p) 0 loc_Exact (Z.pos p) 1)
      as (m & e & Hr & Hdig & He & Hv); [by apply located_exact|lia|lia|lia|].
    exists m, e. split; [done|]. split; [done|]. split; [lia|].
    cbv zeta in Hv.
    assert (Hx : (inject_Z (Z.pos p) / inject_Z 1 * 2 ^ 0 == inject_Z (Z.pos p))%Q)
      by (simpl; field).
    by rewrite Hx in Hv.
  - (* fewer than 53 bits: the mantissa is shifted left first *)
    set (mz := Pos.iter xO p k).
    assert (Hmz : Z.pos mz = Z.pos p * 2 ^ Z.pos k) by apply iter_xO_pos.
    assert (Hdz : Zdigits2 (Z.pos mz) = 53).
    { apply Zdigits2_unique; [|lia]. rewrite Hmz.
      replace 53 with (d + Z.pos k) at 2 by lia.
      replace (53 - 1) with (d - 1 + Z.pos k) by lia.
      rewrite !Z.pow_add_r by lia.
      assert (0 < 2 ^ Z.pos k) by (by apply Z.pow_pos_nonneg). nia. }
    replace (Z.max (d + 0 - 53) (3 - 1024 - 53)) with (Z.neg k) by lia.
    destruct (binary_round_aux_Q (Z.pos mz) (Z.neg k) loc_Exact (Z.pos mz) 1)
      as (m & e & Hr & Hdig & He & Hv); [by apply located_exact|lia|lia|lia|].
    exists m, e. split; [done|]. split; [done|]. split; [lia|].
    cbv zeta in Hv.
    assert (Hx : (inject_Z (Z.pos mz) / inject_Z 1 * 2 ^ Z.neg k
                  == inject_Z (Z.pos p))%Q).
    { rewrite Hmz, inject_Z_mult, Qpow2_inject by lia.
      change (Z.neg k) with (- Z.pos k). rewrite Qpower_opp.
      pose proof (Qpow2_pos (Z.pos k)). change (inject_Z 1) with 1%Q. field. lra. }
    by rewrite Hx in Hv.
Qed.

(** ** Multiplication *)

Lemma mul_Q m1 e1 m2 e2 :
  Zdigits2 (Z.pos m1) = 53 -> Zdigits2 (Z.pos m2) = 53 ->
  -1074 <= e1 + e2 -> e1 + e2 + 106 <= 1023 ->
  exists m e,
    mul (S754_finite false m1 e1) (S754_finite false m2 e2) = S754_finite false m e
    /\ Zdigits2 (Z.pos m) = 53
    /\ e1 + e2 + 52 <= e <= e1 + e2 + 54
    /\ let x := (valQ (Z.pos m1) e1 * valQ (Z.pos m2) e2)%Q in
       ((1 - roundoff) * x <= valQ (Z.pos m) e <= (1 + roundoff) * x)%Q.
Proof.
  intros Hd1 Hd2 Hlo Hhi. unfold mul, SFmul, prec, emax. cbn [xorb].
  pose proof (Zdigits2_bounds (Z.pos m1) ltac:(lia)) as Hb1.
  pose proof (Zdigits2_bounds (Z.pos m2) ltac:(lia)) as Hb2.
  rewrite Hd1 in Hb1. rewrite Hd2 in Hb2. change (53 - 1) with 52 in *.
  assert (Hd : 105 <= Zdigits2 (Z.pos (m1 * m2)) <= 106).
  { apply (Zdigits2_range _ 104 106); [|lia]. rewrite Pos2Z.inj_mul.
    change (2 ^ 104) with (2 ^ 52 * 2 ^ 52). change (2 ^ 106) with (2 ^ 53 * 2 ^ 53).
    nia. }
  destruct (binary_round_aux_Q (Z.pos (m1 * m2)) (e1 + e2) loc_Exact
              (Z.pos (m1 * m2)) 1)
    as (m & e & Hr & Hdig & He & Hv); [by apply located_exact|lia|lia|lia|].
  exists m, e. split; [done|]. split; [done|]. split; [lia|].
  cbv zeta in Hv |- *.
  assert (Hx : (inject_Z (Z.pos (m1 * m2)) / inject_Z 1 * 2 ^ (e1 + e2)
                == valQ (Z.pos m1) e1 * valQ (Z.pos m2) e2)%Q).
  { unfold valQ. rewrite Pos2Z.inj_mul, inject_Z_mult, Qpow2_add.
    change (inject_Z 1) with 1%Q. field. }
  by rewrite Hx in Hv.
Qed.

(** ** Division *)

Lemma new_location_located d q r :
  0 < d -> 0 <= q -> 0 <= r < d ->
  located (d * q + r) d (shr_record_of_loc q (new_location d r)).
Proof.
  intros Hd Hq Hr. unfold new_location, new_location_even, new_location_odd.
  destruct (Z.even d) eqn:Heven.
  - destruct (Z.eqb_spec r 0) as [->|Hr0]; [located_case|].
    destruct (Z.compare_spec (2 * r) d); located_case.
  - assert (Hodd : 2 * r <> d).
    { intros <-. rewrite Z.even_mul in Heven. done. }
    destruct (Z.eqb_spec r 0) as [->|Hr0]; [located_case|].
    destruct (Z.compare_spec (2 * r + 1) d); located_case.
Qed.

Lemma div_Q m1 e1 m2 e2 :
  Zdigits2 (Z.pos m1) = 53 -> Zdigits2 (Z.pos m2) = 53 ->
  -1074 <= e1 - e2 - 53 -> e1 - e2 + 1 <= 1023 ->
  exists m e,
    div (S754_finite false m1 e1) (S754_finite false m2 e2) = S754_finite false m e
    /\ Zdigits2 (Z.pos m) = 53
    /\ e1 - e2 - 53 <= e <= e1 - e2 - 51
    /\ let x := (valQ (Z.pos m1) e1 / valQ (Z.pos m2) e2)%Q in
       ((1 - roundoff) * x <= valQ (Z.pos m) e <= (1 + roundoff) * x)%Q.
Proof.
  intros Hd1 Hd2 Hlo Hhi. unfold div, SFdiv, SFdiv_core_binary, prec, emax.
  cbn [xorb]. rewrite Hd1, Hd2. unfold fexp, emin.
  replace (Z.min (Z.max (53 + e1 - (53 + e2) - 53) (3 - 1024 - 53)) (e1 - e2))
    with (e1 - e2 - 53) by lia.
  replace (e1 - e2 - (e1 - e2 - 53)) with 53 by lia. cbv iota.
  rewrite Z.shiftl_mul_pow2 by lia.
  pose proof (Zdigits2_bounds (Z.pos m1) ltac:(lia)) as Hb1.
  pose proof (Zdigits2_bounds (Z.pos m2) ltac:(lia)) as Hb2.
  rewrite Hd1 in Hb1. rewrite Hd2 in Hb2. change (53 - 1) with 52 in *.
  set (N := Z.pos m1 * 2 ^ 53).
  pose proof (Z_div_mod N (Z.pos m2) ltac:(lia)) as Hdm.
  destruct (Z.div_eucl N (Z.pos m2)) as [q r]. destruct Hdm as [HN Hr].
  assert (Hq : 2 ^ 52 <= q < 2 ^ 54).
  { unfold N in HN. change (2 ^ 54) with (2 * 2 ^ 53). nia. }
  assert (Hdq : 53 <= Zdigits2 q <= 54) by (apply (Zdigits2_range _ 52 54); lia).
  destruct (binary_round_aux_Q q (e1 - e2 - 53) (new_location (Z.pos m2) r)
              N (Z.pos m2))
    as (m & e & Hround & Hdig & He & Hv);
    [rewrite HN; apply new_location_located; lia|lia|lia|lia|].
  rewrite Hround. exists m, e. split; [done|]. split; [done|]. split; [lia|].
  cbv zeta in Hv |- *.
  assert (Hx : (inject_Z N / inject_Z (Z.pos m2) * 2 ^ (e1 - e2 - 53)
                == valQ (Z.pos m1) e1 / valQ (Z.pos m2) e2)%Q).
  { unfold valQ, N. rewrite inject_Z_mult, Qpow2_inject by lia.
    replace (e1 - e2 - 53) with (e1 + (- e2 + - (53))) by lia.
    rewrite !Qpow2_add, !Qpower_opp.
    pose proof (Qpow2_pos e2). pose proof (Qpow2_pos 53).
    assert (0 < inject_Z (Z.pos m2))%Q by (rewrite <- (Zlt_Qlt 0); lia).
    field. repeat split; lra. }
  by rewrite Hx in Hv.
Qed.

Lemma Qdiv_le_mono (a1 a2 b1 b2 : Q) :
  (0 <= a1 <= a2 -> 0 < b2 <= b1 -> a1 / b1 <= a2 / b2)%Q.
Proof.
  intros [Ha1 Ha] [Hb2 Hb].
  apply Qle_shift_div_l; [done|].
  assert (Heq : (a1 / b1 * b2 == a1 * b2 / b1)%Q) by (field; lra).
  rewrite Heq. apply Qle_shift_div_r; [lra|]. nra.
Qed.

Lemma of_int_100 : of_int 100 = S754_finite false 7036874417766400 (-46).
Proof. reflexivity. Qed.

Lemma valQ_100 : (valQ 7036874417766400 (-46) == 100)%Q.
Proof. reflexivity. Qed.

Lemma percentage_of_Q c t :
  0 < c <= t -> t < 2 ^ 63 ->
  exists m e,
    percentage_of c t = S754_finite false m e
    /\ let x := (100 * inject_Z c / inject_Z t)%Q in
       ((1 - percent_error) * x <= valQ (Z.pos m) e <= (1 + percent_error) * x)%Q.
Proof.
  intros Hc Ht. unfold percentage_of.
  replace (0 <? t) with true by (symmetry; apply Z.ltb_lt; lia).
  destruct (of_int_Q c) as (ma & ea & -> & Hda & Hea & Ha); [lia|].
  destruct (of_int_Q t) as (mb & eb & -> & Hdb & Heb & Hb); [lia|].
  destruct (div_Q ma ea mb eb) as (mr & er & -> & Hdr & Her & Hr); [done|done|lia|lia|].
  rewrite of_int_100.
  destruct (mul_Q mr er 7036874417766400 (-46))
    as (mp & ep & -> & Hdp & Hep & Hp); [done|done|lia|lia|].
  exists mp, ep. split; [done|]. cbv zeta in *.
  rewrite valQ_100 in Hp.
  set (A := valQ (Z.pos ma) ea) in *. set (B := valQ (Z.pos mb) eb) in *.
  set (R := valQ (Z.pos mr) er) in *. set (P := valQ (Z.pos mp) ep) in *.
  set (cq := inject_Z c) in *. set (tq := inject_Z t) in *.
  assert (Hcq : (0 < cq)%Q) by (unfold cq; rewrite <- (Zlt_Qlt 0); lia).
  assert (Htq : (0 < tq)%Q) by (unfold tq; rewrite <- (Zlt_Qlt 0); lia).
  unfold roundoff in *. change (2 ^ 53)%positive with 9007199254740992%positive in *.
  assert (Hup : (A / B <= ((1 + (1 # 9007199254740992)) * cq)
                          / ((1 - (1 # 9007199254740992)) * tq))%Q).
  { apply Qdiv_le_mono; lra. }
  assert (Hdn : (((1 - (1 # 9007199254740992)) * cq)
                   / ((1 + (1 # 9007199254740992)) * tq) <= A / B)%Q).
  { apply Qdiv_le_mono; lra. }
  set (X := (A / B)%Q) in *. set (rho := (cq / tq)%Q).
  assert (Hup' : (((1 + (1 # 9007199254740992)) * cq)
                    / ((1 - (1 # 9007199254740992)) * tq)
                  == (9007199254740993 # 9007199254740991) * rho)%Q)
    by (unfold rho; field; lra).
  assert (Hdn' : (((1 - (1 # 9007199254740992)) * cq)
                    / ((1 + (1 # 9007199254740992)) * tq)
                  == (9007199254740991 # 9007199254740993) * rho)%Q)
    by (unfold rho; field; lra).
  rewrite Hup' in Hup. rewrite Hdn' in Hdn.
  assert (Hx : (100 * cq / tq == 100 * rho)%Q) by (unfold rho; field; lra).
  rewrite Hx. unfold percent_error. change (2 ^ 50)%positive with 1125899906842624%positive.
  assert (Hrho : (0 < rho)%Q).
  { unfold rho. apply Qlt_shift_div_l; lra. }
  split; lra.
Qed.

(* ===================================================================== *)
(** * The store: ordering and range queries *)
(* ===================================================================== *)

Section OrderBy.

Variable key : LogSize -> Z.





(** A row whose key lies above every key of a table in strict key order
    goes to the end. *)
Lemma insert_by_last r l :
  Forall (fun x => key x <= key r) l -> insert_by key r l = l ++ [r].
Proof.
  induction 1 as [|x l Hx _ IH]; simpl; [done|].
  destruct (Z.ltb_spec (key r) (key x)); [lia|]. by rewrite IH.
Qed.

(** Sorting leaves a table in strict key order as it is. *)
Lemma order_by_id l : StronglySorted (key_lt key) l -> order_by key l = l.
Proof.
  induction 1 as [|x l Hs IH Hx]; simpl; [done|].
  rewrite IH. destruct l as [|y l']; simpl; [done|].
  apply Forall_cons in Hx as [Hxy _]. unfold key_lt in Hxy.
  destruct (Z.ltb_spec (key x) (key y)); [done|lia].
Qed.

End OrderBy.

Lemma scan_rows_acc rows acc :
  fold_left (fun out (l : LogSize) => out ++ [l]) rows acc = acc ++ rows.
Proof.
  revert acc. induction rows as [|r rows IH]; intros acc; simpl.
  - by rewrite app_nil_r.
  - rewrite IH. by rewrite <- app_assoc.
Qed.

Lemma scan_rows_id rows : scan_rows rows = rows.
Proof. unfold scan_rows. by rewrite scan_rows_acc. Qed.


(* ===================================================================== *)
(** * The store: inserting *)
(* ===================================================================== *)

Lemma largest_rowid_bound rows : Forall (fun r => ID r <= largest_rowid rows) rows.
Proof.
  induction rows as [|r rows IH]; simpl; constructor; [lia|].
  eapply Forall_impl; [exact IH|]. simpl. intros; lia.
Qed.

Lemma id_ordered_snoc rows r :
  id_ordered rows -> largest_rowid rows < ID r -> id_ordered (rows ++ [r]).
Proof.
  intros Hs Hr. apply StronglySorted_app_2; [| exact Hs | repeat constructor].
  intros x y Hx Hy. apply list_elem_of_singleton in Hy as ->.
  pose proof (largest_rowid_bound rows) as Hb.
  rewrite Forall_forall in Hb. specialize (Hb _ Hx). unfold key_lt. lia.
Qed.

Lemma largest_rowid_snoc rows r :
  largest_rowid (rows ++ [r]) = Z.max (ID r) (largest_rowid rows).
Proof.
  induction rows as [|x rows IH]; simpl; [lia|]. rewrite IH. lia.
Qed.

(** What a successful insert does: one row is appended, carrying the
    next row id, the clock reading and the size as given. *)
Lemma InsertLogSize_success c now size c' :
  InsertLogSize c now size = (c', None) ->
  closed (db c) = false
  /\ last_rowid c < Int64.max_int64
  /\ table c' = table c ++ [mkLogSize (last_rowid c + 1) now size]
  /\ closed (db c') = false
  /\ last_rowid c' = last_rowid c + 1.
Proof.
  unfold InsertLogSize, exec_insert, last_rowid, table.
  destruct (closed (db c)) eqn:Hc; [discriminate|].
  destruct (Z.leb_spec Int64.max_int64
              (Z.max (sqlite_sequence (db c)) (largest_rowid (log_sizes (db c)))))
    as [Hfull|Hfree]; [discriminate|].
  intros [= <-]. simpl. rewrite largest_rowid_snoc. simpl.
  repeat split; try done; lia.
Qed.

(** An insert is refused only by a closed handle or when the row ids are
    used up; otherwise it goes through, whatever the size. *)
Lemma InsertLogSize_open c now size :
  closed (db c) = false -> last_rowid c < Int64.max_int64 ->
  InsertLogSize c now size =
    (opened (table c ++ [mkLogSize (last_rowid c + 1) now size])
            (last_rowid c + 1), None).
Proof.
  intros Hc Hfree. unfold InsertLogSize, exec_insert, last_rowid, table in *.
  rewrite Hc.
  destruct (Z.leb_spec Int64.max_int64
              (Z.max (sqlite_sequence (db c)) (largest_rowid (log_sizes (db c)))));
    [lia | done].
Qed.

(** A failed insert leaves the store as it was. *)
Lemma InsertLogSize_failure c now size c' e :
  InsertLogSize c now size = (c', Some e) -> c' = c.
Proof.
  unfold InsertLogSize. destruct (exec_insert (db c) now size) as [d [e'|]];
    by intros [= <- _].
Qed.

Lemma GetAll_open c :
  closed (db c) = false -> id_ordered (table c) -> GetAll c = (table c, None).
Proof.
  intros Hc Hs. unfold GetAll, query_all. rewrite Hc, scan_rows_id.
  by rewrite (order_by_id ID).
Qed.

(** A run of successful inserts appends one row per call, in the order of
    the calls, with consecutive row ids. *)
Lemma insert_all_success calls : forall c c',
  closed (db c) = false -> id_ordered (table c) ->
  insert_all c calls = (c', None) ->
  exists new,
    table c' = table c ++ new
    /\ closed (db c') = false
    /\ id_ordered (table c')
    /\ map (fun r => (Timestamp r, Filesize r)) new = calls
    /\ map ID new = seqZ (last_rowid c + 1) (len calls).
Proof.
  induction calls as [|[now size] calls IH]; intros c c' Hc Hs; simpl.
  - intros [= <-]. exists []. rewrite app_nil_r. done.
  - destruct (InsertLogSize c now size) as [c1 [e|]] eqn:Hins; [discriminate|].
    intros Hrun. apply InsertLogSize_success in Hins as (_ & _ & Ht & Hc1 & Hl).
    assert (Hs1 : id_ordered (table c1)).
    { rewrite Ht. apply id_ordered_snoc; [exact Hs|]. unfold last_rowid. simpl. lia. }
    destruct (IH c1 c' Hc1 Hs1 Hrun) as (new & Ht' & Hc' & Hs' & Hcalls & Hids).
    exists (mkLogSize (last_rowid c + 1) now size :: new).
    rewrite Ht' in Hs' |- *. rewrite Ht, <- app_assoc in Hs' |- *. simpl.
    rewrite Hcalls, Hids, Hl.
    repeat split; try done.
    unfold len. cbn [length].
    rewrite (seqZ_cons (last_rowid c + 1)) by lia.
    do 2 f_equal; lia.
Qed.

Lemma seqZ_increasing m n : StronglySorted Z.lt (seqZ m n).
Proof.
  remember (Z.to_nat n) as k eqn:Hk. revert m n Hk.
  induction k as [|k IH]; intros m n Hk.
  - rewrite seqZ_nil by lia. constructor.
  - rewrite seqZ_cons by lia. constructor; [apply IH; lia|].
    apply Forall_forall. intros x Hx. apply elem_of_seqZ in Hx. lia.
Qed.

Lemma id_ordered_map rows : id_ordered rows <-> StronglySorted Z.lt (map ID rows).
Proof.
  unfold id_ordered. induction rows as [|r rows IH]; simpl.
  - split; constructor.
  - split; intros H; apply StronglySorted_inv in H as [Hs Hr]; constructor;
      try (by apply IH).
    + by rewrite Forall_map.
    + by rewrite Forall_map in Hr.
Qed.

(** C5. Starting from any open store whose table is in id order (a
    freshly created store is one), after a run of [InsertLogSize] calls
    issued one at a time that all succeed, [GetAll] returns what it
    returned before followed by one row per call, in the order of the
    calls and with the timestamp and size of each call; the ids of the
    whole result strictly increase. *)
Theorem GetAll_insertion_order (c c' : SQLiteController) (calls : list (Time * Z)) :
  closed (db c) = false ->
  id_ordered (table c) ->
  insert_all c calls = (c', None) ->
  exists old new,
    GetAll c = (old, None)
    /\ GetAll c' = (old ++ new, None)
    /\ map (fun r => (Timestamp r, Filesize r)) new = calls
    /\ StronglySorted Z.lt (map ID (old ++ new)).
Proof.
  intros Hc Hs Hrun.
  destruct (insert_all_success calls c c' Hc Hs Hrun)
    as (new & Ht & Hc' & Hs' & Hcalls & _).
  exists (table c), new. rewrite GetAll_open by done.
  rewrite GetAll_open by done. rewrite Ht in *.
  repeat split; try done. by apply id_ordered_map.
Qed.

Lemma GetAll_insertion_order_witness :
  exists old new,
    GetAll NewSQLiteController = (old, None)
    /\ GetAll (opened [mkLogSize 1 (Date 2024 1 1 10 0 0 0) 100;
                       mkLogSize 2 (Date 2024 1 1 9 0 0 0) 200;
                       mkLogSize 3 (Date 2024 1 1 11 0 0 0) 300] 3)
       = (old ++ new, None)
    /\ map (fun r => (Timestamp r, Filesize r)) new
       = [(Date 2024 1 1 10 0 0 0, 100); (Date 2024 1 1 9 0 0 0, 200);
          (Date 2024 1 1 11 0 0 0, 300)]
    /\ StronglySorted Z.lt (map ID (old ++ new)).
Proof.
  apply (GetAll_insertion_order NewSQLiteController).
  - reflexivity.
  - constructor.
  - vm_compute. reflexivity.
Defined.

(** C8 (as the code has it). [InsertLogSize] does not look at the sign
    of its argument: on an open store with a row id left, any size, a
    negative one included, is persisted as given under the next row id,
    no error is returned and [GetAll] shows the new row after the old
    ones. *)
Theorem InsertLogSize_no_validation (c : SQLiteController) (now : Time) (size : Z) :
  closed (db c) = false ->
  last_rowid c < Int64.max_int64 ->
  id_ordered (table c) ->
  exists c',
    InsertLogSize c now size = (c', None)
    /\ GetAll c' = (table c ++ [mkLogSize (last_rowid c + 1) now size], None).
Proof.
  intros Hc Hfree Hs. eexists. split; [by apply InsertLogSize_open|].
  rewrite GetAll_open; [done | done |]. simpl.
  apply id_ordered_snoc; [exact Hs|]. unfold last_rowid. simpl. lia.
Qed.

Lemma InsertLogSize_no_validation_witness :
  exists c',
    InsertLogSize NewSQLiteController (Date 2024 1 1 10 0 0 0) (-5) = (c', None)
    /\ GetAll c' = ([mkLogSize 1 (Date 2024 1 1 10 0 0 0) (-5)], None).
Proof.
  apply (InsertLogSize_no_validation NewSQLiteController
           (Date 2024 1 1 10 0 0 0) (-5)).
  - reflexivity.
  - vm_compute. reflexivity.
  - constructor.
Defined.

(** C8 fails on the code: a negative size inserted into a fresh store is
    not rejected.  The call returns no error and the observation is
    stored. *)
Lemma InsertLogSize_accepts_negative :
  (-1 < 0)
  /\ InsertLogSize NewSQLiteController (Date 2024 1 1 10 0 0 0) (-1)
     = (opened [mkLogSize 1 (Date 2024 1 1 10 0 0 0) (-1)] 1, None)
  /\ GetAll (opened [mkLogSize 1 (Date 2024 1 1 10 0 0 0) (-1)] 1)
     = ([mkLogSize 1 (Date 2024 1 1 10 0 0 0) (-1)], None)
  /\ ~ (exists e, InsertLogSize NewSQLiteController (Date 2024 1 1 10 0 0 0) (-1)
                  = (NewSQLiteController, Some e)).
Proof.
  split; [lia|]. split; [reflexivity|]. split; [reflexivity|].
  intros [e He]. vm_compute in He. discriminate He.
Qed.

(* ===================================================================== *)
(** * The store: concurrent callers *)
(* ===================================================================== *)

Lemma total_calls_step {A} (callers : list (list A)) i x rest :
  callers !! i = Some (x :: rest) ->
  total_calls callers = S (total_calls (<[i := rest]> callers)).
Proof.
  unfold total_calls. revert i.
  induction callers as [|t callers IH]; intros [|i] Hi; try done.
  - injection Hi as ->. done.
  - specialize (IH i Hi). change (<[S i:=rest]> (t :: callers)) with (t :: <[i:=rest]> callers).
    rewrite !fmap_cons. cbn [sum_list sum_list_with]. rewrite IH. unfold id. lia.
Qed.

Lemma interleaving_length {A} (callers : list (list A)) schedule :
  interleaving callers schedule -> length schedule = total_calls callers.
Proof.
  induction 1 as [callers Hall|callers i x rest schedule Hi _ IH].
  - unfold total_calls. induction Hall as [|t callers -> _ IH]; simpl; done.
  - simpl. rewrite IH. by rewrite (total_calls_step callers i x rest).
Qed.

Lemma total_calls_uniform {A} (callers : list (list A)) (M : nat) :
  Forall (fun calls => length calls = M) callers ->
  total_calls callers = (length callers * M)%nat.
Proof.
  unfold total_calls. induction 1 as [|t callers Ht _ IH]; [done|].
  rewrite fmap_cons. cbn [sum_list sum_list_with length]. rewrite IH, Ht.
  rewrite Nat.mul_succ_l. unfold id. lia.
Qed.

(** C9. [N] callers make [M] calls of [InsertLogSize] each on a fresh
    store, interleaved in any way, and all calls report success.  Then
    [GetAll] succeeds and returns exactly [N * M] rows whose ids are
    [1, 2, ..., N * M]: no id is duplicated and none is missing; and the
    rows carry, in the order of the schedule, what the callers wrote. *)
Theorem concurrent_inserts_all_visible
    (N M : nat) (callers : list (list (Time * Z))) (schedule : list (Time * Z))
    (c' : SQLiteController) :
  length callers = N ->
  Forall (fun calls => length calls = M) callers ->
  interleaving callers schedule ->
  insert_all NewSQLiteController schedule = (c', None) ->
  exists rows,
    GetAll c' = (rows, None)
    /\ length rows = (N * M)%nat
    /\ map ID rows = seqZ 1 (Z.of_nat (N * M))
    /\ NoDup (map ID rows)
    /\ (forall id, 1 <= id <= Z.of_nat (N * M) -> id ∈ map ID rows)
    /\ map (fun r => (Timestamp r, Filesize r)) rows = schedule.
Proof.
  intros HN HM Hil Hrun.
  assert (Hlen : length schedule = (N * M)%nat).
  { rewrite (interleaving_length _ _ Hil), (total_calls_uniform _ M HM). by rewrite HN. }
  destruct (insert_all_success schedule NewSQLiteController c')
    as (new & Ht & Hc' & Hs' & Hcalls & Hids); [done | constructor | done |].
  simpl in Ht. change (last_rowid NewSQLiteController + 1) with 1 in Hids.
  unfold len in Hids. rewrite Hlen in Hids.
  exists new. rewrite GetAll_open by done. rewrite Ht.
  repeat split; try done.
  - rewrite <- Hlen, <- Hcalls. by rewrite length_map.
  - rewrite Hids. apply NoDup_seqZ.
  - intros id Hid. rewrite Hids. apply elem_of_seqZ. lia.
Qed.

Lemma concurrent_inserts_all_visible_witness :
  exists rows,
    GetAll (opened [mkLogSize 1 (Date 2024 1 1 10 0 0 0) 100;
                    mkLogSize 2 (Date 2024 1 1 10 0 0 0) 0;
                    mkLogSize 3 (Date 2024 1 1 10 0 1 0) 1;
                    mkLogSize 4 (Date 2024 1 1 10 0 1 0) 101] 4) = (rows, None)
    /\ length rows = (2 * 2)%nat
    /\ map ID rows = seqZ 1 (Z.of_nat (2 * 2))
    /\ NoDup (map ID rows)
    /\ (forall id, 1 <= id <= Z.of_nat (2 * 2) -> id ∈ map ID rows)
    /\ map (fun r => (Timestamp r, Filesize r)) rows
       = [(Date 2024 1 1 10 0 0 0, 100); (Date 2024 1 1 10 0 0 0, 0);
          (Date 2024 1 1 10 0 1 0, 1); (Date 2024 1 1 10 0 1 0, 101)].
Proof.
  apply (concurrent_inserts_all_visible 2 2
           [[(Date 2024 1 1 10 0 0 0, 0); (Date 2024 1 1 10 0 1 0, 1)];
            [(Date 2024 1 1 10 0 0 0, 100); (Date 2024 1 1 10 0 1 0, 101)]]).
  - reflexivity.
  - repeat constructor.
  - apply (interleaving_step _ 1%nat _ [(Date 2024 1 1 10 0 1 0, 101)]); [reflexivity|].
    apply (interleaving_step _ 0%nat _ [(Date 2024 1 1 10 0 1 0, 1)]); [reflexivity|].
    apply (interleaving_step _ 0%nat _ []); [reflexivity|].
    apply (interleaving_step _ 1%nat _ []); [reflexivity|].
    apply interleaving_done. repeat constructor.
  - vm_compute. reflexivity.
Defined.

(* ===================================================================== *)
(** * 64-bit arithmetic *)
(* ===================================================================== *)

Lemma wrap_in_range z : Int64.in_range z -> Int64.wrap z = z.
Proof.
  unfold Int64.in_range, Int64.wrap, Int64.min_int64, Int64.max_int64, Int64.modulus.
  intros Hz. rewrite Z.mod_small; lia.
Qed.

Lemma wrap_range z : Int64.in_range (Int64.wrap z).
Proof.
  unfold Int64.in_range, Int64.wrap, Int64.min_int64, Int64.max_int64, Int64.modulus.
  pose proof (Z.mod_pos_bound (z + 2 ^ 63) (2 ^ 64)). lia.
Qed.

Lemma wrap_add_l a b : Int64.wrap (Int64.wrap a + b) = Int64.wrap (a + b).
Proof.
  unfold Int64.wrap, Int64.modulus.
  replace ((a + 2 ^ 63) mod 2 ^ 64 - 2 ^ 63 + b + 2 ^ 63)
    with ((a + 2 ^ 63) mod 2 ^ 64 + b) by lia.
  rewrite Zplus_mod_idemp_l. do 2 f_equal. lia.
Qed.

(* ===================================================================== *)
(** * [calculateStats] *)
(* ===================================================================== *)

Lemma first_with_exists {A} (P : A -> Prop) `{!forall x, Decision (P x)} l x :
  x ∈ l -> P x -> exists i y, first_with P l i y.
Proof.
  intros Hx HP. destruct (list_find_elem_of P l x Hx HP) as [[i y] Hfind].
  apply list_find_Some in Hfind. exists i, y. exact Hfind.
Qed.

Lemma sum_sizes_app l1 l2 : sum_sizes (l1 ++ l2) = sum_sizes l1 + sum_sizes l2.
Proof. induction l1 as [|x l1 IH]; simpl; [done|]. rewrite IH. lia. Qed.

Lemma fold_stats_snoc l x v :
  fold_left stats_step (l ++ [x]) v = stats_step (fold_left stats_step l v) x.
Proof. by rewrite fold_left_app. Qed.

(** The running total is the exact sum reduced to 64 bits. *)
Lemma stats_total l v :
  Int64.in_range (total v) ->
  total (fold_left stats_step l v) = Int64.wrap (total v + sum_sizes l).
Proof.
  intros Hv. induction l as [|x l IH] using rev_ind.
  - simpl. rewrite Z.add_0_r. by rewrite wrap_in_range.
  - rewrite fold_stats_snoc, sum_sizes_app. simpl. rewrite IH.
    unfold Int64.add. rewrite wrap_add_l. f_equal. lia.
Qed.

(** The running minimum lies below the initial one and below every size
    seen, and is one of them. *)
Lemma stats_min l v :
  let m := min (fold_left stats_step l v) in
  m <= min v /\ (forall x, x ∈ l -> m <= Filesize x)
  /\ (m = min v \/ exists x, x ∈ l /\ Filesize x = m).
Proof.
  induction l as [|x l IH] using rev_ind; simpl.
  - split; [lia|]. split; [|by left]. intros x Hx. by apply elem_of_nil in Hx.
  - rewrite fold_stats_snoc. simpl in IH. destruct IH as (Hle & Hall & Hex).
    set (w := fold_left stats_step l v) in *. simpl.
    destruct (Z.ltb_spec (Filesize x) (min w)) as [Hlt|Hge].
    + split; [lia|]. split.
      * intros y Hy. apply elem_of_app in Hy as [Hy|Hy].
        -- specialize (Hall y Hy). lia.
        -- apply list_elem_of_singleton in Hy as ->. lia.
      * right. exists x. split; [|done]. apply elem_of_app. right. by left.
    + split; [done|]. split.
      * intros y Hy. apply elem_of_app in Hy as [Hy|Hy]; [by apply Hall|].
        apply list_elem_of_singleton in Hy as ->. lia.
      * destruct Hex as [Hex|(y & Hy & Hm)]; [by left|].
        right. exists y. split; [|done]. apply elem_of_app. by left.
Qed.

Lemma stats_max l v :
  let m := max (fold_left stats_step l v) in
  max v <= m /\ (forall x, x ∈ l -> Filesize x <= m)
  /\ (m = max v \/ exists x, x ∈ l /\ Filesize x = m).
Proof.
  induction l as [|x l IH] using rev_ind; simpl.
  - split; [lia|]. split; [|by left]. intros x Hx. by apply elem_of_nil in Hx.
  - rewrite fold_stats_snoc. simpl in IH. destruct IH as (Hle & Hall & Hex).
    set (w := fold_left stats_step l v) in *. simpl.
    destruct (Z.ltb_spec (max w) (Filesize x)) as [Hlt|Hge].
    + split; [lia|]. split.
      * intros y Hy. apply elem_of_app in Hy as [Hy|Hy].
        -- specialize (Hall y Hy). lia.
        -- apply list_elem_of_singleton in Hy as ->. lia.
      * right. exists x. split; [|done]. apply elem_of_app. right. by left.
    + split; [done|]. split.
      * intros y Hy. apply elem_of_app in Hy as [Hy|Hy]; [by apply Hall|].
        apply list_elem_of_singleton in Hy as ->. lia.
      * destruct Hex as [Hex|(y & Hy & Hm)]; [by left|].
        right. exists y. split; [|done]. apply elem_of_app. by left.
Qed.

(** [lastUpdated] stays at its initial value as long as no timestamp is
    later; after that it is the timestamp of the first observation with
    the latest instant. *)
Lemma stats_lastUpdated l v :
  let u := lastUpdated (fold_left stats_step l v) in
  abs_ns (lastUpdated v) <= abs_ns u
  /\ (forall y, y ∈ l -> abs_ns (Timestamp y) <= abs_ns u)
  /\ (abs_ns u <= abs_ns (lastUpdated v) -> u = lastUpdated v)
  /\ (abs_ns (lastUpdated v) < abs_ns u ->
        exists i x, first_latest l i x /\ u = Timestamp x).
Proof.
  induction l as [|x l IH] using rev_ind; simpl.
  - split; [lia|]. split; [|split; [done|lia]].
    intros y Hy. by apply elem_of_nil in Hy.
  - rewrite fold_stats_snoc. simpl in IH. destruct IH as (Hle & Hall & Hsame & Hex).
    set (w := fold_left stats_step l v) in *. simpl. unfold After.
    destruct (Z.ltb_spec (abs_ns (lastUpdated w)) (abs_ns (Timestamp x))) as [Hlt|Hge].
    + split; [lia|]. split; [|split; [lia|]].
      * intros y Hy. apply elem_of_app in Hy as [Hy|Hy].
        -- specialize (Hall y Hy). lia.
        -- apply list_elem_of_singleton in Hy as ->. lia.
      * intros _. exists (length l), x. split; [|done]. split; [|split].
        -- by rewrite lookup_app_r, Nat.sub_diag.
        -- intros y Hy. apply elem_of_app in Hy as [Hy|Hy].
           ++ specialize (Hall y Hy). lia.
           ++ apply list_elem_of_singleton in Hy as ->. lia.
        -- intros j y Hj Hlen. rewrite lookup_app_l in Hj by done.
           apply list_elem_of_lookup_2 in Hj. specialize (Hall y Hj). lia.
    + split; [done|]. split; [|split; [done|]].
      * intros y Hy. apply elem_of_app in Hy as [Hy|Hy]; [by apply Hall|].
        apply list_elem_of_singleton in Hy as ->. lia.
      * intros Hgt. destruct (Hex Hgt) as (i & y & (Hi & Hmax & Hfirst) & Hu).
        rewrite Hu in Hge. exists i, y. split; [|done]. split; [|split].
        -- rewrite lookup_app_l; [done|]. by eapply lookup_lt_Some.
        -- intros z Hz. apply elem_of_app in Hz as [Hz|Hz]; [by apply Hmax|].
           apply list_elem_of_singleton in Hz as ->. lia.
        -- intros j z Hj Hji. apply (Hfirst j z); [|done].
           rewrite lookup_app_l in Hj; [done|].
           apply lookup_lt_Some in Hi. lia.
Qed.

(* ===================================================================== *)
(** * [calculateSizeBreakdown] *)
(* ===================================================================== *)

Lemma count_in_range_find rs size counts : forall i,
  count_in_range rs i size counts =
    match list_find (in_size_range size) rs with
    | Some (j, _) => increment counts (i + j)
    | None => Returns counts
    end.
Proof.
  induction rs as [|r rs IH]; intros i; simpl; [done|].
  destruct (decide (in_size_range size r)) as [[H1 H2]|Hn].
  - apply Z.leb_le in H1. apply Z.ltb_lt in H2. rewrite H1, H2. simpl.
    by rewrite Nat.add_0_r.
  - assert ((Min r <=? size) && (size <? Max r) = false) as ->.
    { apply not_true_is_false. intros [H1 H2]%andb_true_iff.
      apply Hn. split; [by apply Z.leb_le | by apply Z.ltb_lt]. }
    rewrite IH. destruct (list_find (in_size_range size) rs) as [[j r']|]; simpl;
      [|done]. f_equal. lia.
Qed.

Lemma range_index_lt size j : range_index size = Some j -> (j < length ranges)%nat.
Proof.
  unfold range_index. destruct (list_find _ ranges) as [[k r]|] eqn:Hf; [|done].
  intros [= <-]. apply list_find_Some in Hf as (Hk & _). by eapply lookup_lt_Some.
Qed.

Lemma hits_cons j x logs :
  hits j (x :: logs) =
    (if decide (range_index (Filesize x) = Some j) then 1 else 0) + hits j logs.
Proof.
  unfold hits, len. rewrite filter_cons. case_decide; simpl length; lia.
Qed.

Lemma hits_bounds j logs : 0 <= hits j logs <= len logs.
Proof.
  unfold hits, len. pose proof (length_filter
    (fun l => range_index (Filesize l) = Some j) logs). lia.
Qed.

(** The first loop never panics, and adds to each counter the number of
    observations of its range, in 64-bit arithmetic. *)
Lemma count_logs_hits logs : forall counts,
  length counts = length ranges ->
  Forall Int64.in_range counts ->
  exists final,
    count_logs logs counts = Returns final
    /\ length final = length ranges
    /\ forall j c, counts !! j = Some c ->
         final !! j = Some (Int64.wrap (c + hits j logs)).
Proof.
  induction logs as [|x logs IH]; intros counts Hlen Hrange.
  - exists counts. split; [done|]. split; [done|]. intros j c Hj.
    rewrite Hj. f_equal. unfold hits. simpl. rewrite Z.add_0_r.
    symmetry. apply wrap_in_range. by eapply Forall_lookup_1.
  - cbn [count_logs]. rewrite count_in_range_find.
    pose proof (range_index_lt (Filesize x)) as Hlt. unfold range_index in Hlt.
    destruct (list_find (in_size_range (Filesize x)) ranges) as [[k r]|] eqn:Hf.
    + specialize (Hlt k eq_refl). simpl.
      destruct (lookup_lt_is_Some_2 counts k) as [ck Hck]; [lia|].
      unfold increment, index. rewrite Hck. simpl.
      destruct (IH (<[k := int_add ck 1]> counts)) as (final & Hrun & Hfl & Hfinal).
      { by rewrite length_insert. }
      { apply Forall_insert; [done|]. apply wrap_range. }
      exists final. split; [done|]. split; [done|]. intros j c Hj.
      assert (Hri : range_index (Filesize x) = Some k)
        by (unfold range_index; by rewrite Hf).
      rewrite hits_cons, Hri.
      destruct (decide (Some k = Some j)) as [[= ->]|Hne].
      * rewrite (Hfinal j (int_add ck 1)).
        2:{ rewrite list_lookup_insert_eq; [done|lia]. }
        unfold int_add. rewrite wrap_add_l. rewrite Hj in Hck. injection Hck as ->.
        do 2 f_equal. lia.
      * rewrite (Hfinal j c); [done|]. rewrite list_lookup_insert_ne; [done|].
        congruence.
    + simpl. destruct (IH counts Hlen Hrange) as (final & Hrun & Hfl & Hfinal).
      exists final. split; [done|]. split; [done|]. intros j c Hj.
      assert (Hri : range_index (Filesize x) = None)
        by (unfold range_index; by rewrite Hf).
      rewrite hits_cons, Hri. rewrite decide_False by done. by apply Hfinal.
Qed.

(** The second loop never panics and emits one row per range, in the
    order of the table. *)
Lemma breakdown_rows_zip counts total rs : forall i result,
  (i + length rs <= length counts)%nat ->
  breakdown_rows rs i counts total result =
    Returns (result ++
      zip_with (fun r c => mkBreakdown (Name r) c (percentage_of c total))
               rs (drop i counts)).
Proof.
  induction rs as [|r rs IH]; intros i result Hlen; simpl.
  - by rewrite app_nil_r.
  - simpl in Hlen. destruct (lookup_lt_is_Some_2 counts i) as [c Hc]; [lia|].
    unfold index. rewrite Hc. simpl. rewrite IH by lia.
    rewrite (drop_S _ _ _ Hc). simpl. by rewrite <- app_assoc.
Qed.

(** [calculateSizeBreakdown] returns, for every input, the six rows of
    the table in order; the count of a row is the number of observations
    of its range, in 64-bit arithmetic, and its percentage is computed
    from that count and the number of observations. *)
Lemma calculateSizeBreakdown_rows logs :
  calculateSizeBreakdown logs =
    Returns (imap (fun j r =>
               let c := Int64.wrap (hits j logs) in
               mkBreakdown (Name r) c (percentage_of c (len logs))) ranges).
Proof.
  unfold calculateSizeBreakdown.
  destruct (count_logs_hits logs (replicate (length ranges) 0))
    as (final & Hrun & Hlen & Hfinal).
  { by rewrite length_replicate. }
  { apply Forall_replicate. done. }
  rewrite Hrun. unfold mbind, outcome_bind.
  rewrite breakdown_rows_zip by (rewrite Hlen; simpl; lia).
  rewrite drop_0, app_nil_l.
  assert (Hj : forall j, (j < 6)%nat -> final !! j = Some (Int64.wrap (hits j logs))).
  { intros j Hj. rewrite (Hfinal j 0); [done|]. by apply lookup_replicate_2. }
  destruct final as [|c0 [|c1 [|c2 [|c3 [|c4 [|c5 [|]]]]]]]; try done.
  pose proof (Hj 0%nat) as H0. pose proof (Hj 1%nat) as H1.
  pose proof (Hj 2%nat) as H2. pose proof (Hj 3%nat) as H3.
  pose proof (Hj 4%nat) as H4. pose proof (Hj 5%nat) as H5.
  simpl in *.
  injection (H0 ltac:(lia)) as ->. injection (H1 ltac:(lia)) as ->.
  injection (H2 ltac:(lia)) as ->. injection (H3 ltac:(lia)) as ->.
  injection (H4 ltac:(lia)) as ->. injection (H5 ltac:(lia)) as ->.
  reflexivity.
Qed.

(** Which range holds a size: the table read as six half-open
    intervals; a negative size and the largest 64-bit integer lie in
    none. *)
Lemma range_index_intervals size :
  range_index size =
    if decide (size < 0) then None
    else if decide (size < 1024) then Some 0%nat
    else if decide (size < 10240) then Some 1%nat
    else if decide (size < 102400) then Some 2%nat
    else if decide (size < 1048576) then Some 3%nat
    else if decide (size < 10485760) then Some 4%nat
    else if decide (size < 9223372036854775807) then Some 5%nat
    else None.
Proof.
  unfold range_index, ranges, list_find.
  change (Int64.of_uint64 (Int64.ushr (Int64.unot 0) 1)) with 9223372036854775807.
  repeat (case_decide; simpl);
    unfold in_size_range in *; simpl in *; try reflexivity; exfalso; lia.
Qed.

Lemma misses_cons x logs :
  misses (x :: logs) =
    (if decide (range_index (Filesize x) = None) then 1 else 0) + misses logs.
Proof.
  unfold misses, len. rewrite filter_cons. case_decide; simpl length; lia.
Qed.

(** Every observation is counted in exactly one range or in none. *)
Lemma hits_partition logs :
  hits 0 logs + hits 1 logs + hits 2 logs + hits 3 logs + hits 4 logs
  + hits 5 logs + misses logs = len logs.
Proof.
  induction logs as [|x logs IH]; [done|].
  rewrite !hits_cons, misses_cons.
  replace (len (x :: logs)) with (1 + len logs)
    by (unfold len; simpl length; lia).
  pose proof (range_index_lt (Filesize x)) as Hlt.
  destruct (range_index (Filesize x)) as [j|].
  - specialize (Hlt j eq_refl). simpl in Hlt.
    destruct j as [|[|[|[|[|[|j]]]]]]; try lia;
      repeat (case_decide; try congruence); lia.
  - repeat (case_decide; try congruence); lia.
Qed.

Lemma misses_negative logs :
  (exists l, l ∈ logs /\ Filesize l < 0) -> 0 < misses logs.
Proof.
  intros (l & Hl & Hneg). unfold misses, len.
  assert (l ∈ filter (fun l => range_index (Filesize l) = None) logs) as Hin.
  { apply list_elem_of_filter. split; [|done].
    rewrite range_index_intervals. by rewrite decide_True. }
  destruct (filter _ logs); [by apply elem_of_nil in Hin | simpl length; lia].
Qed.

Lemma misses_none logs :
  Forall (fun l => 0 <= Filesize l < Int64.max_int64) logs -> misses logs = 0.
Proof.
  induction 1 as [|x logs Hx _ IH]; [done|].
  rewrite misses_cons, IH. rewrite decide_False; [done|].
  rewrite range_index_intervals. unfold Int64.max_int64 in Hx.
  repeat (case_decide; try done); lia.
Qed.

(* ===================================================================== *)
(** * [aggregateByHour] *)
(* ===================================================================== *)

Lemma hourMap_of_snoc logs x :
  hourMap_of (logs ++ [x]) = hour_step (hourMap_of logs) x.
Proof. unfold hourMap_of. by rewrite fold_left_app. Qed.

Lemma hour_logs_snoc k logs x :
  hour_logs k (logs ++ [x]) =
    hour_logs k logs ++ (if decide (hourKey x = k) then [x] else []).
Proof.
  unfold hour_logs. by rewrite filter_app.
Qed.

(** The map built by the first loop: a key is present exactly when some
    observation has it, and holds the number and the total size of these
    observations, both in 64-bit arithmetic. *)
Lemma hourMap_of_lookup logs k :
  hourMap_of logs !! k =
    if decide (hour_logs k logs = []) then None
    else Some (mkHourData (Int64.wrap (len (hour_logs k logs)))
                          (Int64.wrap (sum_sizes (hour_logs k logs)))).
Proof.
  induction logs as [|x logs IH] using rev_ind; [done|].
  rewrite hourMap_of_snoc, hour_logs_snoc. unfold hour_step.
  destruct (decide (hourKey x = k)) as [Hk|Hne].
  - rewrite Hk, lookup_insert_eq, IH.
    destruct (decide (hour_logs k logs ++ [x] = [])) as [Hnil|_];
      [by apply app_eq_nil in Hnil as [_ ?]|].
    f_equal. unfold len. rewrite length_app, sum_sizes_app. simpl.
    destruct (decide (hour_logs k logs = [])) as [Hnil|_].
    + rewrite Hnil. simpl. unfold int_add, Int64.add. f_equal; f_equal; lia.
    + simpl. unfold int_add, Int64.add. rewrite !wrap_add_l.
      f_equal; f_equal; lia.
  - rewrite lookup_insert_ne by done. rewrite IH, app_nil_r. done.
Qed.

Lemma hourMap_of_perm logs logs' : logs ≡ₚ logs' -> hourMap_of logs = hourMap_of logs'.
Proof.
  intros Hp. apply map_eq. intros k. rewrite !hourMap_of_lookup.
  assert (Hk : hour_logs k logs ≡ₚ hour_logs k logs')
    by (unfold hour_logs; by rewrite Hp).
  assert (Hsum : forall l1 l2 : list LogSize, l1 ≡ₚ l2 -> sum_sizes l1 = sum_sizes l2).
  { induction 1; simpl; lia. }
  repeat case_decide.
  - done.
  - exfalso. rewrite H in Hk. symmetry in Hk. by apply Permutation_nil_r in Hk.
  - exfalso. rewrite H0 in Hk. by apply Permutation_nil_r in Hk.
  - unfold len. by rewrite (Permutation_length Hk), (Hsum _ _ Hk).
Qed.

Lemma aggregateByHour_elem logs result p :
  aggregateByHour logs result ->
  p ∈ result <->
    hour_logs (point_Timestamp p) logs <> []
    /\ point_Count p = Int64.wrap (len (hour_logs (point_Timestamp p) logs))
    /\ point_TotalSize p = Int64.wrap (sum_sizes (hour_logs (point_Timestamp p) logs)).
Proof.
  unfold aggregateByHour. intros ->. rewrite list_elem_of_fmap. split.
  - intros ([k d] & -> & Hkd). apply elem_of_map_to_list in Hkd.
    rewrite hourMap_of_lookup in Hkd. simpl. case_decide; [done|].
    by injection Hkd as <-.
  - intros (Hne & Hc & Ht). destruct p as [k c t]. simpl in *.
    exists (k, mkHourData c t). split; [done|]. apply elem_of_map_to_list.
    rewrite hourMap_of_lookup, decide_False by done. by rewrite Hc, Ht.
Qed.

Lemma aggregateByHour_keys_NoDup logs result :
  aggregateByHour logs result -> NoDup (point_Timestamp <$> result).
Proof.
  unfold aggregateByHour. intros ->. rewrite <- list_fmap_compose.
  apply (NoDup_fst_map_to_list (hourMap_of logs)).
Qed.

(** ** Hour truncation *)

(** [Truncate(time.Hour)] keeps the zone and rounds the instant down to a
    whole number of hours since the zero time. *)
Lemma Truncate_Hour t :
  zone_offset (Truncate t Hour) = zone_offset t
  /\ abs_ns (Truncate t Hour) mod Hour = 0
  /\ abs_ns (Truncate t Hour) <= abs_ns t < abs_ns (Truncate t Hour) + Hour.
Proof.
  unfold Truncate. change (Hour <=? 0) with false. cbn [Add abs_ns zone_offset].
  assert (0 < Hour) as Hpos by done.
  pose proof (Z.mod_pos_bound (abs_ns t) Hour Hpos) as Hb.
  split; [done|]. split; [|lia].
  rewrite Z.add_opp_r, Zminus_mod_idemp_r, Z.sub_diag. done.
Qed.

(** The key of an observation ends in the zone of its own timestamp. *)
Lemma hourKey_zone l :
  hourKey l = (format_clock (Truncate (Timestamp l) Hour)
               ++ format_zone (zone_offset (Timestamp l)))%string.
Proof.
  destruct (Truncate_Hour (Timestamp l)) as (Hz & _).
  unfold hourKey, Format_RFC3339. by rewrite Hz.
Qed.

(** In a zone whose offset is a whole number of hours, [Truncate] yields
    the start of the clock hour. *)
Lemma Truncate_Hour_whole_hour_zone t :
  zone_offset t mod 3600 = 0 -> Truncate t Hour = clock_hour_start t.
Proof.
  intros Hz. unfold Truncate, clock_hour_start, Add.
  change (Hour <=? 0) with false. cbn iota. f_equal.
  apply Z.mod_divide in Hz as [q Hq]; [|done].
  replace (abs_ns t + zone_offset t * Second) with (abs_ns t + q * Hour)
    by (rewrite Hq; unfold Hour, Minute, Second, Nanosecond; lia).
  rewrite Z_mod_plus_full. rewrite Hq. unfold Hour, Minute, Second, Nanosecond. lia.
Qed.

Lemma len_filter_le {A} (P : A -> Prop) `{!forall x, Decision (P x)} (l : list A) :
  0 <= len (filter P l) <= len l.
Proof. unfold len. pose proof (length_filter P l). lia. Qed.

Lemma hour_count_exact logs k :
  len logs <= Int64.max_int64 ->
  Int64.wrap (len (hour_logs k logs)) = len (hour_logs k logs).
Proof.
  intros Hlen. apply wrap_in_range. unfold hour_logs.
  pose proof (len_filter_le (fun l => hourKey l = k) logs).
  unfold Int64.in_range, Int64.min_int64. lia.
Qed.

Lemma aggregateByHour_key_bucket logs result k :
  aggregateByHour logs result -> hour_logs k logs <> [] ->
  exists p, p ∈ result
    /\ point_Timestamp p = k
    /\ forall q, q ∈ result -> point_Timestamp q = point_Timestamp p -> q = p.
Proof.
  intros Hres Hne.
  exists (mkPoint k (Int64.wrap (len (hour_logs k logs)))
                  (Int64.wrap (sum_sizes (hour_logs k logs)))).
  split; [by apply (aggregateByHour_elem logs result _ Hres)|].
  split; [reflexivity|].
  intros q Hq Hkey. apply (aggregateByHour_elem logs result _ Hres) in Hq
    as (_ & Hc & Ht). destruct q as [qk qc qt].
  cbn [point_Timestamp point_Count point_TotalSize] in *.
  rewrite Hc, Ht, Hkey. reflexivity.
Qed.

(** Every observation has its bucket, and it is the only bucket with
    that key. *)
Lemma aggregateByHour_bucket_of logs result l :
  aggregateByHour logs result -> l ∈ logs ->
  exists p, p ∈ result
    /\ point_Timestamp p = hourKey l
    /\ forall q, q ∈ result -> point_Timestamp q = point_Timestamp p -> q = p.
Proof.
  intros Hres Hl. apply (aggregateByHour_key_bucket logs); [exact Hres|].
  remember (hourKey l) as k eqn:Hk. intros Hnil.
  assert (l ∈ hour_logs k logs) as Hin
    by (apply list_elem_of_filter; split; [symmetry; exact Hk | exact Hl]).
  rewrite Hnil in Hin. by apply elem_of_nil in Hin.
Qed.

(** Every bucket holds the observations of its key: at least one, their
    number and their total size. *)
Lemma aggregateByHour_bucket_content logs result p :
  len logs <= Int64.max_int64 ->
  aggregateByHour logs result -> p ∈ result ->
  exists ls,
    ls = filter (fun l => hourKey l = point_Timestamp p) logs
    /\ ls <> []
    /\ point_Count p = len ls
    /\ point_TotalSize p = Int64.wrap (sum_sizes ls).
Proof.
  intros Hlen Hres Hp. apply (aggregateByHour_elem logs result _ Hres) in Hp
    as (Hne & Hc & Ht).
  exists (hour_logs (point_Timestamp p) logs).
  split; [reflexivity|]. split; [exact Hne|]. split; [|exact Ht].
  rewrite Hc. by apply hour_count_exact.
Qed.

(** C4 (as the code has it). Every call of [aggregateByHour] on a slice
    returns buckets such that: each observation has exactly one bucket,
    whose key is the RFC 3339 text of [Timestamp.Truncate(time.Hour)],
    that is of the timestamp rounded down to a whole hour of absolute
    time and shown in the timestamp's own zone, whose suffix the key
    ends in; no two buckets share a key; every bucket holds at least one
    observation and carries the number of observations with its key and
    their total size in 64-bit arithmetic; and the possible results do
    not depend on the order of the input. *)
Theorem aggregateByHour_buckets (logs : list LogSize) (result : list TimeSeriesPoint) :
  len logs <= Int64.max_int64 ->
  aggregateByHour logs result ->
  (forall l, l ∈ logs ->
     zone_offset (Truncate (Timestamp l) Hour) = zone_offset (Timestamp l)
     /\ abs_ns (Truncate (Timestamp l) Hour) mod Hour = 0
     /\ abs_ns (Truncate (Timestamp l) Hour) <= abs_ns (Timestamp l)
        < abs_ns (Truncate (Timestamp l) Hour) + Hour
     /\ hourKey l = Format_RFC3339 (Truncate (Timestamp l) Hour)
     /\ hourKey l = (format_clock (Truncate (Timestamp l) Hour)
                     ++ format_zone (zone_offset (Timestamp l)))%string
     /\ exists p, p ∈ result
        /\ point_Timestamp p = hourKey l
        /\ forall q, q ∈ result -> point_Timestamp q = point_Timestamp p -> q = p)
  /\ NoDup (point_Timestamp <$> result)
  /\ (forall p, p ∈ result ->
       exists ls,
         ls = filter (fun l => hourKey l = point_Timestamp p) logs
         /\ ls <> []
         /\ point_Count p = len ls
         /\ point_TotalSize p = Int64.wrap (sum_sizes ls))
  /\ (forall logs', logs' ≡ₚ logs -> aggregateByHour logs' result).
Proof.
  intros Hlen Hres. split; [|split; [|split]].
  - intros l Hl. destruct (Truncate_Hour (Timestamp l)) as (Hz & Hm & Hb).
    split; [exact Hz|]. split; [exact Hm|]. split; [exact Hb|].
    split; [reflexivity|]. split; [apply hourKey_zone|].
    by apply (aggregateByHour_bucket_of logs).
  - by apply (aggregateByHour_keys_NoDup logs).
  - intros p Hp. by apply (aggregateByHour_bucket_content logs result).
  - intros logs' Hp. unfold aggregateByHour in *.
    by rewrite (hourMap_of_perm logs' logs Hp).
Qed.

Lemma aggregateByHour_buckets_witness :
  (forall l, l ∈ three_in_two_hours ->
     zone_offset (Truncate (Timestamp l) Hour) = zone_offset (Timestamp l)
     /\ abs_ns (Truncate (Timestamp l) Hour) mod Hour = 0
     /\ abs_ns (Truncate (Timestamp l) Hour) <= abs_ns (Timestamp l)
        < abs_ns (Truncate (Timestamp l) Hour) + Hour
     /\ hourKey l = Format_RFC3339 (Truncate (Timestamp l) Hour)
     /\ hourKey l = (format_clock (Truncate (Timestamp l) Hour)
                     ++ format_zone (zone_offset (Timestamp l)))%string
     /\ exists p, p ∈ two_hour_buckets
        /\ point_Timestamp p = hourKey l
        /\ forall q, q ∈ two_hour_buckets ->
             point_Timestamp q = point_Timestamp p -> q = p)
  /\ NoDup (point_Timestamp <$> two_hour_buckets)
  /\ (forall p, p ∈ two_hour_buckets ->
       exists ls,
         ls = filter (fun l => hourKey l = point_Timestamp p) three_in_two_hours
         /\ ls <> []
         /\ point_Count p = len ls
         /\ point_TotalSize p = Int64.wrap (sum_sizes ls))
  /\ (forall logs', logs' ≡ₚ three_in_two_hours ->
        aggregateByHour logs' two_hour_buckets).
Proof.
  apply (aggregateByHour_buckets three_in_two_hours two_hour_buckets).
  - vm_compute. discriminate.
  - unfold aggregateByHour.
    replace (point_of <$> map_to_list (hourMap_of three_in_two_hours))
      with (reverse two_hour_buckets) by (vm_compute; reflexivity).
    apply Permutation_swap.
Defined.

(** C4 fails on the code where the zone offset is not a whole number of
    hours: an observation at 10:45 in zone +05:30 is put in the bucket
    10:30, not in the bucket of its clock hour, 10:00.  The total of a
    bucket is moreover a 64-bit sum, which wraps around. *)
Lemma aggregateByHour_half_hour_zone :
  let l := mkLogSize 1 (Date 2024 1 1 10 45 0 19800) 1500 in
  let big := [mkLogSize 1 (Date 2024 1 1 10 0 0 0) 9223372036854775807;
              mkLogSize 2 (Date 2024 1 1 10 30 0 0) 1] in
  Format_RFC3339 (Timestamp l) = "2024-01-01T10:45:00+05:30"%string
  /\ Format_RFC3339 (clock_hour_start (Timestamp l))
     = "2024-01-01T10:00:00+05:30"%string
  /\ (forall result, aggregateByHour [l] result ->
        result = [mkPoint "2024-01-01T10:30:00+05:30" 1 1500])
  /\ sum_sizes big = 9223372036854775808
  /\ (forall result, aggregateByHour big result ->
        result = [mkPoint "2024-01-01T10:00:00Z" 2 (-9223372036854775808)]).
Proof.
  intros l big. split; [by vm_compute|]. split; [by vm_compute|].
  split; [|split; [by vm_compute|]].
  - intros result Hres. unfold aggregateByHour in Hres.
    replace (point_of <$> map_to_list (hourMap_of [l]))
      with [mkPoint "2024-01-01T10:30:00+05:30" 1 1500] in Hres
      by (vm_compute; reflexivity).
    by apply Permutation_singleton_r in Hres.
  - intros result Hres. unfold aggregateByHour in Hres.
    replace (point_of <$> map_to_list (hourMap_of big))
      with [mkPoint "2024-01-01T10:00:00Z" 2 (-9223372036854775808)] in Hres
      by (vm_compute; reflexivity).
    by apply Permutation_singleton_r in Hres.
Qed.

(* ===================================================================== *)
(** * [calculateStats]: the summary *)
(* ===================================================================== *)

Lemma calculateStats_nonempty first rest :
  calculateStats (first :: rest) =
    let logs := first :: rest in
    let v := fold_left stats_step logs
               (mkVars 0 (Filesize first) (Filesize first) GoTime.zero) in
    Returns (mkStats (Int64.wrap (len logs)) (total v)
               (div (of_int (total v)) (of_int (len logs)))
               (min v) (max v) (Format_RFC3339 (lastUpdated v))).
Proof.
  unfold calculateStats.
  replace (len (first :: rest) =? 0) with false; [done|].
  symmetry. apply Z.eqb_neq. unfold len. simpl length. lia.
Qed.

(** C2 (as the code has it). For every non-empty slice, [calculateStats]
    returns: the number of observations; the sum of their sizes reduced
    to a signed 64-bit integer, which is the sum itself whenever that
    fits; the binary64 quotient of the total by the count; the smallest
    and the largest size, each that of a first occurrence in input order;
    and, provided some timestamp is later than the zero time, the RFC
    3339 text of the timestamp of the first observation with the latest
    instant. *)
Theorem calculateStats_summary (logs : list LogSize) :
  logs <> [] ->
  len logs <= Int64.max_int64 ->
  exists st,
    calculateStats logs = Returns st
    /\ TotalRecords st = len logs
    /\ TotalSize st = Int64.wrap (sum_sizes logs)
    /\ (Int64.in_range (sum_sizes logs) -> TotalSize st = sum_sizes logs)
    /\ AverageSize st = div (of_int (TotalSize st)) (of_int (TotalRecords st))
    /\ (forall y, y ∈ logs -> MinSize st <= Filesize y <= MaxSize st)
    /\ (exists i x, first_with (fun y => Filesize y = MinSize st) logs i x)
    /\ (exists i x, first_with (fun y => Filesize y = MaxSize st) logs i x)
    /\ ((exists y, y ∈ logs /\ 0 < abs_ns (Timestamp y)) ->
         exists i x, first_latest logs i x
                     /\ LastUpdated st = Format_RFC3339 (Timestamp x)).
Proof.
  intros Hne Hlen. destruct logs as [|first rest]; [done|].
  rewrite calculateStats_nonempty. cbv zeta.
  set (logs := first :: rest) in *.
  set (v0 := mkVars 0 (Filesize first) (Filesize first) GoTime.zero).
  set (v := fold_left stats_step logs v0).
  eexists. split; [reflexivity|]. cbn [TotalRecords TotalSize AverageSize
    MinSize MaxSize LastUpdated].
  assert (Hcount : Int64.wrap (len logs) = len logs).
  { apply wrap_in_range. unfold Int64.in_range, Int64.min_int64, len in *. lia. }
  assert (Htotal : total v = Int64.wrap (sum_sizes logs)).
  { unfold v. rewrite stats_total by done. done. }
  assert (Hfirst : first ∈ logs) by (by left).
  destruct (stats_min logs v0) as (Hmin0 & Hmin & Hminex).
  destruct (stats_max logs v0) as (Hmax0 & Hmax & Hmaxex).
  destruct (stats_lastUpdated logs v0) as (_ & Hts & _ & Htsex).
  fold v in Hmin0, Hmin, Hminex, Hmax0, Hmax, Hmaxex, Hts, Htsex.
  simpl in Hmin0, Hminex, Hmax0, Hmaxex, Htsex.
  split; [done|]. split; [done|]. split.
  { intros Hfit. by rewrite Htotal, wrap_in_range. }
  split; [by rewrite Hcount|]. split.
  { intros y Hy. specialize (Hmin y Hy). specialize (Hmax y Hy). lia. }
  split; [|split].
  - destruct Hminex as [Heq|(x & Hx & Heq)].
    + apply (first_with_exists _ logs first); [done|]. by rewrite Heq.
    + by apply (first_with_exists _ logs x).
  - destruct Hmaxex as [Heq|(x & Hx & Heq)].
    + apply (first_with_exists _ logs first); [done|]. by rewrite Heq.
    + by apply (first_with_exists _ logs x).
  - intros (y & Hy & Hpos). specialize (Hts y Hy).
    destruct Htsex as (i & x & Hx & Hu); [lia|].
    exists i, x. split; [done|]. by rewrite Hu.
Qed.

Lemma calculateStats_summary_witness :
  exists st,
    calculateStats sizes_1000_2000_3000 = Returns st
    /\ TotalRecords st = len sizes_1000_2000_3000
    /\ TotalSize st = Int64.wrap (sum_sizes sizes_1000_2000_3000)
    /\ (Int64.in_range (sum_sizes sizes_1000_2000_3000) ->
        TotalSize st = sum_sizes sizes_1000_2000_3000)
    /\ AverageSize st = div (of_int (TotalSize st)) (of_int (TotalRecords st))
    /\ (forall y, y ∈ sizes_1000_2000_3000 -> MinSize st <= Filesize y <= MaxSize st)
    /\ (exists i x, first_with (fun y => Filesize y = MinSize st)
                      sizes_1000_2000_3000 i x)
    /\ (exists i x, first_with (fun y => Filesize y = MaxSize st)
                      sizes_1000_2000_3000 i x)
    /\ ((exists y, y ∈ sizes_1000_2000_3000 /\ 0 < abs_ns (Timestamp y)) ->
         exists i x, first_latest sizes_1000_2000_3000 i x
                     /\ LastUpdated st = Format_RFC3339 (Timestamp x)).
Proof.
  apply (calculateStats_summary sizes_1000_2000_3000).
  - discriminate.
  - vm_compute. discriminate.
Defined.

(** The summary of the sizes 1000, 2000, 3000 of the specification:
    count 3, total 6000, average 2000.0, minimum 1000, maximum 3000. *)
Example calculateStats_1000_2000_3000 :
  calculateStats sizes_1000_2000_3000 =
    Returns (mkStats 3 6000 (of_int 2000) 1000 3000 "2024-01-01T10:00:00Z").
Proof. vm_compute. reflexivity. Qed.

(** C2 fails on the code: the total is a 64-bit sum.  For the sizes
    [2^63 - 1] and [1] it is [-2^63], not their sum [2^63].  And when no
    timestamp is later than the zero time the last-updated text is that
    of the zero time, which is the timestamp of no observation. *)
Lemma calculateStats_total_wraps :
  let logs := [mkLogSize 1 (Date 2024 1 1 10 0 0 0) 9223372036854775807;
               mkLogSize 2 (Date 2024 1 1 10 0 1 0) 1] in
  let early := [mkLogSize 1 (mkTime (-1) 0) 5] in
  sum_sizes logs = 9223372036854775808
  /\ (exists st, calculateStats logs = Returns st
                 /\ TotalSize st = -9223372036854775808
                 /\ TotalSize st <> sum_sizes logs)
  /\ (exists st, calculateStats early = Returns st
                 /\ LastUpdated st = "0001-01-01T00:00:00Z"%string
                 /\ Format_RFC3339 (mkTime (-1) 0) = "0000-12-31T23:59:59Z"%string).
Proof.
  intros logs early. split; [by vm_compute|]. split.
  - eexists. split; [vm_compute; reflexivity|]. by vm_compute.
  - eexists. split; [vm_compute; reflexivity|]. by vm_compute.
Qed.

(* ===================================================================== *)
(** * [calculateSizeBreakdown]: the distribution *)
(* ===================================================================== *)

(** On a slice, whose length fits in an [int], the counters do not wrap
    around. *)
Lemma calculateSizeBreakdown_counts logs :
  len logs <= Int64.max_int64 ->
  calculateSizeBreakdown logs =
    Returns (imap (fun j r =>
               mkBreakdown (Name r) (hits j logs)
                 (percentage_of (hits j logs) (len logs))) ranges).
Proof.
  intros Hlen. rewrite calculateSizeBreakdown_rows.
  assert (Hw : forall j, Int64.wrap (hits j logs) = hits j logs).
  { intros j. apply wrap_in_range. pose proof (hits_bounds j logs).
    unfold Int64.in_range, Int64.min_int64. lia. }
  simpl. by rewrite !Hw.
Qed.

Lemma calculateSizeBreakdown_written_out logs :
  len logs <= Int64.max_int64 ->
  calculateSizeBreakdown logs =
    Returns [breakdown_row "< 1KB" 0 logs;
             breakdown_row "1KB - 10KB" 1 logs;
             breakdown_row "10KB - 100KB" 2 logs;
             breakdown_row "100KB - 1MB" 3 logs;
             breakdown_row "1MB - 10MB" 4 logs;
             breakdown_row "> 10MB" 5 logs].
Proof. intros Hlen. by rewrite calculateSizeBreakdown_counts. Qed.

(** C3, at the input where the code departs from it.  A single
    observation of the largest 64-bit size is non-negative and at least
    10485760, yet no range counts it: all six counts are zero, and their
    sum is not the number of observations. *)
Theorem calculateSizeBreakdown_max_int64_uncounted :
  let logs := [mkLogSize 1 (Date 2024 1 1 10 0 0 0) 9223372036854775807] in
  Forall (fun l => 0 <= Filesize l) logs
  /\ Forall (fun l => 10485760 <= Filesize l) logs
  /\ Forall (fun l => Int64.in_range (Filesize l)) logs
  /\ range_index 9223372036854775807 = None
  /\ exists rows,
       calculateSizeBreakdown logs = Returns rows
       /\ breakdown_Count <$> rows = [0; 0; 0; 0; 0; 0]
       /\ foldr Z.add 0 (breakdown_Count <$> rows) <> len logs.
Proof.
  intros logs. split; [repeat constructor; simpl; lia|].
  split; [repeat constructor; simpl; lia|].
  split; [repeat constructor; by vm_compute|].
  split; [by vm_compute|].
  eexists. split; [vm_compute; reflexivity|]. split; [reflexivity|].
  by vm_compute.
Qed.

(** Below the largest 64-bit integer the classification is as C3 says:
    every non-negative size is counted in the first range that holds it,
    sizes from 10485760 on in the last one, and the six counts add up to
    the number of observations. *)
Lemma calculateSizeBreakdown_classifies logs :
  len logs <= Int64.max_int64 ->
  Forall (fun l => 0 <= Filesize l < Int64.max_int64) logs ->
  exists rows,
    calculateSizeBreakdown logs = Returns rows
    /\ breakdown_Count <$> rows =
         [hits 0 logs; hits 1 logs; hits 2 logs; hits 3 logs; hits 4 logs;
          hits 5 logs]
    /\ foldr Z.add 0 (breakdown_Count <$> rows) = len logs
    /\ hits 5 logs = len (filter (fun l => 10485760 <= Filesize l) logs).
Proof.
  intros Hlen Hall. eexists. split; [by apply calculateSizeBreakdown_written_out|].
  split; [reflexivity|]. split.
  - simpl. pose proof (hits_partition logs) as Hp.
    rewrite (misses_none logs Hall) in Hp. lia.
  - unfold hits. f_equal. clear Hlen.
    induction Hall as [|x logs Hx _ IH]; [done|].
    rewrite !filter_cons, IH. rewrite range_index_intervals.
    unfold Int64.max_int64 in Hx.
    repeat (case_decide; try done); try lia; congruence.
Qed.

(** ** Percentages *)

(** The percentage of a bucket that holds nothing is exactly zero. *)
Lemma percentage_of_zero t : 0 < t < 2 ^ 63 -> percentage_of 0 t = zero.
Proof.
  intros Ht. unfold percentage_of.
  replace (0 <? t) with true by (symmetry; apply Z.ltb_lt; lia).
  destruct (of_int_Q t) as (mb & eb & -> & _); [lia|]. reflexivity.
Qed.

Lemma percentage_of_spec c t :
  0 <= c <= t -> t < 2 ^ 63 -> percentage_spec c t (percentage_of c t).
Proof.
  intros Hc Ht. split.
  - intros ->. reflexivity.
  - intros Hpos. split.
    { unfold percentage_of.
      by replace (0 <? t) with true by (symmetry; apply Z.ltb_lt; lia). }
    destruct (Z.eq_dec c 0) as [->|Hc0].
    + rewrite percentage_of_zero by lia. exists 0%Q. split; [reflexivity|].
      assert (Hz : (100 * inject_Z 0 / inject_Z t == 0)%Q).
      { change (inject_Z 0) with 0%Q. unfold Qdiv. ring. }
      apply Qabs_Qle_condition. rewrite Hz. split; lra.
    + destruct (percentage_of_Q c t) as (m & e & -> & Hb); [lia|lia|].
      exists (valQ (Z.pos m) e). split; [reflexivity|]. cbv zeta in Hb.
      set (x := (100 * inject_Z c / inject_Z t)%Q) in *.
      apply Qabs_Qle_condition. destruct Hb as [Hlo Hhi]. split; lra.
Qed.

(** C6. For every slice (its length is an [int]),
    [calculateSizeBreakdown] returns six rows, one per range and in the
    order of the table, also for ranges that hold nothing; the count of
    a row is the number of observations of its range; the percentage of
    a row is zero when the slice is empty (no division takes place) and
    otherwise the binary64 value of [count / total * 100], that is
    [100 * count / total] up to rounding: the two differ by at most
    [2^-50] of the latter. *)
Theorem calculateSizeBreakdown_six_rows (logs : list LogSize) :
  len logs <= Int64.max_int64 ->
  exists rows,
    calculateSizeBreakdown logs = Returns rows
    /\ Range <$> rows =
         ["< 1KB"; "1KB - 10KB"; "10KB - 100KB"; "100KB - 1MB"; "1MB - 10MB";
          "> 10MB"]%string
    /\ breakdown_Count <$> rows =
         [hits 0 logs; hits 1 logs; hits 2 logs; hits 3 logs; hits 4 logs;
          hits 5 logs]
    /\ Forall (fun row =>
                 percentage_spec (breakdown_Count row) (len logs) (Percentage row))
              rows.
Proof.
  intros Hlen. eexists. split; [by apply calculateSizeBreakdown_written_out|].
  split; [reflexivity|]. split; [reflexivity|].
  assert (Ht : len logs < 2 ^ 63) by (unfold Int64.max_int64 in Hlen; lia).
  unfold breakdown_row. repeat constructor; cbn [breakdown_Count Percentage];
    apply percentage_of_spec; try done; apply hits_bounds.
Qed.

Lemma calculateSizeBreakdown_six_rows_witness :
  exists rows,
    calculateSizeBreakdown one_per_range = Returns rows
    /\ Range <$> rows =
         ["< 1KB"; "1KB - 10KB"; "10KB - 100KB"; "100KB - 1MB"; "1MB - 10MB";
          "> 10MB"]%string
    /\ breakdown_Count <$> rows =
         [hits 0 one_per_range; hits 1 one_per_range; hits 2 one_per_range;
          hits 3 one_per_range; hits 4 one_per_range; hits 5 one_per_range]
    /\ Forall (fun row =>
                 percentage_spec (breakdown_Count row) (len one_per_range)
                   (Percentage row))
              rows.
Proof.
  apply (calculateSizeBreakdown_six_rows one_per_range).
  vm_compute. discriminate.
Defined.

(** The test of the specification: one observation per range gives six
    rows of count 1 and percentage 16.666666666666664. *)
Example calculateSizeBreakdown_one_per_range :
  exists rows,
    calculateSizeBreakdown one_per_range = Returns rows
    /\ breakdown_Count <$> rows = [1; 1; 1; 1; 1; 1]
    /\ Percentage <$> rows
       = replicate 6 (S754_finite false 4691249611844266 (-48))
    /\ to_Q (S754_finite false 4691249611844266 (-48))
       = Some (4691249611844266 # 281474976710656).
Proof.
  eexists. split; [vm_compute; reflexivity|]. split; [reflexivity|].
  split; reflexivity.
Qed.

(** The exact value of a percentage lies between zero and
    [100 * count / total] enlarged by the rounding error. *)
Lemma percentage_of_upper c t :
  0 <= c <= t -> 0 < t < 2 ^ 63 ->
  exists q, to_Q (percentage_of c t) = Some q
    /\ (0 <= q <= (1 + percent_error) * 100 * (inject_Z c / inject_Z t))%Q.
Proof.
  intros Hc Ht.
  assert (Htq : (0 < inject_Z t)%Q) by (rewrite <- (Zlt_Qlt 0); lia).
  destruct (Z.eq_dec c 0) as [->|Hc0].
  - rewrite percentage_of_zero by lia. exists 0%Q. split; [reflexivity|].
    assert (Hz : (inject_Z 0 / inject_Z t == 0)%Q).
    { change (inject_Z 0) with 0%Q. unfold Qdiv. ring. }
    rewrite Hz. split; lra.
  - destruct (percentage_of_Q c t) as (m & e & -> & Hb); [lia|lia|].
    exists (valQ (Z.pos m) e). split; [reflexivity|]. cbv zeta in Hb.
    assert (Hx : (100 * inject_Z c / inject_Z t
                  == 100 * (inject_Z c / inject_Z t))%Q) by (field; lra).
    rewrite Hx in Hb.
    assert (Hrho : (0 < inject_Z c / inject_Z t)%Q).
    { apply Qlt_shift_div_l; [done|]. rewrite Qmult_0_l.
      rewrite <- (Zlt_Qlt 0). lia. }
    set (rho := (inject_Z c / inject_Z t)%Q) in *.
    unfold percent_error in *. change (2 ^ 50)%positive with 1125899906842624%positive in *.
    destruct Hb as [Hlo Hhi]. split; lra.
Qed.

(** C10. When some observation has a negative size, no range counts it:
    [calculateSizeBreakdown] returns six rows whose counts add up to the
    number of observations that some range holds, which is less than the
    number of observations, and the exact values of the six percentages
    add up to less than 100.  The slice is one a machine can hold: at
    most [2^50] observations, of 40 bytes each. *)
Theorem calculateSizeBreakdown_negative_uncounted (logs : list LogSize) :
  (exists l, l ∈ logs /\ Filesize l < 0) ->
  len logs <= 2 ^ 50 ->
  exists rows,
    calculateSizeBreakdown logs = Returns rows
    /\ (forall l, l ∈ logs -> Filesize l < 0 -> range_index (Filesize l) = None)
    /\ foldr Z.add 0 (breakdown_Count <$> rows) = len logs - misses logs
    /\ foldr Z.add 0 (breakdown_Count <$> rows) < len logs
    /\ exists qs,
         Forall2 (fun row q => to_Q (Percentage row) = Some q) rows qs
         /\ (foldr Qplus 0 qs < 100)%Q.
Proof.
  intros Hneg Hlen.
  assert (Hmiss : 0 < misses logs) by (by apply misses_negative).
  pose proof (hits_partition logs) as Hpart.
  assert (Ht : 0 < len logs <= 2 ^ 50).
  { split; [|done]. pose proof (hits_bounds 0 logs).
    pose proof (hits_bounds 1 logs). pose proof (hits_bounds 2 logs).
    pose proof (hits_bounds 3 logs). pose proof (hits_bounds 4 logs).
    pose proof (hits_bounds 5 logs). lia. }
  eexists. split.
  { apply calculateSizeBreakdown_written_out. unfold Int64.max_int64. lia. }
  split.
  { intros l _ Hl. rewrite range_index_intervals. by rewrite decide_True. }
  unfold breakdown_row.
  cbn [fmap list_fmap breakdown_Count foldr].
  split; [lia|]. split; [lia|].
  set (t := len logs) in *.
  destruct (percentage_of_upper (hits 0 logs) t) as (q0 & Hq0 & Hb0);
    [apply hits_bounds|lia|].
  destruct (percentage_of_upper (hits 1 logs) t) as (q1 & Hq1 & Hb1);
    [apply hits_bounds|lia|].
  destruct (percentage_of_upper (hits 2 logs) t) as (q2 & Hq2 & Hb2);
    [apply hits_bounds|lia|].
  destruct (percentage_of_upper (hits 3 logs) t) as (q3 & Hq3 & Hb3);
    [apply hits_bounds|lia|].
  destruct (percentage_of_upper (hits 4 logs) t) as (q4 & Hq4 & Hb4);
    [apply hits_bounds|lia|].
  destruct (percentage_of_upper (hits 5 logs) t) as (q5 & Hq5 & Hb5);
    [apply hits_bounds|lia|].
  exists [q0; q1; q2; q3; q4; q5]. split; [by repeat constructor|].
  cbn [foldr].
  (* the counts sum to at most [t - 1], and [1 / t] is at least [2^-50] *)
  set (S := hits 0 logs + hits 1 logs + hits 2 logs + hits 3 logs
            + hits 4 logs + hits 5 logs).
  assert (HS : S <= t - 1) by (unfold S; lia).
  assert (Htq : (0 < inject_Z t)%Q) by (rewrite <- (Zlt_Qlt 0); lia).
  assert (Hsum : (inject_Z (hits 0 logs) / inject_Z t
                  + inject_Z (hits 1 logs) / inject_Z t
                  + inject_Z (hits 2 logs) / inject_Z t
                  + inject_Z (hits 3 logs) / inject_Z t
                  + inject_Z (hits 4 logs) / inject_Z t
                  + inject_Z (hits 5 logs) / inject_Z t
                  == inject_Z S / inject_Z t)%Q).
  { unfold S. rewrite !inject_Z_plus. field. lra. }
  assert (Hw : (1 # 1125899906842624 <= 1 / inject_Z t)%Q).
  { apply Qle_shift_div_l; [done|].
    assert (inject_Z t <= inject_Z (2 ^ 50))%Q by (rewrite <- Zle_Qle; lia).
    change (inject_Z (2 ^ 50)) with (1125899906842624 # 1)%Q in H. lra. }
  assert (HSq : (inject_Z S / inject_Z t <= 1 - 1 / inject_Z t)%Q).
  { assert (Heq : (1 - 1 / inject_Z t == (inject_Z t - 1) / inject_Z t)%Q)
      by (field; lra).
    rewrite Heq. apply Qle_shift_div_l; [done|].
    assert (Hc : (inject_Z S / inject_Z t * inject_Z t == inject_Z S)%Q)
      by (field; lra).
    rewrite Hc. assert (inject_Z S <= inject_Z (t - 1))%Q
      by (rewrite <- Zle_Qle; lia).
    replace (t - 1) with (t + -1) in H by lia.
    rewrite inject_Z_plus in H. change (inject_Z (-1)) with (-1 # 1)%Q in H. lra. }
  set (y0 := (inject_Z (hits 0 logs) / inject_Z t)%Q) in *.
  set (y1 := (inject_Z (hits 1 logs) / inject_Z t)%Q) in *.
  set (y2 := (inject_Z (hits 2 logs) / inject_Z t)%Q) in *.
  set (y3 := (inject_Z (hits 3 logs) / inject_Z t)%Q) in *.
  set (y4 := (inject_Z (hits 4 logs) / inject_Z t)%Q) in *.
  set (y5 := (inject_Z (hits 5 logs) / inject_Z t)%Q) in *.
  set (Y := (inject_Z S / inject_Z t)%Q) in *.
  set (w := (1 / inject_Z t)%Q) in *.
  unfold percent_error in *. change (2 ^ 50)%positive with 1125899906842624%positive in *.
  lra.
Qed.

Lemma calculateSizeBreakdown_negative_uncounted_witness :
  exists rows,
    calculateSizeBreakdown with_negative = Returns rows
    /\ (forall l, l ∈ with_negative -> Filesize l < 0 ->
        range_index (Filesize l) = None)
    /\ foldr Z.add 0 (breakdown_Count <$> rows)
       = len with_negative - misses with_negative
    /\ foldr Z.add 0 (breakdown_Count <$> rows) < len with_negative
    /\ exists qs,
         Forall2 (fun row q => to_Q (Percentage row) = Some q) rows qs
         /\ (foldr Qplus 0 qs < 100)%Q.
Proof.
  apply (calculateSizeBreakdown_negative_uncounted with_negative).
  - exists (mkLogSize 2 (Date 2024 1 1 10 0 1 0) (-1)).
    split; [right; left|]; vm_compute; reflexivity.
  - vm_compute. discriminate.
Defined.

(* ===================================================================== *)
(** * Totality of the analytics functions *)
(* ===================================================================== *)

(** C7. For the empty slice [calculateStats] returns the zero value:
    count 0, total, average, minimum and maximum 0, and the empty
    timestamp text.  For every input, none of the three analytics
    functions panics: each returns a value; on the empty slice
    [aggregateByHour] returns no bucket and [calculateSizeBreakdown] six
    rows of count 0 and percentage 0. *)
Theorem analytics_never_fail :
  calculateStats [] = Returns (mkStats 0 0 (S754_zero false) 0 0 "")
  /\ (forall logs, exists st, calculateStats logs = Returns st)
  /\ (forall logs, exists rows,
        calculateSizeBreakdown logs = Returns rows /\ length rows = 6%nat)
  /\ (forall logs, exists result, aggregateByHour logs result)
  /\ (forall result, aggregateByHour [] result <-> result = [])
  /\ calculateSizeBreakdown [] =
       Returns [mkBreakdown "< 1KB" 0 (S754_zero false);
                mkBreakdown "1KB - 10KB" 0 (S754_zero false);
                mkBreakdown "10KB - 100KB" 0 (S754_zero false);
                mkBreakdown "100KB - 1MB" 0 (S754_zero false);
                mkBreakdown "1MB - 10MB" 0 (S754_zero false);
                mkBreakdown "> 10MB" 0 (S754_zero false)].
Proof.
  split; [reflexivity|]. split; [|split; [|split; [|split]]].
  - intros [|first rest]; [by eexists|].
    rewrite calculateStats_nonempty. by eexists.
  - intros logs. rewrite calculateSizeBreakdown_rows. by eexists.
  - intros logs. eexists. unfold aggregateByHour. reflexivity.
  - intros result. unfold aggregateByHour, hourMap_of. simpl.
    rewrite map_to_list_empty. simpl. apply Permutation_nil_r.
  - reflexivity.
Qed.

(* ===================================================================== *)
(** * The store: closing, and range queries next to inserts *)
(* ===================================================================== *)


Lemma QueryByTimeRange_open_controller c start end_ :
  closed (db c) = false ->
  QueryByTimeRange c start end_ =
    (order_by ts_key (filter (in_window start end_) (table c)), None).
Proof.
  intros Hc. unfold QueryByTimeRange, query_time_range, table.
  by rewrite Hc, scan_rows_id.
Qed.







(* ===================================================================== *)
(** * The ingestion endpoint *)
(* ===================================================================== *)

Lemma accepted_size_positive r size : accepted_size r = Some size -> 0 < size.
Proof.
  unfold accepted_size. destruct (String.eqb _ _); [|done].
  destruct (Body r) as [body|]; [|done].
  destruct (Z.ltb_spec 0 (bodySize body)); [|done]. by intros [= <-].
Qed.

(** The handler on a request it does not pass on to the store. *)
Lemma makeIngestionHandler_rejected c now r :
  accepted_size r = None ->
  exists w, makeIngestionHandler c now r = (c, w)
            /\ (rec_Code w = 405 \/ rec_Code w = 400)
            /\ (rec_Code w = 405 <-> Method r <> "POST"%string).
Proof.
  unfold accepted_size, makeIngestionHandler, MethodPost.
  destruct (String.eqb_spec (Method r) "POST") as [Hm|Hm]; simpl.
  - destruct (Body r) as [body|].
    + destruct (Z.ltb_spec 0 (bodySize body)) as [|Hle]; [done|]. intros _.
      apply Z.leb_le in Hle. rewrite Hle. eexists. split; [done|]. simpl.
      split; [by right|]. split; [done|]. intros Hn. by destruct Hn.
    + intros _. eexists. split; [done|]. simpl.
      split; [by right|]. split; [done|]. intros Hn. by destruct Hn.
  - intros _. eexists. split; [done|]. simpl. split; [by left|]. done.
Qed.

(** The handler on a request it passes on to the store. *)
Lemma makeIngestionHandler_accepted c now r size :
  accepted_size r = Some size ->
  makeIngestionHandler c now r =
    match InsertLogSize c now size with
    | (c', Some _) => (c', mkRecorder 500 "Failed to write log size")
    | (c', None) => (c', mkRecorder 200 "OK")
    end.
Proof.
  unfold accepted_size, makeIngestionHandler, MethodPost.
  destruct (String.eqb (Method r) "POST"); [simpl|done].
  destruct (Body r) as [body|]; [|done].
  destruct (Z.ltb_spec 0 (bodySize body)) as [Hpos|]; [|done]. intros [= <-].
  destruct (Z.leb_spec (bodySize body) 0); [lia|].
  by destruct (InsertLogSize c now (bodySize body)) as [c' [e|]].
Qed.

(** For every store, clock reading and request, the ingestion handler
    answers 200, 400, 405 or 500.  It answers 200 exactly when the
    request is a POST with a readable body of positive size and the
    store is open and has a row id left; it then has appended one row,
    with the next row id, the clock reading and the size of the body.
    With every other answer the store is as it was. *)
Theorem makeIngestionHandler_stores_on_200 (c : SQLiteController) (now : Time)
    (r : Request) :
  exists c' w,
    makeIngestionHandler c now r = (c', w)
    /\ (rec_Code w = 200 \/ rec_Code w = 400 \/ rec_Code w = 405
        \/ rec_Code w = 500)
    /\ (rec_Code w = 200 <->
          Method r = "POST"%string
          /\ (exists body, Body r = Some body /\ 0 < bodySize body)
          /\ closed (db c) = false /\ last_rowid c < Int64.max_int64)
    /\ (rec_Code w = 200 ->
          exists body, Body r = Some body /\ 0 < bodySize body
            /\ rec_Body w = "OK"%string
            /\ table c' =
                 table c ++ [mkLogSize (last_rowid c + 1) now (bodySize body)])
    /\ (rec_Code w <> 200 -> c' = c).
Proof.
  destruct (accepted_size r) as [size|] eqn:Hacc.
  - pose proof (accepted_size_positive _ _ Hacc) as Hpos.
    rewrite (makeIngestionHandler_accepted _ _ _ _ Hacc).
    assert (Hreq : Method r = "POST"%string
                   /\ exists body, Body r = Some body /\ bodySize body = size).
    { unfold accepted_size, MethodPost in Hacc.
      destruct (String.eqb_spec (Method r) "POST"); [|done].
      destruct (Body r) as [body|]; [|done].
      destruct (0 <? bodySize body); [|done]. injection Hacc as <-.
      split; [done|]. by exists body. }
    destruct Hreq as (Hm & body & Hb & Hsz).
    destruct (InsertLogSize c now size) as [c' [e|]] eqn:Hins.
    + apply InsertLogSize_failure in Hins as Heq. subst c'.
      do 2 eexists. split; [done|]. simpl. split; [auto|].
      split; [|split]; [|done|done]. split; [done|].
      intros (_ & _ & Hc & Hroom).
      rewrite (InsertLogSize_open c now size Hc Hroom) in Hins. done.
    + apply InsertLogSize_success in Hins as (Hc & Hroom & Ht & _).
      do 2 eexists. split; [done|]. simpl. split; [auto|].
      split; [|split]; [| |done].
      * split; [|done]. intros _. split; [done|]. split; [|done].
        exists body. split; [done|]. lia.
      * intros _. exists body. rewrite Hsz. split; [done|]. split; [lia|]. done.
  - destruct (makeIngestionHandler_rejected c now r Hacc) as (w & -> & Hcode & _).
    do 2 eexists. split; [done|]. split; [tauto|].
    split; [|split]; [| |done].
    + split; [intros H200; destruct Hcode; congruence|].
      intros (Hm & (body & Hb & Hpos) & _). exfalso.
      unfold accepted_size, MethodPost in Hacc. rewrite Hm, Hb in Hacc. simpl in Hacc.
      destruct (Z.ltb_spec 0 (bodySize body)); [done|lia].
    + intros H200. destruct Hcode; congruence.
Qed.

(** The size stored for a body is its length in bytes, and only the
    empty body is refused as empty. *)
Lemma bodySize_length body :
  Z.of_nat (String.length body) <= Int64.max_int64 ->
  bodySize body = Z.of_nat (String.length body)
  /\ (0 < bodySize body <-> body <> EmptyString).
Proof.
  intros Hlen. unfold bodySize. rewrite wrap_in_range
    by (unfold Int64.in_range, Int64.min_int64; lia).
  split; [done|]. destruct body; simpl String.length; split; try done; lia.
Qed.

Lemma serve_all_table requests : forall c c' ws,
  serve_all c requests = (c', ws) ->
  length ws = length requests
  /\ exists new,
       table c' = table c ++ new
       /\ Forall (fun row => 0 < Filesize row) new
       /\ length new = length (filter (fun w => rec_Code w = 200) ws)
       /\ (closed (db c) = false ->
           last_rowid c + len requests <= Int64.max_int64 ->
           closed (db c') = false
           /\ last_rowid c' = last_rowid c + len new
           /\ map (fun row => (Timestamp row, Filesize row)) new
              = accepted requests
           /\ Forall (fun w => rec_Code w <> 500) ws).
Proof.
  induction requests as [|[now r] requests IH]; intros c c' ws; simpl.
  - intros [= <- <-]. split; [done|]. exists []. rewrite app_nil_r.
    repeat split; try done. unfold len. simpl. lia.
  - destruct (makeIngestionHandler c now r) as [c1 w] eqn:Hh.
    destruct (serve_all c1 requests) as [c2 ws'] eqn:Hrest.
    intros [= <- <-]. destruct (IH _ _ _ Hrest) as (Hlen & new & Ht & Hpos & Hn & Hopen).
    split; [simpl; by rewrite Hlen|]. clear IH.
    assert (Hl : len ((now, r) :: requests) = 1 + len requests)
      by (unfold len; simpl length; lia).
    assert (Hge : 0 <= len requests) by (unfold len; lia).
    rewrite Hl. unfold accepted. cbn [omap list_omap]. fold (accepted requests).
    destruct (accepted_size r) as [size|] eqn:Hacc.
    + pose proof (accepted_size_positive _ _ Hacc) as Hsz.
      rewrite (makeIngestionHandler_accepted _ _ _ _ Hacc) in Hh.
      destruct (InsertLogSize c now size) as [c0 [e|]] eqn:Hins.
      * injection Hh as <- <-.
        pose proof (InsertLogSize_failure _ _ _ _ _ Hins) as ->.
        exists new. rewrite filter_cons, decide_False by done.
        split; [done|]. split; [done|]. split; [done|].
        intros Hc Hroom. exfalso.
        rewrite (InsertLogSize_open c now size) in Hins by (done || lia). done.
      * injection Hh as <- <-.
        apply InsertLogSize_success in Hins as (Hc & Hroom & Ht0 & Hc0 & Hl0).
        exists (mkLogSize (last_rowid c + 1) now size :: new).
        rewrite Ht, Ht0, <- app_assoc. split; [done|].
        split; [by constructor|].
        rewrite filter_cons, decide_True by done. split; [simpl; by rewrite Hn|].
        intros _ Hroom'. destruct Hopen as (Hc2 & Hl2 & Hmap & H500); [done|lia|].
        split; [done|]. split.
        { rewrite Hl2, Hl0. unfold len. simpl length. lia. }
        split; [simpl; by rewrite Hmap|]. by constructor.
    + destruct (makeIngestionHandler_rejected c now r Hacc) as (w' & Hh' & Hcode & _).
      rewrite Hh in Hh'. injection Hh' as -> <-.
      exists new. rewrite filter_cons, decide_False by (destruct Hcode; congruence).
      split; [done|]. split; [done|]. split; [done|].
      intros Hc Hroom. destruct Hopen as (Hc2 & Hl2 & Hmap & H500); [done|lia|].
      split; [done|]. split; [done|]. split; [done|].
      constructor; [destruct Hcode; congruence | done].
Qed.

(** Whatever requests the ingestion endpoint serves, one after the
    other, the table gains one row per answer 200 and nothing else, and
    every row it gains has a positive size.  On a store that is open and
    has row ids to spare, the rows gained are those of the requests that
    are a POST with a readable body of positive size, in the order of
    the requests, and no request is answered 500. *)
Theorem serve_all_positive_sizes (c c' : SQLiteController)
    (requests : list (Time * Request)) (ws : list ResponseRecorder) :
  serve_all c requests = (c', ws) ->
  length ws = length requests
  /\ exists new,
       table c' = table c ++ new
       /\ Forall (fun row => 0 < Filesize row) new
       /\ length new = length (filter (fun w => rec_Code w = 200) ws)
       /\ (closed (db c) = false ->
           last_rowid c + len requests <= Int64.max_int64 ->
           map (fun row => (Timestamp row, Filesize row)) new
             = accepted requests
           /\ Forall (fun w => rec_Code w <> 500) ws).
Proof.
  intros Hrun. destruct (serve_all_table _ _ _ _ Hrun)
    as (Hlen & new & Ht & Hpos & Hn & Hopen).
  split; [done|]. exists new. repeat split; try done;
    destruct Hopen as (_ & _ & Hmap & H500); done.
Qed.

(* ===================================================================== *)
(** * [aggregateByHour]: nothing is lost between the buckets *)
(* ===================================================================== *)

Lemma sum_with_perm {A} (f : A -> Z) l l' : l ≡ₚ l' -> sum_with f l = sum_with f l'.
Proof. induction 1; simpl; lia. Qed.

Lemma sum_with_fmap {A B} (f : B -> Z) (g : A -> B) l :
  sum_with f (g <$> l) = sum_with (fun x => f (g x)) l.
Proof. unfold sum_with. induction l as [|x l IH]; csimpl; [done|]. by rewrite IH. Qed.

Lemma sum_with_ext {A} (f g : A -> Z) l :
  (forall x, x ∈ l -> f x = g x) -> sum_with f l = sum_with g l.
Proof.
  induction l as [|x l IH]; intros H; simpl; [done|].
  rewrite H by (by left). rewrite IH; [done|]. intros y Hy. apply H. by right.
Qed.

Lemma sum_with_foldr {A} (f : A -> Z) l : foldr Z.add 0 (f <$> l) = sum_with f l.
Proof. unfold sum_with. induction l as [|x l IH]; csimpl; [done|]. by rewrite IH. Qed.

Lemma sum_with_bounds {A} (f : A -> Z) lo l :
  (forall x, x ∈ l -> lo <= f x) -> lo * len l <= sum_with f l.
Proof.
  induction l as [|x l IH]; intros H; unfold len; simpl length; simpl; [lia|].
  assert (lo <= f x) by (apply H; by left).
  assert (lo * len l <= sum_with f l) by (apply IH; intros y Hy; apply H; by right).
  unfold len in *. lia.
Qed.

Lemma sum_with_one {A} (l : list A) : sum_with (fun _ => 1) l = len l.
Proof. induction l as [|x l IH]; unfold len in *; simpl; [done|]. lia. Qed.

Lemma sum_sizes_sum_with l : sum_sizes l = sum_with Filesize l.
Proof. reflexivity. Qed.

(** One element of a duplicate-free list of keys is hit exactly once. *)
Lemma sum_with_indicator {K} `{EqDecision K} (ks : list K) (k0 : K) (c : Z)
    (g : K -> Z) :
  NoDup ks -> k0 ∈ ks ->
  sum_with (fun k => (if decide (k0 = k) then c else 0) + g k) ks
  = c + sum_with g ks.
Proof.
  induction 1 as [|k ks Hk Hnd IH]; intros Hin; [by apply elem_of_nil in Hin|].
  simpl. destruct (decide (k0 = k)) as [->|Hne].
  - assert (Hrest : sum_with (fun k' => (if decide (k = k') then c else 0) + g k') ks
                    = sum_with g ks).
    { apply sum_with_ext. intros k' Hk'. rewrite decide_False; [lia|].
      intros ->. done. }
    rewrite Hrest. lia.
  - apply elem_of_cons in Hin as [?|Hin]; [done|]. rewrite IH by done. lia.
Qed.

(** Summing over the classes of a list, one class per key, is summing
    over the list. *)
Lemma sum_with_classes {A K} `{EqDecision K} (key : A -> K) (w : A -> Z)
    (ks : list K) (l : list A) :
  NoDup ks -> (forall x, x ∈ l -> key x ∈ ks) ->
  sum_with (fun k => sum_with w (filter (fun x => key x = k) l)) ks
  = sum_with w l.
Proof.
  intros Hnd. induction l as [|x l IH]; intros Hin.
  - simpl. clear. induction ks as [|k ks IHk]; simpl; [done|]. by rewrite IHk.
  - simpl. rewrite <- IH by (intros y Hy; apply Hin; by right).
    rewrite <- (sum_with_indicator ks (key x) (w x)
                  (fun k => sum_with w (filter (fun y => key y = k) l)) Hnd
                  (Hin x ltac:(by left))).
    apply sum_with_ext. intros k _. rewrite filter_cons.
    destruct (decide (key x = k)); simpl; lia.
Qed.

Lemma wrap_add_r a b : Int64.wrap (a + Int64.wrap b) = Int64.wrap (a + b).
Proof. rewrite Z.add_comm, wrap_add_l. f_equal. lia. Qed.

Lemma wrap_sum_with {A} (f : A -> Z) l :
  Int64.wrap (sum_with (fun x => Int64.wrap (f x)) l) = Int64.wrap (sum_with f l).
Proof.
  induction l as [|x l IH]; simpl; [done|].
  rewrite wrap_add_l, <- wrap_add_r, IH, wrap_add_r. done.
Qed.

(** The buckets as a function of the keys of the map. *)
Lemma aggregateByHour_by_keys logs result :
  aggregateByHour logs result ->
  exists ks,
    NoDup ks
    /\ (forall l, l ∈ logs -> hourKey l ∈ ks)
    /\ (forall k, k ∈ ks -> hour_logs k logs <> [])
    /\ result ≡ₚ (fun k => mkPoint k (Int64.wrap (len (hour_logs k logs)))
                                    (Int64.wrap (sum_sizes (hour_logs k logs))))
                 <$> ks.
Proof.
  unfold aggregateByHour. intros Hres.
  set (m := hourMap_of logs) in *. exists (map_to_list m).*1.
  split; [apply NoDup_fst_map_to_list|].
  assert (Hkeys : forall k, k ∈ (map_to_list m).*1 <-> hour_logs k logs <> []).
  { intros k. rewrite list_elem_of_fmap. split.
    - intros ([k' d] & -> & Hkd). apply elem_of_map_to_list in Hkd.
      unfold m in Hkd. rewrite hourMap_of_lookup in Hkd. simpl.
      by case_decide.
    - intros Hne. eexists (k, _). split; [done|]. apply elem_of_map_to_list.
      unfold m. rewrite hourMap_of_lookup. by rewrite decide_False. }
  split; [|split].
  - intros l Hl. remember (hourKey l) as k eqn:Hk. apply Hkeys. intros Hnil.
    assert (l ∈ hour_logs k logs) as Hin
      by (apply list_elem_of_filter; split; [symmetry; exact Hk | exact Hl]).
    rewrite Hnil in Hin. by apply elem_of_nil in Hin.
  - intros k. apply Hkeys.
  - rewrite Hres. rewrite <- list_fmap_compose.
    match goal with |- ?a ≡ₚ ?b => assert (a = b) as ->; [|done] end.
    apply Forall_fmap_ext_1, Forall_forall. intros [k d] Hkd.
    apply elem_of_map_to_list in Hkd.
    unfold m in Hkd. rewrite hourMap_of_lookup in Hkd. case_decide; [done|].
    injection Hkd as <-. reflexivity.
Qed.

Lemma sum_with_filter_le {A} (w : A -> Z) (P : A -> Prop)
    `{!forall x, Decision (P x)} l :
  (forall x, x ∈ l -> 0 <= w x) -> 0 <= sum_with w (filter P l) <= sum_with w l.
Proof.
  induction l as [|x l IH]; intros Hw; [simpl; lia|].
  assert (0 <= w x) by (apply Hw; by left).
  assert (0 <= sum_with w (filter P l) <= sum_with w l)
    by (apply IH; intros y Hy; apply Hw; by right).
  rewrite filter_cons. destruct (decide (P x)); simpl; lia.
Qed.

(** The buckets of [aggregateByHour] share out the observations: their
    counts add up to the number of observations, there are at most as
    many buckets as observations, and their total sizes add up to the sum
    of all sizes, in 64-bit arithmetic; exactly, when no size is
    negative and the sum fits 64 bits. *)
Theorem aggregateByHour_conserves (logs : list LogSize)
    (result : list TimeSeriesPoint) :
  len logs <= Int64.max_int64 ->
  aggregateByHour logs result ->
  foldr Z.add 0 (point_Count <$> result) = len logs
  /\ len result <= len logs
  /\ Int64.wrap (foldr Z.add 0 (point_TotalSize <$> result))
     = Int64.wrap (sum_sizes logs)
  /\ (Forall (fun l => 0 <= Filesize l) logs ->
      sum_sizes logs <= Int64.max_int64 ->
      foldr Z.add 0 (point_TotalSize <$> result) = sum_sizes logs).
Proof.
  intros Hlen Hres.
  destruct (aggregateByHour_by_keys logs result Hres) as (ks & Hnd & Hin & Hne & Hp).
  rewrite !sum_with_foldr, !(sum_with_perm _ _ _ Hp), !sum_with_fmap.
  cbn [point_Count point_TotalSize].
  assert (Hcount : sum_with (fun k => Int64.wrap (len (hour_logs k logs))) ks
                   = len logs).
  { rewrite <- (sum_with_one logs).
    rewrite <- (sum_with_classes hourKey (fun _ => 1) ks logs Hnd Hin).
    apply sum_with_ext. intros k _. rewrite hour_count_exact by done.
    by rewrite sum_with_one. }
  split; [exact Hcount|]. split; [|split].
  - unfold len at 1. rewrite (Permutation_length Hp), length_fmap.
    rewrite <- Hcount. fold (len ks).
    pose proof (sum_with_bounds (fun k => Int64.wrap (len (hour_logs k logs))) 1 ks)
      as Hb. rewrite Z.mul_1_l in Hb. apply Hb. intros k Hk.
    rewrite hour_count_exact by done. specialize (Hne k Hk).
    unfold len. destruct (hour_logs k logs); [done|simpl length; lia].
  - rewrite wrap_sum_with. f_equal.
    apply (sum_with_classes hourKey Filesize ks logs Hnd Hin).
  - intros Hpos Hfit. change (sum_sizes logs) with (sum_with Filesize logs) in *.
    rewrite <- (sum_with_classes hourKey Filesize ks logs Hnd Hin).
    apply sum_with_ext. intros k _.
    change (sum_sizes (hour_logs k logs))
      with (sum_with Filesize (filter (fun l => hourKey l = k) logs)).
    apply wrap_in_range.
    pose proof (sum_with_filter_le Filesize (fun l => hourKey l = k) logs) as Hb.
    rewrite Forall_forall in Hpos. specialize (Hb Hpos).
    unfold Int64.in_range, Int64.min_int64. lia.
Qed.

Lemma aggregateByHour_conserves_witness :
  foldr Z.add 0 (point_Count <$> two_hour_buckets) = len three_in_two_hours
  /\ len two_hour_buckets <= len three_in_two_hours
  /\ Int64.wrap (foldr Z.add 0 (point_TotalSize <$> two_hour_buckets))
     = Int64.wrap (sum_sizes three_in_two_hours)
  /\ (Forall (fun l => 0 <= Filesize l) three_in_two_hours ->
      sum_sizes three_in_two_hours <= Int64.max_int64 ->
      foldr Z.add 0 (point_TotalSize <$> two_hour_buckets)
      = sum_sizes three_in_two_hours).
Proof.
  apply (aggregateByHour_conserves three_in_two_hours two_hour_buckets).
  - vm_compute. discriminate.
  - unfold aggregateByHour.
    replace (point_of <$> map_to_list (hourMap_of three_in_two_hours))
      with (reverse two_hour_buckets) by (vm_compute; reflexivity).
    apply Permutation_swap.
Defined.

(* ===================================================================== *)
(** * The endpoints of the dashboard *)
(* ===================================================================== *)



Lemma wrap_once_below x :
  - 2 ^ 64 - 2 ^ 63 <= x < - 2 ^ 63 -> Int64.wrap x = x + 2 ^ 64.
Proof.
  intros Hx. unfold Int64.wrap, Int64.modulus.
  replace (x + 2 ^ 63) with (x + 2 ^ 63 + 2 ^ 64 + (-1) * 2 ^ 64) by lia.
  rewrite Z_mod_plus_full, Z.mod_small by lia. lia.
Qed.




Lemma timeseries_start_wrapped now hours :
  max_duration_hours < hours <= max_wrapped_hours ->
  abs_ns now < abs_ns (timeseries_start now hours).
Proof.
  intros Hh. unfold timeseries_start, max_duration_hours, max_wrapped_hours, Add in *.
  rewrite (wrap_in_range (- hours))
    by (unfold Int64.in_range, Int64.min_int64, Int64.max_int64; lia).
  rewrite wrap_once_below
    by (unfold Hour, Minute, Second, Nanosecond; lia).
  cbn [abs_ns]. unfold Hour, Minute, Second, Nanosecond. lia.
Qed.




(** When the number of hours asked of the time-series endpoint is
    between 2562048 and 5124095, the product [-hours * time.Hour] wraps
    around to a positive duration: the window starts after it ends, and
    the answer carries no bucket, whatever the store holds. *)
Theorem charts_timeseries_overflow (c : SQLiteController) (now : Time)
    (r : Request) (w : ResponseWriter) :
  closed (db c) = false ->
  max_duration_hours < timeseries_hours r <= max_wrapped_hours ->
  charts_timeseries c now r w ->
  abs_ns now < abs_ns (timeseries_start now (timeseries_hours r))
  /\ w = sendSuccessResponse (TimeSeries []).
Proof.
  intros Hc Hh. pose proof (timeseries_start_wrapped now _ Hh) as Hstart.
  unfold charts_timeseries. cbv zeta.
  rewrite QueryByTimeRange_open_controller by done.
  set (start := timeseries_start now (timeseries_hours r)) in *.
  assert (Hnil : filter (in_window start now) (table c) = []).
  { induction (table c) as [|row rows IH]; [done|].
    rewrite filter_cons, decide_False; [done|]. unfold in_window. lia. }
  rewrite Hnil. intros (points & Hagg & ->). split; [done|].
  unfold aggregateByHour, hourMap_of in Hagg. cbn [order_by foldr fold_left] in Hagg.
  rewrite map_to_list_empty in Hagg. apply Permutation_nil_r in Hagg. by subst.
Qed.

Lemma charts_timeseries_overflow_witness :
  abs_ns (Date 2024 1 1 12 0 0 0)
    < abs_ns (timeseries_start (Date 2024 1 1 12 0 0 0)
                (timeseries_hours (timeseries_request "2562048")))
  /\ sendSuccessResponse (TimeSeries []) = sendSuccessResponse (TimeSeries []).
Proof.
  apply (charts_timeseries_overflow (opened three_in_two_hours 3)
           (Date 2024 1 1 12 0 0 0) (timeseries_request "2562048")
           (sendSuccessResponse (TimeSeries []))).
  - reflexivity.
  - vm_compute. split; [reflexivity|discriminate].
  - unfold charts_timeseries. cbv zeta.
    replace (timeseries_hours (timeseries_request "2562048")) with 2562048
      by (vm_compute; reflexivity).
    replace (QueryByTimeRange (opened three_in_two_hours 3)
               (timeseries_start (Date 2024 1 1 12 0 0 0) 2562048)
               (Date 2024 1 1 12 0 0 0))
      with (@nil LogSize, @None error) by (vm_compute; reflexivity).
    exists []. split; [|reflexivity].
    unfold aggregateByHour. vm_compute. constructor.
Defined.

(* ===================================================================== *)
(** * From the ingestion endpoint to the dashboard *)
(* ===================================================================== *)

(** On a store that is open and has row ids to spare, serving requests
    is inserting the sizes of the accepted ones. *)
Lemma serve_all_insert_all requests : forall c c' ws,
  closed (db c) = false -> last_rowid c + len requests <= Int64.max_int64 ->
  serve_all c requests = (c', ws) ->
  insert_all c (accepted requests) = (c', None).
Proof.
  induction requests as [|[now r] requests IH]; intros c c' ws Hc Hroom; simpl.
  - by intros [= <- <-].
  - assert (Hl : len ((now, r) :: requests) = 1 + len requests)
      by (unfold len; simpl length; lia).
    assert (Hge : 0 <= len requests) by (unfold len; lia).
    destruct (makeIngestionHandler c now r) as [c1 w] eqn:Hh.
    destruct (serve_all c1 requests) as [c2 ws'] eqn:Hrest. intros [= <- <-].
    unfold accepted. cbn [omap list_omap]. fold (accepted requests).
    destruct (accepted_size r) as [size|] eqn:Hacc; simpl.
    + rewrite (makeIngestionHandler_accepted _ _ _ _ Hacc) in Hh.
      rewrite (InsertLogSize_open c now size) in Hh |- * by (done || lia).
      injection Hh as <- <-. apply (IH _ _ ws'); [done| |done].
      unfold last_rowid, table, opened. cbn [db sqlite_sequence log_sizes].
      rewrite largest_rowid_snoc. cbn [ID]. fold (table c). fold (last_rowid c).
      unfold last_rowid in *. lia.
    + destruct (makeIngestionHandler_rejected c now r Hacc) as (w' & Hh' & _).
      rewrite Hh in Hh'. injection Hh' as -> <-.
      apply (IH _ _ ws'); [done|lia|done].
Qed.

(** What the ingestion endpoint leaves in a fresh store. *)
Lemma serve_all_fresh requests c' ws :
  serve_all NewSQLiteController requests = (c', ws) ->
  len requests <= Int64.max_int64 ->
  exists logs,
    GetAll c' = (logs, None)
    /\ map (fun row => (Timestamp row, Filesize row)) logs = accepted requests
    /\ Forall (fun row => 0 < Filesize row) logs
    /\ length logs = length (filter (fun w => rec_Code w = 200) ws)
    /\ len logs <= len requests.
Proof.
  intros Hrun Hlen.
  assert (Hins : insert_all NewSQLiteController (accepted requests) = (c', None)).
  { apply (serve_all_insert_all requests NewSQLiteController c' ws);
      [reflexivity | | exact Hrun].
    change (last_rowid NewSQLiteController) with 0. lia. }
  destruct (insert_all_success (accepted requests) NewSQLiteController c')
    as (new & Ht & Hc' & Hs' & Hcalls & _);
    [reflexivity | apply SSorted_nil | exact Hins |].
  destruct (serve_all_table _ _ _ _ Hrun) as (Hws & new' & Ht' & Hpos & Hn & _).
  change (table NewSQLiteController) with (@nil LogSize) in Ht, Ht'.
  rewrite !app_nil_l in Ht, Ht'. rewrite Ht in Ht'. subst new'.
  exists new. rewrite GetAll_open by done. rewrite Ht.
  split; [done|]. split; [done|]. split; [done|]. split; [done|].
  unfold len. rewrite Hn. pose proof (length_filter (fun w => rec_Code w = 200) ws).
  lia.
Qed.

(** After any run of requests on the ingestion endpoint of a fresh
    store, none with a body of [2^63 - 1] bytes, the breakdown endpoint
    answers with six rows whose counts add up to the number of requests
    answered 200: every ingested observation is counted in exactly one
    range. *)
Theorem charts_breakdown_after_ingestion (requests : list (Time * Request))
    (c' : SQLiteController) (ws : list ResponseRecorder) :
  serve_all NewSQLiteController requests = (c', ws) ->
  len requests <= Int64.max_int64 ->
  Forall (fun call => call.2 < Int64.max_int64) (accepted requests) ->
  exists rows,
    charts_breakdown c' = Returns (sendSuccessResponse (Breakdown rows))
    /\ length rows = 6%nat
    /\ foldr Z.add 0 (breakdown_Count <$> rows)
       = len (filter (fun w => rec_Code w = 200) ws).
Proof.
  intros Hrun Hlen Hsmall.
  destruct (serve_all_fresh _ _ _ Hrun Hlen) as (logs & Hall & Hmap & Hpos & Hn & Hle).
  assert (Hsizes : Forall (fun l => 0 <= Filesize l < Int64.max_int64) logs).
  { rewrite <- Hmap in Hsmall. rewrite Forall_fmap in Hsmall.
    rewrite Forall_forall in Hsmall, Hpos |- *. intros l Hl.
    specialize (Hsmall l Hl). specialize (Hpos l Hl). simpl in Hsmall. lia. }
  destruct (calculateSizeBreakdown_classifies logs ltac:(lia) Hsizes)
    as (rows & Hrows & Hcounts & Hsum & _).
  exists rows. unfold charts_breakdown. rewrite Hall, Hrows.
  split; [done|]. split.
  - apply (f_equal length) in Hcounts. by rewrite length_fmap in Hcounts.
  - rewrite Hsum. unfold len. by rewrite Hn.
Qed.

Lemma charts_breakdown_after_ingestion_witness :
  exists rows,
    charts_breakdown (serve_all NewSQLiteController test_requests).1
      = Returns (sendSuccessResponse (Breakdown rows))
    /\ length rows = 6%nat
    /\ foldr Z.add 0 (breakdown_Count <$> rows)
       = len (filter (fun w => rec_Code w = 200)
                (serve_all NewSQLiteController test_requests).2).
Proof.
  apply (charts_breakdown_after_ingestion test_requests
           (serve_all NewSQLiteController test_requests).1
           (serve_all NewSQLiteController test_requests).2).
  - vm_compute. reflexivity.
  - vm_compute. discriminate.
  - apply (bool_decide_unpack _). vm_compute. exact I.
Defined.

(** The numbers of the summary of a non-empty slice. *)
Lemma calculateStats_numbers first rest :
  let logs := first :: rest in
  exists st,
    calculateStats logs = Returns st
    /\ TotalRecords st = Int64.wrap (len logs)
    /\ TotalSize st = Int64.wrap (sum_sizes logs)
    /\ AverageSize st = div (of_int (TotalSize st)) (of_int (len logs))
    /\ (forall y, y ∈ logs -> MinSize st <= Filesize y <= MaxSize st)
    /\ (exists x, x ∈ logs /\ Filesize x = MinSize st)
    /\ (exists x, x ∈ logs /\ Filesize x = MaxSize st).
Proof.
  cbv zeta. rewrite calculateStats_nonempty. cbv zeta. set (logs := first :: rest).
  set (v0 := mkVars 0 (Filesize first) (Filesize first) GoTime.zero).
  set (v := fold_left stats_step logs v0).
  eexists. split; [reflexivity|].
  cbn [TotalRecords TotalSize AverageSize MinSize MaxSize].
  assert (Hfirst : first ∈ logs) by (by left).
  destruct (stats_min logs v0) as (_ & Hmin & Hminex).
  destruct (stats_max logs v0) as (_ & Hmax & Hmaxex).
  fold v in Hmin, Hminex, Hmax, Hmaxex. simpl in Hminex, Hmaxex.
  split; [done|]. split; [unfold v; by rewrite stats_total|]. split; [done|].
  split; [|split].
  - intros y Hy. specialize (Hmin y Hy). specialize (Hmax y Hy). lia.
  - destruct Hminex as [Heq|(x & Hx & Heq)]; [by exists first | by exists x].
  - destruct Hmaxex as [Heq|(x & Hx & Heq)]; [by exists first | by exists x].
Qed.

Lemma sum_sizes_fmap logs : sum_sizes logs = sum_with id (Filesize <$> logs).
Proof. by rewrite sum_with_fmap. Qed.

(** The numbers of the summary depend on the sizes only, not on their
    order, nor on ids and timestamps: two slices with the same sizes,
    each as often, get the same count, total, average, minimum and
    maximum. *)
Theorem calculateStats_order_independent (logs logs' : list LogSize) :
  Filesize <$> logs ≡ₚ Filesize <$> logs' ->
  exists st st',
    calculateStats logs = Returns st
    /\ calculateStats logs' = Returns st'
    /\ TotalRecords st = TotalRecords st'
    /\ TotalSize st = TotalSize st'
    /\ AverageSize st = AverageSize st'
    /\ MinSize st = MinSize st'
    /\ MaxSize st = MaxSize st'.
Proof.
  intros Hp.
  assert (Hlen : len logs = len logs').
  { unfold len. apply Permutation_length in Hp. rewrite !length_fmap in Hp. lia. }
  assert (Hsum : sum_sizes logs = sum_sizes logs')
    by (rewrite !sum_sizes_fmap; by apply sum_with_perm).
  assert (Hmem : forall s, (exists x, x ∈ logs /\ Filesize x = s)
                        <-> (exists x, x ∈ logs' /\ Filesize x = s)).
  { intros s. split; intros (x & Hx & Hs).
    - assert (s ∈ Filesize <$> logs') as Hin
        by (rewrite <- Hp; apply list_elem_of_fmap; by exists x).
      apply list_elem_of_fmap in Hin as (y & -> & Hy). by exists y.
    - assert (s ∈ Filesize <$> logs) as Hin
        by (rewrite Hp; apply list_elem_of_fmap; by exists x).
      apply list_elem_of_fmap in Hin as (y & -> & Hy). by exists y. }
  destruct logs as [|a l], logs' as [|a' l'];
    try (unfold len in Hlen; simpl in Hlen; lia).
  - by exists zero_stats, zero_stats.
  - destruct (calculateStats_numbers a l) as (st & Hst & Hn & Ht & Ha & Hb & Hlo & Hhi).
    destruct (calculateStats_numbers a' l')
      as (st' & Hst' & Hn' & Ht' & Ha' & Hb' & Hlo' & Hhi').
    cbv zeta in *. exists st, st'. split; [done|]. split; [done|].
    split; [by rewrite Hn, Hn', Hlen|].
    assert (Htot : TotalSize st = TotalSize st') by (by rewrite Ht, Ht', Hsum).
    split; [done|]. split; [by rewrite Ha, Ha', Htot, Hlen|].
    apply Hmem in Hlo as (x1 & Hx1 & E1), Hhi as (x2 & Hx2 & E2).
    apply Hmem in Hlo' as (y1 & Hy1 & E3), Hhi' as (y2 & Hy2 & E4).
    pose proof (Hb _ Hy1). pose proof (Hb _ Hy2).
    pose proof (Hb' _ Hx1). pose proof (Hb' _ Hx2). lia.
Qed.

Lemma calculateStats_order_independent_witness :
  exists st st',
    calculateStats sizes_1000_2000_3000 = Returns st
    /\ calculateStats (reverse sizes_1000_2000_3000) = Returns st'
    /\ TotalRecords st = TotalRecords st'
    /\ TotalSize st = TotalSize st'
    /\ AverageSize st = AverageSize st'
    /\ MinSize st = MinSize st'
    /\ MaxSize st = MaxSize st'.
Proof.
  apply (calculateStats_order_independent sizes_1000_2000_3000
           (reverse sizes_1000_2000_3000)).
  rewrite fmap_reverse. symmetry. apply reverse_Permutation.
Defined.

Lemma hits_fmap j logs :
  hits j logs = len (filter (fun s => range_index s = Some j) (Filesize <$> logs)).
Proof.
  unfold hits, len. induction logs as [|x logs IH]; [done|].
  rewrite fmap_cons, !filter_cons. case_decide; simpl length; lia.
Qed.

(** The size breakdown depends on the sizes only, not on their order,
    nor on ids and timestamps. *)
Theorem calculateSizeBreakdown_order_independent (logs logs' : list LogSize) :
  Filesize <$> logs ≡ₚ Filesize <$> logs' ->
  calculateSizeBreakdown logs = calculateSizeBreakdown logs'.
Proof.
  intros Hp. rewrite !calculateSizeBreakdown_rows.
  assert (Hlen : len logs = len logs').
  { unfold len. apply Permutation_length in Hp. rewrite !length_fmap in Hp. lia. }
  assert (Hhits : forall j, hits j logs = hits j logs').
  { intros j. rewrite !hits_fmap. unfold len. by rewrite Hp. }
  f_equal. apply imap_ext. intros j r _. cbv zeta. by rewrite Hhits, Hlen.
Qed.

Lemma calculateSizeBreakdown_order_independent_witness :
  calculateSizeBreakdown one_per_range
  = calculateSizeBreakdown (reverse one_per_range).
Proof.
  apply (calculateSizeBreakdown_order_independent one_per_range
           (reverse one_per_range)).
  rewrite fmap_reverse. symmetry. apply reverse_Permutation.
Defined.

(** The average of the summary is the exact average up to rounding:
    when the sum of the sizes is positive and fits 64 bits, the two
    differ by at most [2^-51] of the exact average. *)
Theorem calculateStats_average_accuracy (logs : list LogSize) :
  len logs <= Int64.max_int64 ->
  0 < sum_sizes logs <= Int64.max_int64 ->
  exists st q,
    calculateStats logs = Returns st
    /\ to_Q (AverageSize st) = Some q
    /\ (Qabs (q - inject_Z (sum_sizes logs) / inject_Z (len logs))
        <= average_error * (inject_Z (sum_sizes logs) / inject_Z (len logs)))%Q.
Proof.
  intros Hlen Hsum. destruct logs as [|first rest]; [simpl in Hsum; lia|].
  destruct (calculateStats_numbers first rest)
    as (st & Hst & _ & Ht & Ha & _). cbv zeta in *.
  set (logs := first :: rest) in *.
  assert (Hn : 0 < len logs) by (unfold len, logs; simpl length; lia).
  rewrite wrap_in_range in Ht
    by (unfold Int64.in_range, Int64.min_int64, Int64.max_int64 in *; lia).
  rewrite Ht in Ha. unfold Int64.max_int64 in *.
  destruct (of_int_Q (sum_sizes logs)) as (ma & ea & Hfa & Hda & Hea & HA); [lia|].
  destruct (of_int_Q (len logs)) as (mb & eb & Hfb & Hdb & Heb & HB); [lia|].
  rewrite Hfa, Hfb in Ha.
  destruct (div_Q ma ea mb eb) as (mr & er & Hfr & Hdr & Her & HR);
    [done|done|lia|lia|].
  rewrite Hfr in Ha. exists st, (valQ (Z.pos mr) er).
  split; [done|]. split; [by rewrite Ha|]. cbv zeta in HR.
  set (A := valQ (Z.pos ma) ea) in *. set (B := valQ (Z.pos mb) eb) in *.
  set (R := valQ (Z.pos mr) er) in *.
  set (sq := inject_Z (sum_sizes logs)) in *. set (nq := inject_Z (len logs)) in *.
  assert (Hsq : (0 < sq)%Q) by (unfold sq; rewrite <- (Zlt_Qlt 0); lia).
  assert (Hnq : (0 < nq)%Q) by (unfold nq; rewrite <- (Zlt_Qlt 0); lia).
  unfold roundoff in *. change (2 ^ 53)%positive with 9007199254740992%positive in *.
  assert (Hup : (A / B <= ((1 + (1 # 9007199254740992)) * sq)
                          / ((1 - (1 # 9007199254740992)) * nq))%Q).
  { apply Qdiv_le_mono; lra. }
  assert (Hdn : (((1 - (1 # 9007199254740992)) * sq)
                   / ((1 + (1 # 9007199254740992)) * nq) <= A / B)%Q).
  { apply Qdiv_le_mono; lra. }
  set (X := (A / B)%Q) in *. set (rho := (sq / nq)%Q).
  assert (Hup' : (((1 + (1 # 9007199254740992)) * sq)
                    / ((1 - (1 # 9007199254740992)) * nq)
                  == (9007199254740993 # 9007199254740991) * rho)%Q)
    by (unfold rho; field; lra).
  assert (Hdn' : (((1 - (1 # 9007199254740992)) * sq)
                    / ((1 + (1 # 9007199254740992)) * nq)
                  == (9007199254740991 # 9007199254740993) * rho)%Q)
    by (unfold rho; field; lra).
  rewrite Hup' in Hup. rewrite Hdn' in Hdn.
  unfold average_error. change (2 ^ 51)%positive with 2251799813685248%positive.
  assert (Hrho : (0 < rho)%Q).
  { unfold rho. apply Qlt_shift_div_l; lra. }
  apply Qabs_Qle_condition. split; lra.
Qed.

Lemma calculateStats_average_accuracy_witness :
  exists st q,
    calculateStats sizes_1000_2000_3000 = Returns st
    /\ to_Q (AverageSize st) = Some q
    /\ (Qabs (q - inject_Z (sum_sizes sizes_1000_2000_3000)
                  / inject_Z (len sizes_1000_2000_3000))
        <= average_error * (inject_Z (sum_sizes sizes_1000_2000_3000)
                            / inject_Z (len sizes_1000_2000_3000)))%Q.
Proof.
  apply (calculateStats_average_accuracy sizes_1000_2000_3000).
  - vm_compute. discriminate.
  - vm_compute. split; [reflexivity|discriminate].
Defined.

Lemma serve_all_positive_sizes_witness :
  length (serve_all NewSQLiteController test_requests).2 = length test_requests
  /\ exists new,
       table (serve_all NewSQLiteController test_requests).1
         = table NewSQLiteController ++ new
       /\ Forall (fun row => 0 < Filesize row) new
       /\ length new
          = length (filter (fun w => rec_Code w = 200)
                      (serve_all NewSQLiteController test_requests).2)
       /\ (closed (db NewSQLiteController) = false ->
           last_rowid NewSQLiteController + len test_requests <= Int64.max_int64 ->
           map (fun row => (Timestamp row, Filesize row)) new
             = accepted test_requests
           /\ Forall (fun w => rec_Code w <> 500)
                (serve_all NewSQLiteController test_requests).2).
Proof.
  apply (serve_all_positive_sizes NewSQLiteController
           (serve_all NewSQLiteController test_requests).1 test_requests
           (serve_all NewSQLiteController test_requests).2).
  vm_compute. reflexivity.
Defined.

(** After any run of requests on the ingestion endpoint of a fresh
    store, the summary endpoint answers with as many records as requests
    were answered 200 and with the total of the sizes of their bodies,
    in 64-bit arithmetic; when a request was answered 200, the minimum
    and the maximum are sizes of accepted bodies, positive, and bound
    all of them; when none was, the summary is the zero value. *)
Theorem stats_summary_after_ingestion (requests : list (Time * Request))
    (c' : SQLiteController) (ws : list ResponseRecorder) :
  serve_all NewSQLiteController requests = (c', ws) ->
  len requests <= Int64.max_int64 ->
  exists st,
    stats_summary c' = Returns (sendSuccessResponse (Stats st))
    /\ TotalRecords st = len (filter (fun w => rec_Code w = 200) ws)
    /\ TotalSize st = Int64.wrap (sum_with snd (accepted requests))
    /\ (Exists (fun w => rec_Code w = 200) ws ->
        0 < MinSize st <= MaxSize st
        /\ MinSize st ∈ (accepted requests).*2
        /\ MaxSize st ∈ (accepted requests).*2
        /\ forall s, s ∈ (accepted requests).*2 -> MinSize st <= s <= MaxSize st)
    /\ (Forall (fun w => rec_Code w <> 200) ws -> st = zero_stats).
Proof.
  intros Hrun Hlen.
  destruct (serve_all_fresh _ _ _ Hrun Hlen) as (logs & Hall & Hmap & Hpos & Hn & Hle).
  assert (Hsizes : (accepted requests).*2 = Filesize <$> logs).
  { rewrite <- Hmap. rewrite <- list_fmap_compose. done. }
  assert (Hsum : sum_with snd (accepted requests) = sum_sizes logs).
  { rewrite <- Hmap. by rewrite sum_with_fmap. }
  unfold stats_summary. rewrite Hall.
  destruct logs as [|first rest].
  - exists zero_stats. split; [done|].
    destruct (filter (fun w => rec_Code w = 200) ws) as [|w200 ws200] eqn:Hf;
      [|done].
    split; [done|]. split; [by rewrite Hsum|]. split; [|done].
    intros Hex. apply Exists_exists in Hex as (w & Hw & H200).
    assert (w ∈ filter (fun w => rec_Code w = 200) ws) as Hin
      by (by apply list_elem_of_filter).
    rewrite Hf in Hin. by apply elem_of_nil in Hin.
  - destruct (calculateStats_numbers first rest)
      as (st & Hst & Hrec & Ht & _ & Hb & (lo & Hlo & Elo) & (hi & Hhi & Ehi)).
    cbv zeta in *. set (logs := first :: rest) in *.
    exists st. rewrite Hst. split; [done|]. split.
    { rewrite Hrec, wrap_in_range
        by (unfold Int64.in_range, Int64.min_int64, len in *; lia).
      unfold len. by rewrite Hn. }
    split; [by rewrite Ht, Hsum|]. split.
    + intros _. rewrite Hsizes. rewrite Forall_forall in Hpos.
      pose proof (Hpos lo Hlo). pose proof (Hb hi Hhi).
      split; [lia|]. split; [|split].
      * rewrite <- Elo. apply list_elem_of_fmap. by exists lo.
      * rewrite <- Ehi. apply list_elem_of_fmap. by exists hi.
      * intros s Hs. apply list_elem_of_fmap in Hs as (y & -> & Hy). by apply Hb.
    + intros Hnone. exfalso.
      assert (Hf : filter (fun w => rec_Code w = 200) ws = []).
      { clear -Hnone. induction Hnone as [|w ws Hw _ IH]; [done|].
        by rewrite filter_cons, decide_False. }
      rewrite Hf in Hn. done.
Qed.

Lemma stats_summary_after_ingestion_witness :
  exists st,
    stats_summary (serve_all NewSQLiteController test_requests).1
      = Returns (sendSuccessResponse (Stats st))
    /\ TotalRecords st
       = len (filter (fun w => rec_Code w = 200)
                (serve_all NewSQLiteController test_requests).2)
    /\ TotalSize st = Int64.wrap (sum_with snd (accepted test_requests))
    /\ (Exists (fun w => rec_Code w = 200)
          (serve_all NewSQLiteController test_requests).2 ->
        0 < MinSize st <= MaxSize st
        /\ MinSize st ∈ (accepted test_requests).*2
        /\ MaxSize st ∈ (accepted test_requests).*2
        /\ forall s, s ∈ (accepted test_requests).*2 ->
             MinSize st <= s <= MaxSize st)
    /\ (Forall (fun w => rec_Code w <> 200)
          (serve_all NewSQLiteController test_requests).2 -> st = zero_stats).
Proof.
  apply (stats_summary_after_ingestion test_requests
           (serve_all NewSQLiteController test_requests).1
           (serve_all NewSQLiteController test_requests).2).
  - vm_compute. reflexivity.
  - vm_compute. discriminate.
Defined.

(* ===================================================================== *)
(** * [calculateStats]: the timestamp of the summary *)
(* ===================================================================== *)

(** The timestamp the loop of [calculateStats] ends with. *)
Lemma calculateStats_lastUpdated first rest :
  let logs := first :: rest in
  exists st u,
    calculateStats logs = Returns st
    /\ LastUpdated st = Format_RFC3339 u
    /\ (forall y, y ∈ logs -> abs_ns (Timestamp y) <= abs_ns u)
    /\ (abs_ns u <= 0 -> u = GoTime.zero)
    /\ (0 < abs_ns u -> exists x, x ∈ logs /\ u = Timestamp x).
Proof.
  cbv zeta. rewrite calculateStats_nonempty. cbv zeta. set (logs := first :: rest).
  set (v0 := mkVars 0 (Filesize first) (Filesize first) GoTime.zero).
  destruct (stats_lastUpdated logs v0) as (_ & Hall & Hsame & Hex).
  simpl in Hsame, Hex.
  do 2 eexists. split; [reflexivity|]. split; [reflexivity|].
  split; [exact Hall|]. split; [exact Hsame|].
  intros Hpos. destruct (Hex Hpos) as (i & x & (Hi & _) & Hu).
  exists x. split; [|done]. by eapply list_elem_of_lookup_2.
Qed.

(** When no observation of a non-empty slice is later than the zero
    time, the summary carries the text of the zero time, not that of an
    observation. *)
Theorem calculateStats_zero_time (logs : list LogSize) :
  logs <> [] ->
  Forall (fun l => abs_ns (Timestamp l) <= 0) logs ->
  exists st,
    calculateStats logs = Returns st
    /\ LastUpdated st = "0001-01-01T00:00:00Z"%string.
Proof.
  intros Hne Hall. destruct logs as [|first rest]; [done|].
  destruct (calculateStats_lastUpdated first rest)
    as (st & u & Hst & Hu & _ & Hzero & Hpos). cbv zeta in *.
  exists st. split; [done|]. rewrite Hu.
  destruct (Z_lt_le_dec 0 (abs_ns u)) as [Hlt|Hle].
  - destruct (Hpos Hlt) as (x & Hx & ->). rewrite Forall_forall in Hall.
    specialize (Hall x Hx). lia.
  - rewrite (Hzero Hle). reflexivity.
Qed.

Lemma calculateStats_zero_time_witness :
  exists st,
    calculateStats [mkLogSize 1 GoTime.zero 100; mkLogSize 2 GoTime.zero 200]
      = Returns st
    /\ LastUpdated st = "0001-01-01T00:00:00Z"%string.
Proof.
  apply (calculateStats_zero_time
           [mkLogSize 1 GoTime.zero 100; mkLogSize 2 GoTime.zero 200]).
  - discriminate.
  - repeat constructor; vm_compute; discriminate.
Defined.

(** The timestamp of the summary does not depend on the order of the
    observations either, as long as the observations with the latest
    instant show it in one zone: two slices with the same observations
    get the same text. *)
Theorem calculateStats_lastUpdated_order_independent (logs logs' : list LogSize) :
  logs ≡ₚ logs' ->
  (forall x y, x ∈ logs -> y ∈ logs ->
     abs_ns (Timestamp x) = abs_ns (Timestamp y) ->
     (forall z, z ∈ logs -> abs_ns (Timestamp z) <= abs_ns (Timestamp x)) ->
     Timestamp x = Timestamp y) ->
  exists st st',
    calculateStats logs = Returns st
    /\ calculateStats logs' = Returns st'
    /\ LastUpdated st = LastUpdated st'.
Proof.
  intros Hp Hzone.
  destruct logs as [|a l], logs' as [|a' l'].
  - by exists zero_stats, zero_stats.
  - by apply Permutation_nil_cons in Hp.
  - symmetry in Hp. by apply Permutation_nil_cons in Hp.
  - destruct (calculateStats_lastUpdated a l) as (st & u & Hst & Hu & Hmax & Hz & Hx).
    destruct (calculateStats_lastUpdated a' l')
      as (st' & u' & Hst' & Hu' & Hmax' & Hz' & Hx').
    cbv zeta in *. set (logs := a :: l) in *. set (logs' := a' :: l') in *.
    exists st, st'. split; [done|]. split; [done|]. rewrite Hu, Hu'. f_equal.
    destruct (Z_lt_le_dec 0 (abs_ns u)) as [Hlt|Hle],
             (Z_lt_le_dec 0 (abs_ns u')) as [Hlt'|Hle'].
    + destruct (Hx Hlt) as (x & Hxin & ->). destruct (Hx' Hlt') as (y & Hyin & ->).
      assert (Hy : y ∈ logs) by (by rewrite Hp).
      assert (Hx2 : x ∈ logs') by (by rewrite <- Hp).
      pose proof (Hmax y Hy). pose proof (Hmax' x Hx2).
      apply Hzone; [done|done|lia|done].
    + destruct (Hx Hlt) as (x & Hxin & ->).
      assert (Hx2 : x ∈ logs') by (by rewrite <- Hp).
      pose proof (Hmax' x Hx2). lia.
    + destruct (Hx' Hlt') as (y & Hyin & ->).
      assert (Hy : y ∈ logs) by (by rewrite Hp).
      pose proof (Hmax y Hy). lia.
    + by rewrite (Hz Hle), (Hz' Hle').
Qed.

Lemma calculateStats_lastUpdated_order_independent_witness :
  exists st st',
    calculateStats sizes_1000_2000_3000 = Returns st
    /\ calculateStats (reverse sizes_1000_2000_3000) = Returns st'
    /\ LastUpdated st = LastUpdated st'.
Proof.
  apply (calculateStats_lastUpdated_order_independent sizes_1000_2000_3000
           (reverse sizes_1000_2000_3000)).
  - symmetry. apply reverse_Permutation.
  - intros x y Hx Hy Heq _. revert Heq.
    repeat (apply elem_of_cons in Hx as [->|Hx]);
      [ | | | by apply elem_of_nil in Hx];
      repeat (apply elem_of_cons in Hy as [->|Hy]);
      try (by apply elem_of_nil in Hy); vm_compute; congruence.
Defined.

(* ===================================================================== *)
(** * [calculateSizeBreakdown]: the percentages add up *)
(* ===================================================================== *)

(** When every size lies in some range, that is, is not negative and
    not the largest 64-bit integer, the exact values of the six
    percentages of a non-empty slice add up to 100 up to rounding: the
    sum is within [2^-50] of 100, relatively. *)
Theorem calculateSizeBreakdown_percentages_total (logs : list LogSize) :
  logs <> [] ->
  len logs <= Int64.max_int64 ->
  Forall (fun l => 0 <= Filesize l < Int64.max_int64) logs ->
  exists rows qs,
    calculateSizeBreakdown logs = Returns rows
    /\ Forall2 (fun row q => to_Q (Percentage row) = Some q) rows qs
    /\ (Qabs (foldr Qplus 0 qs - 100) <= percent_error * 100)%Q.
Proof.
  intros Hne Hlen Hall.
  pose proof (hits_partition logs) as Hpart. rewrite (misses_none logs Hall) in Hpart.
  assert (Ht : 0 < len logs < 2 ^ 63).
  { unfold Int64.max_int64 in Hlen. split; [|lia].
    unfold len. destruct logs; [done|simpl length; lia]. }
  eexists. rewrite calculateSizeBreakdown_written_out by done.
  set (t := len logs) in *.
  assert (Hrow : forall j, exists q,
            to_Q (percentage_of (hits j logs) t) = Some q
            /\ (Qabs (q - 100 * inject_Z (hits j logs) / inject_Z t)
                <= percent_error * (100 * inject_Z (hits j logs) / inject_Z t))%Q).
  { intros j. destruct (percentage_of_spec (hits j logs) t) as [_ Hs];
      [apply hits_bounds|lia|]. destruct (Hs ltac:(lia)) as (_ & q & Hq & Hb).
    by exists q. }
  destruct (Hrow 0%nat) as (q0 & Hq0 & Hb0). destruct (Hrow 1%nat) as (q1 & Hq1 & Hb1).
  destruct (Hrow 2%nat) as (q2 & Hq2 & Hb2). destruct (Hrow 3%nat) as (q3 & Hq3 & Hb3).
  destruct (Hrow 4%nat) as (q4 & Hq4 & Hb4). destruct (Hrow 5%nat) as (q5 & Hq5 & Hb5).
  exists [q0; q1; q2; q3; q4; q5]. split; [reflexivity|].
  split; [unfold breakdown_row; by repeat constructor|].
  cbn [foldr].
  assert (Htq : (0 < inject_Z t)%Q) by (rewrite <- (Zlt_Qlt 0); lia).
  assert (Hsum : (100 * inject_Z (hits 0 logs) / inject_Z t
                  + 100 * inject_Z (hits 1 logs) / inject_Z t
                  + 100 * inject_Z (hits 2 logs) / inject_Z t
                  + 100 * inject_Z (hits 3 logs) / inject_Z t
                  + 100 * inject_Z (hits 4 logs) / inject_Z t
                  + 100 * inject_Z (hits 5 logs) / inject_Z t == 100)%Q).
  { transitivity (100 * inject_Z (hits 0 logs + hits 1 logs + hits 2 logs
                                 + hits 3 logs + hits 4 logs + hits 5 logs)
                  / inject_Z t)%Q.
    - rewrite !inject_Z_plus. field. lra.
    - replace (hits 0 logs + hits 1 logs + hits 2 logs + hits 3 logs
               + hits 4 logs + hits 5 logs) with t by (unfold t; lia).
      field. lra. }
  apply Qabs_Qle_condition in Hb0, Hb1, Hb2, Hb3, Hb4, Hb5.
  set (y0 := (100 * inject_Z (hits 0 logs) / inject_Z t)%Q) in *.
  set (y1 := (100 * inject_Z (hits 1 logs) / inject_Z t)%Q) in *.
  set (y2 := (100 * inject_Z (hits 2 logs) / inject_Z t)%Q) in *.
  set (y3 := (100 * inject_Z (hits 3 logs) / inject_Z t)%Q) in *.
  set (y4 := (100 * inject_Z (hits 4 logs) / inject_Z t)%Q) in *.
  set (y5 := (100 * inject_Z (hits 5 logs) / inject_Z t)%Q) in *.
  unfold percent_error in *.
  change (2 ^ 50)%positive with 1125899906842624%positive in *.
  apply Qabs_Qle_condition. split; lra.
Qed.

Lemma calculateSizeBreakdown_percentages_total_witness :
  exists rows qs,
    calculateSizeBreakdown one_per_range = Returns rows
    /\ Forall2 (fun row q => to_Q (Percentage row) = Some q) rows qs
    /\ (Qabs (foldr Qplus 0 qs - 100) <= percent_error * 100)%Q.
Proof.
  apply (calculateSizeBreakdown_percentages_total one_per_range).
  - discriminate.
  - vm_compute. discriminate.
  - apply (bool_decide_unpack _). vm_compute. exact I.
Defined.

(* ===================================================================== *)
(** * The calendar and the text of a timestamp *)
(* ===================================================================== *)

(** A year has 365 days, and one more when it is a leap year. *)
Lemma days_before_year_succ y :
  days_before_year (y + 1)
  = days_before_year y + 365 + (if is_leap y then 1 else 0).
Proof.
  unfold days_before_year, is_leap. cbv zeta.
  replace (y + 1 - 1) with y by lia.
  destruct (Z.eqb_spec (y mod 4) 0), (Z.eqb_spec (y mod 100) 0),
           (Z.eqb_spec (y mod 400) 0); simpl;
    Z.div_mod_to_equations; lia.
Qed.

(** The year of the 400-year cycle that holds a day of the cycle, both
    counted from March 1, and the day of that year. *)
Lemma year_of_cycle_day doe :
  0 <= doe < 146097 ->
  let yoe := (doe - doe / 1460 + doe / 36524 - doe / 146096) / 365 in
  0 <= yoe <= 399 /\ 0 <= doe - (365 * yoe + yoe / 4 - yoe / 100) <= 365.
Proof. intros H yoe. subst yoe. Z.div_mod_to_equations. lia. Qed.

(** The first day of a year counted in cycles of 400 years. *)
Lemma days_before_year_cycle era yoe :
  0 <= yoe <= 399 ->
  days_before_year (yoe + era * 400 + 1)
  = era * 146097 + 365 * yoe + yoe / 4 - yoe / 100.
Proof.
  intros H. unfold days_before_year. cbv zeta.
  replace (yoe + era * 400 + 1 - 1) with (yoe + era * 400) by lia.
  Z.div_mod_to_equations. lia.
Qed.

(** [civil_of_days] yields a date of the calendar, and the date has the
    day number it was computed from. *)
Lemma civil_of_days_inverse days :
  let '(y, m, d) := civil_of_days days in
  1 <= m <= 12 /\ 1 <= d <= 31 /\ days_of_civil y m d = days.
Proof.
  unfold civil_of_days. cbv zeta.
  set (z := days + 306). set (era := z / 146097).
  set (doe := z - era * 146097).
  assert (Hdoe : 0 <= doe < 146097)
    by (unfold doe, era; Z.div_mod_to_equations; lia).
  destruct (year_of_cycle_day doe Hdoe) as (Hyoe & Hdoy). cbv zeta in Hyoe, Hdoy.
  set (yoe := (doe - doe / 1460 + doe / 36524 - doe / 146096) / 365) in *.
  set (doy := doe - (365 * yoe + yoe / 4 - yoe / 100)) in *.
  set (mp := (5 * doy + 2) / 153).
  assert (Hmp : 0 <= mp <= 11) by (unfold mp; Z.div_mod_to_equations; lia).
  pose proof (days_before_year_cycle era yoe Hyoe) as Hnext.
  pose proof (days_before_year_succ (yoe + era * 400)) as Hsucc.
  rewrite Hnext in Hsucc.
  assert (Hd : 153 * mp <= 5 * doy + 2 < 153 * mp + 153)
    by (unfold mp; Z.div_mod_to_equations; lia).
  assert (Hdays : days = era * 146097 + doe - 306) by (unfold doe, z; lia).
  assert (Hdoe' : doe = doy + (365 * yoe + yoe / 4 - yoe / 100))
    by (unfold doy; lia).
  unfold days_of_civil, days_before_month.
  clearbody mp doy yoe doe era z.
  assert (Hmp' : mp = 0 \/ mp = 1 \/ mp = 2 \/ mp = 3 \/ mp = 4 \/ mp = 5 \/ mp = 6
                \/ mp = 7 \/ mp = 8 \/ mp = 9 \/ mp = 10 \/ mp = 11) by lia.
  destruct Hmp' as [Hm|[Hm|[Hm|[Hm|[Hm|[Hm|[Hm|[Hm|[Hm|[Hm|[Hm|Hm]]]]]]]]]]];
    subst mp;
    match goal with
    | |- context [if ?k <? 10 then ?a else ?b] =>
        let v := eval vm_compute in (if k <? 10 then a else b) in
        change (if k <? 10 then a else b) with v
    end;
    match goal with
    | |- context [nth ?i ?l 0] =>
        let v := eval vm_compute in (nth i l 0) in change (nth i l 0) with v
    end;
    match goal with
    | |- context [(153 * ?k + 2) / 5] =>
        let v := eval vm_compute in ((153 * k + 2) / 5) in
        change ((153 * k + 2) / 5) with v
    end;
    match goal with
    | |- context [?m <=? 2] =>
        let v := eval vm_compute in (m <=? 2) in change (m <=? 2) with v
    end;
    match goal with
    | |- context [2 <? ?m] =>
        let v := eval vm_compute in (2 <? m) in change (2 <? m) with v
    end;
    cbv iota; cbn [andb]; rewrite ?Z.add_0_r;
    try destruct (is_leap (yoe + era * 400)); lia.
Qed.

Lemma days_before_month_bounds y m :
  1 <= m <= 12 -> 0 <= days_before_month y m <= 335.
Proof.
  intros Hm. unfold days_before_month.
  assert (Hm' : m = 1 \/ m = 2 \/ m = 3 \/ m = 4 \/ m = 5 \/ m = 6 \/ m = 7
                \/ m = 8 \/ m = 9 \/ m = 10 \/ m = 11 \/ m = 12) by lia.
  destruct Hm' as [->|[->|[->|[->|[->|[->|[->|[->|[->|[->|[->| ->]]]]]]]]]]];
    destruct (is_leap y); vm_compute; split; discriminate.
Qed.

(** The days of the years 1 to 9999 are those numbered from 0 up to,
    and not including, 3652059. *)
Lemma civil_of_days_year days :
  0 <= days < 3652059 ->
  let '(y, m, d) := civil_of_days days in 1 <= y <= 9999.
Proof.
  intros Hdays. pose proof (civil_of_days_inverse days) as Hinv.
  destruct (civil_of_days days) as [[y m] d]. destruct Hinv as (Hm & Hd & Hinv).
  pose proof (days_before_month_bounds y m Hm) as Hb.
  unfold days_of_civil, days_before_year in Hinv. cbv zeta in Hinv.
  Z.div_mod_to_equations. lia.
Qed.

(** ** Decimal digits *)

Lemma digits_length width : forall n acc,
  String.length (digits width n acc) = (width + String.length acc)%nat.
Proof.
  induction width as [|w IH]; intros n acc; simpl; [done|].
  rewrite IH. simpl. lia.
Qed.

Lemma is_digit_digit n : is_digit (digit n) = true.
Proof.
  unfold is_digit, digit. cbv zeta. rewrite nat_ascii_embedding.
  - pose proof (Z.mod_pos_bound n 10 ltac:(lia)).
    apply andb_true_iff. split; apply Nat.leb_le; lia.
  - pose proof (Z.mod_pos_bound n 10 ltac:(lia)). lia.
Qed.

Lemma digit_value_digit n : digit_value (digit n) = n mod 10.
Proof.
  unfold digit_value, digit. pose proof (Z.mod_pos_bound n 10 ltac:(lia)).
  rewrite nat_ascii_embedding by lia. lia.
Qed.

(** The digit loop of [strconv.Atoi] reads back what [digits] wrote. *)
Lemma atoi_digits_digits width : forall u acc n,
  atoi_digits (digits width u acc) n
  = atoi_digits acc (n * 10 ^ Z.of_nat width + u mod 10 ^ Z.of_nat width).
Proof.
  induction width as [|w IH]; intros u acc n.
  - simpl. rewrite Z.mod_1_r. f_equal. lia.
  - cbn [digits]. rewrite IH. cbn [atoi_digits].
    rewrite is_digit_digit, digit_value_digit. f_equal.
    rewrite Nat2Z.inj_succ, Z.pow_succ_r by lia.
    assert (Hp : 0 < 10 ^ Z.of_nat w) by (apply Z.pow_pos_nonneg; lia).
    rewrite (Z.rem_mul_r u 10 (10 ^ Z.of_nat w)) by lia.
    lia.
Qed.

Lemma count_digits_le fuel : forall u width,
  0 <= u < 10 ^ Z.of_nat width -> (count_digits fuel u <= width)%nat.
Proof.
  induction fuel as [|fuel IH]; intros u width Hu; simpl; [lia|].
  destruct (Z.eqb_spec u 0); [lia|].
  destruct width as [|w]; [simpl in Hu; lia|].
  apply le_n_S, IH. rewrite Nat2Z.inj_succ, Z.pow_succ_r in Hu by lia.
  Z.div_mod_to_equations. lia.
Qed.

(** A number that fits the width is written with exactly that many
    digits. *)
Lemma appendInt_digits x width :
  (1 <= width)%nat -> 0 <= x < 10 ^ Z.of_nat width ->
  appendInt x width = digits width x EmptyString.
Proof.
  intros Hw Hx. unfold appendInt. cbv zeta.
  rewrite Z.abs_eq by lia.
  destruct (Z.ltb_spec x 0); [lia|].
  pose proof (count_digits_le (S (Z.to_nat (Z.log2 x))) x width Hx).
  rewrite Nat.max_l by lia. done.
Qed.

Lemma appendInt_length x width :
  (1 <= width)%nat -> 0 <= x < 10 ^ Z.of_nat width ->
  String.length (appendInt x width) = width.
Proof.
  intros Hw Hx. rewrite appendInt_digits, digits_length by done. simpl. lia.
Qed.

Lemma appendInt_inj x x' width :
  (1 <= width)%nat -> 0 <= x < 10 ^ Z.of_nat width ->
  0 <= x' < 10 ^ Z.of_nat width ->
  appendInt x width = appendInt x' width -> x = x'.
Proof.
  intros Hw Hx Hx' Heq. rewrite !appendInt_digits in Heq by done.
  apply (f_equal (fun s => atoi_digits s 0)) in Heq.
  rewrite !atoi_digits_digits in Heq. simpl in Heq.
  rewrite !Z.mod_small in Heq by done. by injection Heq.
Qed.

Lemma string_app_inj (a a' b b' : string) :
  String.length a = String.length a' ->
  (a ++ b)%string = (a' ++ b')%string -> a = a' /\ b = b'.
Proof.
  revert a'. induction a as [|c a IH]; intros [|c' a'] Hlen Heq; try done.
  simpl in Hlen, Heq. injection Heq as -> Heq. injection Hlen as Hlen.
  destruct (IH a' Hlen Heq) as [-> ->]. done.
Qed.

Lemma string_app_length (a b : string) :
  String.length (a ++ b)%string = (String.length a + String.length b)%nat.
Proof. induction a as [|c a IH]; simpl; [done|]. by rewrite IH. Qed.

(** ** The text of a wall clock *)

(** With a four-digit year the date and time of day take 19 characters. *)
Lemma format_clock_length t :
  four_digit_year t -> String.length (format_clock t) = 19%nat.
Proof.
  intros Ht. unfold four_digit_year in Ht. unfold format_clock. cbv zeta.
  fold (wall_seconds t). set (L := wall_seconds t) in *.
  assert (Hdays : 0 <= L / 86400 < 3652059) by (Z.div_mod_to_equations; lia).
  pose proof (civil_of_days_inverse (L / 86400)) as Hinv.
  pose proof (civil_of_days_year (L / 86400) Hdays) as Hy.
  destruct (civil_of_days (L / 86400)) as [[y m] d]. destruct Hinv as (Hm & Hd & _).
  assert (Hs : 0 <= L mod 86400 < 86400) by (apply Z.mod_pos_bound; lia).
  set (secs := L mod 86400) in *.
  rewrite !string_app_length. cbn [String.length].
  rewrite (appendInt_length y 4), (appendInt_length m 2), (appendInt_length d 2),
    (appendInt_length (secs / 3600) 2), (appendInt_length (secs / 60 mod 60) 2),
    (appendInt_length (secs mod 60) 2);
    first [ reflexivity | lia
          | change (10 ^ Z.of_nat 4) with 10000; lia
          | change (10 ^ Z.of_nat 2) with 100; Z.div_mod_to_equations; lia ].
Qed.

(** Two instants whose wall clocks show a four-digit year and are
    written alike show the same second. *)
Lemma format_clock_injective t1 t2 :
  four_digit_year t1 -> four_digit_year t2 ->
  format_clock t1 = format_clock t2 -> wall_seconds t1 = wall_seconds t2.
Proof.
  intros H1 H2. unfold four_digit_year in H1, H2. unfold format_clock. cbv zeta.
  fold (wall_seconds t1) (wall_seconds t2).
  set (L1 := wall_seconds t1) in *. set (L2 := wall_seconds t2) in *.
  assert (Hdays1 : 0 <= L1 / 86400 < 3652059) by (Z.div_mod_to_equations; lia).
  assert (Hdays2 : 0 <= L2 / 86400 < 3652059) by (Z.div_mod_to_equations; lia).
  pose proof (civil_of_days_inverse (L1 / 86400)) as Hinv1.
  pose proof (civil_of_days_year (L1 / 86400) Hdays1) as Hy1.
  pose proof (civil_of_days_inverse (L2 / 86400)) as Hinv2.
  pose proof (civil_of_days_year (L2 / 86400) Hdays2) as Hy2.
  destruct (civil_of_days (L1 / 86400)) as [[y1 m1] d1].
  destruct (civil_of_days (L2 / 86400)) as [[y2 m2] d2].
  destruct Hinv1 as (Hm1 & Hd1 & Hinv1). destruct Hinv2 as (Hm2 & Hd2 & Hinv2).
  assert (Hs1 : 0 <= L1 mod 86400 < 86400) by (apply Z.mod_pos_bound; lia).
  assert (Hs2 : 0 <= L2 mod 86400 < 86400) by (apply Z.mod_pos_bound; lia).
  assert (HL1 : L1 = 86400 * (L1 / 86400) + L1 mod 86400)
    by (apply Z.div_mod; lia).
  assert (HL2 : L2 = 86400 * (L2 / 86400) + L2 mod 86400)
    by (apply Z.div_mod; lia).
  set (s1 := L1 mod 86400) in *. set (s2 := L2 mod 86400) in *.
  set (D1 := L1 / 86400) in *. set (D2 := L2 / 86400) in *.
  clearbody s1 s2 D1 D2.
  assert (B4 : 10 ^ Z.of_nat 4 = 10000) by reflexivity.
  assert (B2 : 10 ^ Z.of_nat 2 = 100) by reflexivity.
  intros Heq.
  apply (string_app_inj (appendInt y1 4) (appendInt y2 4)) in Heq as [Ey Heq];
    [|rewrite !appendInt_length by lia; reflexivity].
  cbn [String.append] in Heq. injection Heq as Heq.
  apply (string_app_inj (appendInt m1 2) (appendInt m2 2)) in Heq as [Em Heq];
    [|rewrite !appendInt_length by lia; reflexivity].
  cbn [String.append] in Heq. injection Heq as Heq.
  apply (string_app_inj (appendInt d1 2) (appendInt d2 2)) in Heq as [Ed Heq];
    [|rewrite !appendInt_length by lia; reflexivity].
  cbn [String.append] in Heq. injection Heq as Heq.
  assert (Hh1 : 0 <= s1 / 3600 < 100) by (Z.div_mod_to_equations; lia).
  assert (Hh2 : 0 <= s2 / 3600 < 100) by (Z.div_mod_to_equations; lia).
  assert (Hmi1 : 0 <= s1 / 60 mod 60 < 100) by (Z.div_mod_to_equations; lia).
  assert (Hmi2 : 0 <= s2 / 60 mod 60 < 100) by (Z.div_mod_to_equations; lia).
  assert (Hss1 : 0 <= s1 mod 60 < 100) by (Z.div_mod_to_equations; lia).
  assert (Hss2 : 0 <= s2 mod 60 < 100) by (Z.div_mod_to_equations; lia).
  apply (string_app_inj (appendInt (s1 / 3600) 2) (appendInt (s2 / 3600) 2))
    in Heq as [Eh Heq]; [|rewrite !appendInt_length by lia; reflexivity].
  cbn [String.append] in Heq. injection Heq as Heq.
  apply (string_app_inj (appendInt (s1 / 60 mod 60) 2)
           (appendInt (s2 / 60 mod 60) 2)) in Heq as [Emi Es];
    [|rewrite !appendInt_length by lia; reflexivity].
  cbn [String.append] in Es. injection Es as Es.
  apply appendInt_inj in Ey; [|lia..].
  apply appendInt_inj in Em; [|lia..].
  apply appendInt_inj in Ed; [|lia..].
  apply appendInt_inj in Eh; [|lia..].
  apply appendInt_inj in Emi; [|lia..].
  apply appendInt_inj in Es; [|lia..].
  subst y2 m2 d2.
  assert (D1 = D2) by congruence.
  assert (s1 = s2) by (Z.div_mod_to_equations; lia).
  lia.
Qed.

(** The zone suffix tells the offset, for offsets of whole minutes. *)
Lemma format_zone_inj z1 z2 :
  z1 mod 60 = 0 -> -360000 < z1 < 360000 ->
  z2 mod 60 = 0 -> -360000 < z2 < 360000 ->
  format_zone z1 = format_zone z2 -> z1 = z2.
Proof.
  intros Hm1 Hr1 Hm2 Hr2. unfold format_zone. cbv zeta.
  assert (Hquot : forall z, z mod 60 = 0 -> z = 60 * Z.quot z 60).
  { intros z Hz. destruct (Z.mod_divide z 60 ltac:(lia)) as [Hdiv _].
    destruct (Hdiv Hz) as [k Hk]. rewrite Hk at 2. rewrite Z.quot_mul by lia. lia. }
  pose proof (Hquot z1 Hm1) as Hq1. pose proof (Hquot z2 Hm2) as Hq2. clear Hquot.
  set (q1 := Z.quot z1 60) in *. set (q2 := Z.quot z2 60) in *. clearbody q1 q2.
  assert (Ha1 : 0 <= Z.abs q1 < 6000) by lia.
  assert (Ha2 : 0 <= Z.abs q2 < 6000) by lia.
  pose proof (Z.quot_rem (Z.abs q1) 60 ltac:(lia)) as Hd1.
  pose proof (Z.quot_rem (Z.abs q2) 60 ltac:(lia)) as Hd2.
  pose proof (Z.rem_bound_pos (Z.abs q1) 60 ltac:(lia) ltac:(lia)) as Hb1.
  pose proof (Z.rem_bound_pos (Z.abs q2) 60 ltac:(lia) ltac:(lia)) as Hb2.
  set (h1 := Z.quot (Z.abs q1) 60) in *. set (r1 := Z.rem (Z.abs q1) 60) in *.
  set (h2 := Z.quot (Z.abs q2) 60) in *. set (r2 := Z.rem (Z.abs q2) 60) in *.
  clearbody h1 r1 h2 r2.
  assert (B2 : 10 ^ Z.of_nat 2 = 100) by reflexivity.
  destruct (Z.eqb_spec z1 0) as [E1|N1], (Z.eqb_spec z2 0) as [E2|N2].
  - lia.
  - destruct (q2 <? 0); cbn [String.append]; discriminate.
  - destruct (q1 <? 0); cbn [String.append]; discriminate.
  - intros Heq.
    destruct (Z.ltb_spec q1 0), (Z.ltb_spec q2 0); cbn [String.append] in Heq;
      try discriminate; injection Heq as Heq;
      apply (string_app_inj (appendInt h1 2) (appendInt h2 2)) in Heq as [Eh Er];
      try (rewrite !appendInt_length by lia; reflexivity);
      cbn [String.append] in Er; injection Er as Er;
      apply appendInt_inj in Eh; try lia; apply appendInt_inj in Er; lia.
Qed.

Lemma Truncate_Hour_value t :
  Truncate t Hour = mkTime (Hour * (abs_ns t / Hour)) (zone_offset t).
Proof.
  unfold Truncate, Add. change (Hour <=? 0) with false. cbn iota. f_equal.
  pose proof (Z.div_mod (abs_ns t) Hour ltac:(done)). lia.
Qed.

(** Two observations whose zones are of whole minutes and whose hours
    start in a year of four digits have the same key, and so are counted
    in the same bucket, exactly when they are of the same zone and of
    the same hour of absolute time. *)
Theorem hourKey_same_zone_and_hour (l1 l2 : LogSize) :
  whole_minute_zone (Timestamp l1) -> whole_minute_zone (Timestamp l2) ->
  four_digit_year (Truncate (Timestamp l1) Hour) ->
  four_digit_year (Truncate (Timestamp l2) Hour) ->
  hourKey l1 = hourKey l2 <->
    zone_offset (Timestamp l1) = zone_offset (Timestamp l2)
    /\ abs_ns (Timestamp l1) / Hour = abs_ns (Timestamp l2) / Hour.
Proof.
  intros (Hm1 & Hr1) (Hm2 & Hr2) Hy1 Hy2. split.
  - rewrite !hourKey_zone. intros Heq.
    apply string_app_inj in Heq as [Hclock Hzone];
      [|by rewrite !format_clock_length].
    apply format_zone_inj in Hzone; [|done..]. split; [exact Hzone|].
    apply format_clock_injective in Hclock; [|done..].
    unfold wall_seconds in Hclock. rewrite !Truncate_Hour_value in Hclock.
    cbn [abs_ns zone_offset] in Hclock. rewrite Hzone in Hclock.
    assert (Hdiv : forall q, Hour * q / Second = 3600 * q).
    { intros q. unfold Hour, Minute, Second, Nanosecond.
      replace (60 * (60 * (1000000000 * 1)) * q)
        with (3600 * q * (1000000000 * 1)) by lia.
      by rewrite Z.div_mul. }
    rewrite !Hdiv in Hclock. lia.
  - intros [Hzone Hhour]. unfold hourKey. f_equal.
    rewrite !Truncate_Hour_value. by rewrite Hzone, Hhour.
Qed.

Lemma hourKey_same_zone_and_hour_witness :
  hourKey (mkLogSize 1 (Date 2024 1 1 10 0 0 0) 1500)
    = hourKey (mkLogSize 2 (Date 2024 1 1 10 30 0 0) 1500) <->
    zone_offset (Timestamp (mkLogSize 1 (Date 2024 1 1 10 0 0 0) 1500))
      = zone_offset (Timestamp (mkLogSize 2 (Date 2024 1 1 10 30 0 0) 1500))
    /\ abs_ns (Timestamp (mkLogSize 1 (Date 2024 1 1 10 0 0 0) 1500)) / Hour
       = abs_ns (Timestamp (mkLogSize 2 (Date 2024 1 1 10 30 0 0) 1500)) / Hour.
Proof.
  apply (hourKey_same_zone_and_hour
           (mkLogSize 1 (Date 2024 1 1 10 0 0 0) 1500)
           (mkLogSize 2 (Date 2024 1 1 10 30 0 0) 1500)).
  - vm_compute. split; [reflexivity|]. split; reflexivity.
  - vm_compute. split; [reflexivity|]. split; reflexivity.
  - vm_compute. split; [discriminate|reflexivity].
  - vm_compute. split; [discriminate|reflexivity].
Defined.

(* ===================================================================== *)
(** * Static files *)
(* ===================================================================== *)








Lemma static_file_path_Clean r :
  static_file_path r
  = Clean ("src/gui/static/" ++ TrimPrefix (Path r) "/static").
Proof. reflexivity. Qed.






(** ** The last element of a cleaned path *)

Lemma string_app_cons c (a b : string) :
  (String c a ++ b)%string = String c (a ++ b).
Proof. reflexivity. Qed.

Lemma string_app_nil (b : string) : (EmptyString ++ b)%string = b.
Proof. reflexivity. Qed.

Lemma ends_with_separator_cons c s :
  s <> EmptyString -> ends_with_separator (String c s) = ends_with_separator s.
Proof. by destruct s. Qed.

Lemma copy_element_to_separator e X : forall out,
  ends_with_separator X = true ->
  exists copied X2,
    copy_element (X ++ e) out = (copied ++ out, (X2 ++ e)%string)
    /\ ends_with_separator X2 = true
    /\ (String.length X2 <= String.length X)%nat
    /\ (forall c X', X = String c X' -> IsPathSeparator c = false ->
        (String.length X2 <= String.length X')%nat).
Proof.
  induction X as [|c X IH]; intros out HX; [done|].
  change (copy_element (String c X ++ e) out)
    with (if IsPathSeparator c then (out, String c (X ++ e)%string)
          else copy_element (X ++ e) (c :: out)).
  destruct (IsPathSeparator c) eqn:Hc.
  - exists [], (String c X). split; [reflexivity|]. split; [exact HX|].
    split; [lia|]. intros c0 X0 [= <- <-] Hc0. congruence.
  - destruct X as [|c' X'] eqn:EX; [simpl in HX; congruence|]. rewrite <- EX in *.
    rewrite ends_with_separator_cons in HX by (by rewrite EX).
    destruct (IH (c :: out) HX) as (copied & X2 & -> & HX2 & Hlen & _).
    exists (copied ++ [c]), X2. rewrite <- app_assoc. split; [done|].
    split; [done|]. split; [simpl; lia|]. by intros c0 X0 [= <- <-] _.
Qed.

Lemma copy_element_whole e : forall out,
  separator_free e = true ->
  copy_element e out = (rev (list_ascii_of_string e) ++ out, EmptyString).
Proof.
  induction e as [|c e IH]; intros out He; [done|].
  cbn [separator_free] in He. apply andb_true_iff in He as [Hc He].
  cbn [copy_element]. apply negb_true_iff in Hc. rewrite Hc.
  rewrite IH by done. cbn [list_ascii_of_string rev]. by rewrite <- app_assoc.
Qed.

(** When a path ends in an element that is not empty, [.] or [..],
    [filepath.Clean] ends by writing that element. *)
Lemma clean_loop_last_element e :
  separator_free e = true ->
  e <> EmptyString -> e <> "."%string -> e <> ".."%string ->
  forall fuel X rooted out dotdot,
    (String.length X + String.length e < fuel)%nat ->
    at_boundary X = true ->
    exists before,
      clean_loop fuel rooted (X ++ e) out dotdot
      = rev (list_ascii_of_string e) ++ before.
Proof.
  intros He Hne Hdot Hdotdot.
  induction fuel as [|fuel IH]; intros X rooted out dotdot Hfuel HX; [lia|].
  cbn [clean_loop].
  destruct X as [|c X'].
  - (* the last element *)
    rewrite string_app_nil. destruct e as [|c e1]; [done|].
    cbn [separator_free] in He. apply andb_true_iff in He as [Hc He1].
    apply negb_true_iff in Hc. rewrite Hc.
    assert (Hend : forall s, separator_free s = true -> s <> EmptyString ->
                     at_element_end s = false).
    { intros [|c0 s0] Hs Hs0; [done|]. cbn [separator_free] in Hs.
      apply andb_true_iff in Hs as [Hc0 _]. by apply negb_true_iff in Hc0. }
    assert (H2 : Ascii.eqb c "." && at_element_end e1 = false).
    { destruct (Ascii.eqb_spec c ".") as [->|]; [|done]. cbn [andb].
      apply Hend; [done|]. by intros ->. }
    rewrite H2.
    assert (H3 : Ascii.eqb c "."
                 && match e1 with
                    | String c1 rest2 => Ascii.eqb c1 "." && at_element_end rest2
                    | EmptyString => false
                    end = false).
    { destruct (Ascii.eqb_spec c ".") as [->|]; [|done]. cbn [andb].
      destruct e1 as [|c1 e2]; [done|].
      destruct (Ascii.eqb_spec c1 ".") as [->|]; [|done]. cbn [andb].
      cbn [separator_free] in He1. apply andb_true_iff in He1 as [_ He2].
      apply Hend; [done|]. by intros ->. }
    rewrite H3.
    rewrite (copy_element_whole (String c e1))
      by (cbn [separator_free]; by rewrite Hc, He1).
    destruct fuel; cbn [clean_loop]; by eexists.
  - rewrite string_app_cons.
    assert (HX' : X' <> EmptyString -> at_boundary X' = true
                  /\ ends_with_separator X' = true).
    { intros HneX. cbn [at_boundary] in HX.
      rewrite ends_with_separator_cons in HX by done. split; [|done].
      by destruct X'. }
    destruct (IsPathSeparator c) eqn:Hc.
    { (* an empty element *)
      apply IH; [simpl in Hfuel; lia|].
      destruct X' as [|c' X'']; [done|]. by apply HX'. }
    assert (HneX : X' <> EmptyString).
    { intros ->. cbn [at_boundary ends_with_separator] in HX. congruence. }
    destruct (HX' HneX) as [Hb' Hs'].
    destruct (Ascii.eqb c "." && at_element_end (X' ++ e)).
    { apply IH; [simpl in Hfuel; lia|done]. }
    lazymatch goal with
    | |- context [if ?b then _ else _] => destruct b eqn:Hb
    end.
    { (* a .. element *)
      apply andb_true_iff in Hb as [_ Hb].
      destruct X' as [|c1 X'']; [done|]. rewrite string_app_cons in Hb |- *.
      apply andb_true_iff in Hb as [_ Hb].
      assert (HX'' : at_boundary X'' = true).
      { destruct X'' as [|c2 X3]; [done|]. cbn [at_boundary].
        by rewrite ends_with_separator_cons in Hs'. }
      simpl in Hfuel.
      destruct (dotdot <? length out)%nat.
      - destruct out as [|dropped out']; apply IH; (lia || done).
      - destruct (negb rooted); apply IH; (lia || done). }
    (* a real path element *)
    match goal with
    | |- context [copy_element ?rest ?o] =>
        destruct (copy_element_to_separator e (String c X') o)
          as (copied & X2 & Hcopy & HX2 & _ & Hlen)
    end.
    { cbn [at_boundary] in HX. exact HX. }
    rewrite string_app_cons in Hcopy. rewrite Hcopy.
    apply IH; [|by destruct X2].
    specialize (Hlen c X' eq_refl Hc). simpl in Hfuel. lia.
Qed.

(** A path splits at its last separator. *)
Lemma split_at_last_separator s :
  exists X f, s = (X ++ f)%string /\ separator_free f = true /\ at_boundary X = true.
Proof.
  induction s as [|c s IH]; [by exists EmptyString, EmptyString|].
  destruct IH as (X & f & -> & Hf & HX). destruct X as [|c' X'].
  - rewrite string_app_nil. destruct (IsPathSeparator c) eqn:Hc.
    + exists (String c EmptyString), f. rewrite string_app_cons, string_app_nil.
      split; [done|]. split; [done|]. exact Hc.
    + exists EmptyString, (String c f). rewrite string_app_nil.
      split; [done|]. split; [|done]. cbn [separator_free]. by rewrite Hc, Hf.
  - exists (String c (String c' X')), f. split; [done|]. split; [done|]. exact HX.
Qed.

Lemma separator_free_app a b :
  separator_free a = true -> separator_free b = true ->
  separator_free (a ++ b) = true.
Proof.
  induction a as [|c a IH]; intros Ha Hb; [done|]. rewrite string_app_cons.
  cbn [separator_free] in *. apply andb_true_iff in Ha as [Hc Ha].
  by rewrite Hc, IH.
Qed.

Lemma string_app_assoc (a b c : string) :
  ((a ++ b) ++ c)%string = (a ++ (b ++ c))%string.
Proof.
  induction a as [|x a IH]; [done|]. rewrite !string_app_cons. by rewrite IH.
Qed.

Lemma list_ascii_of_string_app (a b : string) :
  list_ascii_of_string (a ++ b)
  = list_ascii_of_string a ++ list_ascii_of_string b.
Proof.
  induction a as [|x a IH]; [done|]. rewrite string_app_cons. simpl. by rewrite IH.
Qed.

(** A path that ends in one of the known extensions is cleaned to a path
    with that extension. *)
Lemma Ext_Clean_known path ext ct :
  (ext, ct) ∈ known_types ->
  Ext (Clean ("src/gui/static/" ++ path ++ ext)) = ext.
Proof.
  intros Hext.
  destruct (split_at_last_separator ("src/gui/static/" ++ path))
    as (X & f & Hsplit & Hf & HX).
  rewrite <- string_app_assoc, Hsplit, string_app_assoc.
  assert (Hknown : separator_free ext = true
                   /\ (3 <= String.length ext)%nat
                   /\ forall before,
                        ext_scan (rev (list_ascii_of_string ext) ++ before)
                          EmptyString = ext).
  { unfold known_types in Hext.
    repeat (apply elem_of_cons in Hext as [[= -> ->]|Hext]);
      [| | |by apply elem_of_nil in Hext]; repeat split; simpl; lia. }
  destruct Hknown as (Hsep & Hlen & Hscan).
  remember (f ++ ext)%string as e eqn:Ee.
  assert (He : separator_free e = true) by (subst e; by apply separator_free_app).
  assert (Hlong : (3 <= String.length e)%nat)
    by (subst e; rewrite string_app_length; lia).
  assert (Hnormal : e <> EmptyString /\ e <> "."%string /\ e <> ".."%string).
  { repeat split; intros E; rewrite E in Hlong; simpl in Hlong; lia. }
  destruct Hnormal as (Hn1 & Hn2 & Hn3).
  assert (HXne : X <> EmptyString \/ f <> EmptyString).
  { destruct X; [right|by left]. rewrite string_app_nil in Hsplit.
    intros ->. discriminate Hsplit. }
  destruct (clean_loop_last_element e He) with
    (fuel := S (String.length (X ++ e))) (X := X) (rooted := false)
    (out := @nil ascii) (dotdot := 0%nat) as (before & Hloop);
    [done | done | done | rewrite string_app_length; lia | done |].
  assert (Hfirst : exists c rest, (X ++ e)%string = String c rest
                                  /\ IsPathSeparator c = false).
  { assert (Hs : ("src/gui/static/" ++ path ++ ext)%string = (X ++ e)%string)
      by (subst e; by rewrite <- string_app_assoc, Hsplit, string_app_assoc).
    rewrite <- Hs. by eexists _, _. }
  destruct Hfirst as (c & rest & Hc & Hroot).
  unfold Clean. rewrite Hc. cbv zeta. rewrite Hroot. rewrite <- Hc, Hloop.
  destruct (rev (list_ascii_of_string e) ++ before) eqn:Hout.
  { apply app_eq_nil in Hout as [Hout _]. apply (f_equal (@length ascii)) in Hout.
    rewrite length_rev in Hout. exfalso. clear -Hout Hlong.
    assert (Hl : forall s, length (list_ascii_of_string s) = String.length s)
      by (induction s; simpl; congruence).
    rewrite Hl in Hout. simpl in Hout. lia. }
  rewrite <- Hout. unfold Ext.
  rewrite list_ascii_of_string_of_list_ascii, rev_involutive.
  subst e. rewrite list_ascii_of_string_app, rev_app_distr, <- app_assoc.
  apply Hscan.
Qed.

Lemma TrimPrefix_app prefix s : TrimPrefix (prefix ++ s) prefix = s.
Proof.
  unfold TrimPrefix. assert (trim_prefix (prefix ++ s) prefix = Some s) as ->; [|done].
  induction prefix as [|p prefix IH].
  - rewrite string_app_nil. by destruct s.
  - rewrite string_app_cons. simpl. by rewrite Ascii.eqb_refl.
Qed.

(** The static file handler sets the content type by the end of the
    requested path: a request for a path below [/static] that ends in
    [.css], [.js] or [.html] is served, when the file exists, as
    [text/css], [application/javascript] or [text/html]. *)
Theorem MakeStaticFileHandler_content_type (fs : FileSystem) (r : Request)
    (path ext ct : string) (header : gmap string string) (body : string) :
  Path r = ("/static" ++ path ++ ext)%string ->
  (ext, ct) ∈ known_types ->
  MakeStaticFileHandler fs r = Served header body ->
  Ext (static_file_path r) = ext
  /\ header !! "Content-Type"%string = Some ct.
Proof.
  intros Hpath Hext. unfold MakeStaticFileHandler. cbv zeta.
  assert (Hfile : static_file_path r = Clean ("src/gui/static/" ++ path ++ ext)).
  { by rewrite static_file_path_Clean, Hpath, TrimPrefix_app. }
  rewrite Hfile, (Ext_Clean_known path ext ct Hext).
  assert (Hct : content_type ext = ct).
  { unfold known_types in Hext.
    repeat (apply elem_of_cons in Hext as [[= -> ->]|Hext]);
      [| | |by apply elem_of_nil in Hext]; reflexivity. }
  rewrite Hct.
  destruct (fs !! Clean ("src/gui/static/" ++ path ++ ext)) as [[content|]|];
    [|done|done].
  intros [= <- <-]. split; [done|].
  rewrite lookup_insert_ne by done. by rewrite lookup_insert_eq.
Qed.

Lemma MakeStaticFileHandler_content_type_witness :
  Ext (static_file_path (static_request "/static/css/dashboard.css")) = ".css"%string
  /\ ({[ "Cache-Control" := "public, max-age=3600";
         "Content-Type" := "text/css";
         "Content-Length" := "19" ]} : gmap string string)
       !! "Content-Type"%string = Some "text/css"%string.
Proof.
  apply (MakeStaticFileHandler_content_type dashboard_files
           (static_request "/static/css/dashboard.css") "/css/dashboard" ".css"
           "text/css" _ "body { margin: 0; }").
  - reflexivity.
  - apply elem_of_cons. by left.
  - vm_compute. reflexivity.
Defined.

(** ** The length header *)

Lemma count_digits_enough fuel : forall u,
  0 <= u < 10 ^ Z.of_nat fuel -> u < 10 ^ Z.of_nat (count_digits fuel u).
Proof.
  induction fuel as [|fuel IH]; intros u Hu; [simpl in *; lia|].
  cbn [count_digits]. destruct (Z.eqb_spec u 0) as [->|Hne]; [done|].
  rewrite Nat2Z.inj_succ, Z.pow_succ_r in Hu |- * by lia.
  assert (Hdiv : 0 <= u / 10 < 10 ^ Z.of_nat fuel) by (Z.div_mod_to_equations; lia).
  specialize (IH _ Hdiv). Z.div_mod_to_equations. lia.
Qed.

Lemma digits_head width : forall n acc,
  exists c rest, digits (S width) n acc = String c rest /\ is_digit c = true.
Proof.
  induction width as [|w IH]; intros n acc.
  - exists (digit n), acc. split; [done|apply is_digit_digit].
  - change (digits (S (S w)) n acc)
      with (digits (S w) (n / 10) (String (digit n) acc)). apply IH.
Qed.

(** [strconv.Atoi] reads back the decimal text of a size. *)
Lemma Atoi_FormatInt n :
  0 <= n <= Int64.max_int64 -> Atoi (FormatInt n) = Some n.
Proof.
  intros Hn. unfold FormatInt, appendInt. cbv zeta.
  rewrite Z.abs_eq by lia. destruct (Z.ltb_spec n 0); [lia|].
  rewrite string_app_nil, Nat.max_0_l.
  set (fuel := S (Z.to_nat (Z.log2 n))).
  assert (Hfuel : 0 <= n < 10 ^ Z.of_nat fuel).
  { split; [lia|]. unfold fuel. rewrite Nat2Z.inj_succ, Z2Nat.id by apply Z.log2_nonneg.
    destruct (Z.eq_dec n 0) as [->|Hne]; [done|].
    pose proof (Z.log2_spec n ltac:(lia)) as [_ Hlt].
    eapply Z.lt_le_trans; [exact Hlt|].
    apply Z.pow_le_mono_l. lia. }
  pose proof (count_digits_enough fuel n Hfuel) as Hk.
  set (k := count_digits fuel n) in *.
  assert (Hk' : n < 10 ^ Z.of_nat (Nat.max 1 k)).
  { eapply Z.lt_le_trans; [exact Hk|]. apply Z.pow_le_mono_r; lia. }
  destruct (Nat.max 1 k) as [|w] eqn:Hw; [lia|].
  destruct (digits_head w n EmptyString) as (c & rest & Hd & Hc).
  pose proof (atoi_digits_digits (S w) n EmptyString 0) as Hatoi.
  rewrite Hd in Hatoi. simpl atoi_digits at 2 in Hatoi.
  rewrite Z.mod_small in Hatoi by lia. rewrite Hd. unfold Atoi.
  assert (Hsign : Ascii.eqb c "-" = false /\ Ascii.eqb c "+" = false).
  { split; apply Ascii.eqb_neq; intros ->; discriminate Hc. }
  destruct Hsign as [-> ->]. cbn [orb]. rewrite Hatoi. cbn [mbind option_bind].
  rewrite decide_True; [done|].
  unfold Int64.in_range, Int64.min_int64, Int64.max_int64 in *. lia.
Qed.



(* ===================================================================== *)
(** * The answers of the API *)
(* ===================================================================== *)

Lemma sendSuccessResponse_answer d : api_answer (sendSuccessResponse d).
Proof. split; [done|]. split; [done|]. left. done. Qed.

Lemma sendErrorResponse_answer message :
  message <> EmptyString -> api_answer (sendErrorResponse message).
Proof. intros Hm. split; [done|]. split; [done|]. right. done. Qed.

Lemma calculateStats_returns logs : exists st, calculateStats logs = Returns st.
Proof.
  destruct logs as [|first rest]; [by eexists|].
  rewrite calculateStats_nonempty. by eexists.
Qed.

(** Every endpoint of the API, on every store, open or closed, and for
    every request and clock reading, answers in one of two shapes: 200
    with data, or 500 with a message; no endpoint panics, and none
    answers with another status, also when a parameter is missing or
    does not parse.  On an open store the endpoints without parameters
    always answer 200. *)
Theorem api_answers (Parse : string -> option Time) (c : SQLiteController)
    (now : Time) (r : Request) :
  api_answer (logs_recent c now)
  /\ api_answer (logs_range Parse c r)
  /\ (exists w, stats_summary c = Returns w /\ api_answer w)
  /\ (exists w, charts_breakdown c = Returns w /\ api_answer w)
  /\ (exists w, charts_timeseries c now r w)
  /\ (forall w, charts_timeseries c now r w -> api_answer w)
  /\ (closed (db c) = false ->
      Code (logs_recent c now) = 200
      /\ (exists stats, stats_summary c
                        = Returns (sendSuccessResponse (Stats stats)))
      /\ (exists rows, charts_breakdown c
                       = Returns (sendSuccessResponse (Breakdown rows)))
      /\ (forall w, charts_timeseries c now r w -> Code w = 200)).
Proof.
  assert (Hq : forall s e, exists logs,
             QueryByTimeRange c s e
             = (logs, if closed (db c) then Some ErrDatabaseClosed else None)).
  { intros s e. unfold QueryByTimeRange, query_time_range.
    destruct (closed (db c)); by eexists. }
  assert (Hall : exists logs,
             GetAll c
             = (logs, if closed (db c) then Some ErrDatabaseClosed else None)).
  { unfold GetAll, query_all. destruct (closed (db c)); by eexists. }
  split; [|split; [|split; [|split; [|split; [|split]]]]].
  - unfold logs_recent. destruct (Hq (Add now (-24 * Hour)) now) as (logs & ->).
    destruct (closed (db c)).
    + by apply sendErrorResponse_answer.
    + apply sendSuccessResponse_answer.
  - unfold logs_range. cbv zeta.
    destruct (_ || _); [by apply sendErrorResponse_answer|].
    destruct (Parse _) as [start|]; [|by apply sendErrorResponse_answer].
    destruct (Parse _) as [end_|]; [|by apply sendErrorResponse_answer].
    destruct (Hq start end_) as (logs & ->). destruct (closed (db c)).
    + by apply sendErrorResponse_answer.
    + apply sendSuccessResponse_answer.
  - unfold stats_summary. destruct Hall as (logs & ->). destruct (closed (db c)).
    + eexists. split; [done|]. by apply sendErrorResponse_answer.
    + destruct (calculateStats_returns logs) as (st & ->). eexists.
      split; [done|]. apply sendSuccessResponse_answer.
  - unfold charts_breakdown. destruct Hall as (logs & ->). destruct (closed (db c)).
    + eexists. split; [done|]. by apply sendErrorResponse_answer.
    + rewrite calculateSizeBreakdown_rows. eexists.
      split; [done|]. apply sendSuccessResponse_answer.
  - unfold charts_timeseries. cbv zeta.
    destruct (Hq (timeseries_start now (timeseries_hours r)) now) as (logs & ->).
    destruct (closed (db c)); [by eexists|].
    eexists. eexists. split; [|reflexivity]. unfold aggregateByHour. reflexivity.
  - intros w. unfold charts_timeseries. cbv zeta.
    destruct (Hq (timeseries_start now (timeseries_hours r)) now) as (logs & ->).
    destruct (closed (db c)).
    + intros ->. by apply sendErrorResponse_answer.
    + intros (points & _ & ->). apply sendSuccessResponse_answer.
  - intros Hc. rewrite Hc in Hq, Hall. split; [|split; [|split]].
    + unfold logs_recent. by destruct (Hq (Add now (-24 * Hour)) now) as (logs & ->).
    + unfold stats_summary. destruct Hall as (logs & ->).
      destruct (calculateStats_returns logs) as (st & ->). by eexists.
    + unfold charts_breakdown. destruct Hall as (logs & ->).
      rewrite calculateSizeBreakdown_rows. by eexists.
    + intros w. unfold charts_timeseries. cbv zeta.
      destruct (Hq (timeseries_start now (timeseries_hours r)) now) as (logs & ->).
      by intros (points & _ & ->).
Qed.



(* ===================================================================== *)
(** * The library functions on the inputs of their own tests *)
(* ===================================================================== *)

(** [filepath.Clean] on entries of the table of the tests of package
    [path/filepath]. *)
Example Clean_examples :
  Clean "" = "."%string
  /\ Clean "abc" = "abc"%string
  /\ Clean "abc/" = "abc"%string
  /\ Clean "/" = "/"%string
  /\ Clean "abc//def//ghi" = "abc/def/ghi"%string
  /\ Clean "abc/./def" = "abc/def"%string
  /\ Clean "abc/def/ghi/../jkl" = "abc/def/jkl"%string
  /\ Clean "abc/def/../ghi/../jkl" = "abc/jkl"%string
  /\ Clean "abc/def/../.." = "."%string
  /\ Clean "/abc/def/../../.." = "/"%string
  /\ Clean "abc/def/../../../ghi/jkl/../../../mno" = "../../mno"%string
  /\ Clean "/../abc" = "/abc"%string
  /\ Clean "abc/./../def" = "def"%string
  /\ Clean "abc/../../././../def" = "../../def"%string
  /\ Clean "../../abc" = "../../abc"%string
  /\ Clean "//abc" = "/abc"%string.
Proof. repeat split. Qed.

(** [filepath.Ext], [filepath.Join], [strings.TrimPrefix] and
    [strconv.Atoi] on inputs of the documentation of the library. *)
Example library_examples :
  Ext "path.go" = ".go"%string
  /\ Ext "path.pb.go" = ".go"%string
  /\ Ext "a.dir/b" = EmptyString
  /\ Ext "a.dir/" = EmptyString
  /\ Join ["a"; "b"]%string = "a/b"%string
  /\ Join ["a"; EmptyString]%string = "a"%string
  /\ Join [EmptyString; "b"]%string = "b"%string
  /\ Join ["a/"; "b"]%string = "a/b"%string
  /\ Join ["a"; "/b"]%string = "a/b"%string
  /\ TrimPrefix "/static/js/dashboard.js" "/static" = "/js/dashboard.js"%string
  /\ TrimPrefix "/other" "/static" = "/other"%string
  /\ Atoi "24" = Some 24
  /\ Atoi "+7" = Some 7
  /\ Atoi "-3" = Some (-3)
  /\ Atoi "9223372036854775807" = Some 9223372036854775807
  /\ Atoi "9223372036854775808" = None
  /\ Atoi "" = None
  /\ Atoi "-" = None
  /\ Atoi "12a" = None
  /\ Atoi " 12" = None.
Proof. repeat split. Qed.

(** A request whose path climbs out with [..] makes the static file
    handler open a file outside the directory of the static files. *)
Example static_file_path_climbs :
  static_file_path (static_request "/static/../../../main.go") = "main.go"%string
  /\ has_dotdot "/static/../../../main.go" = true
  /\ ~ under_static "main.go".
Proof.
  split; [reflexivity|]. split; [reflexivity|].
  intros [H|[rest H]]; discriminate H.
Qed.

(* ===================================================================== *)
(** * The [hours] parameter *)
(* ===================================================================== *)

(** The time-series endpoint honours an [hours] parameter that is the
    decimal text of a positive integer of 64 bits, and looks back 24
    hours for every other request: without the parameter, or with one
    that is no integer or not positive. *)
Theorem timeseries_hours_parameter (r : Request) (h : Z) :
  (1 <= h <= Int64.max_int64 ->
   timeseries_hours (timeseries_request (FormatInt h)) = h)
  /\ (timeseries_hours r = 24
      \/ exists n, Atoi (Get (Query r) "hours") = Some n
                   /\ 0 < n /\ timeseries_hours r = n)
  /\ (Get (Query r) "hours" = EmptyString -> timeseries_hours r = 24)
  /\ (Atoi (Get (Query r) "hours") = None -> timeseries_hours r = 24)
  /\ (forall n, Atoi (Get (Query r) "hours") = Some n -> n <= 0 ->
        timeseries_hours r = 24).
Proof.
  split; [|split; [|split; [|split]]].
  - intros Hh. unfold timeseries_hours. cbv zeta.
    assert (Hget : forall s, Get (Query (timeseries_request s)) "hours" = s).
    { intros s. unfold Get, timeseries_request, Values. cbn [Query].
      by rewrite lookup_singleton_eq. }
    rewrite Hget, Atoi_FormatInt by lia.
    destruct (String.eqb_spec (FormatInt h) EmptyString) as [He|_].
    + pose proof (Atoi_FormatInt h ltac:(lia)) as Ha. rewrite He in Ha. done.
    + destruct (Z.ltb_spec 0 h); [done|lia].
  - unfold timeseries_hours. cbv zeta. destruct (String.eqb _ _); [by left|].
    destruct (Atoi _) as [n|]; [|by left].
    destruct (Z.ltb_spec 0 n); [|by left]. right. by exists n.
  - intros He. unfold timeseries_hours. cbv zeta. by rewrite He.
  - intros Ha. unfold timeseries_hours. cbv zeta. rewrite Ha.
    by destruct (String.eqb _ _).
  - intros n Ha Hn. unfold timeseries_hours. cbv zeta. rewrite Ha.
    destruct (String.eqb _ _); [done|]. destruct (Z.ltb_spec 0 n); [lia|done].
Qed.

(* ===================================================================== *)
(** * The closed store behind the ingestion endpoint *)
(* ===================================================================== *)

Lemma InsertLogSize_closed c now size :
  closed (db c) = true -> InsertLogSize c now size = (c, Some ErrDatabaseClosed).
Proof. intros Hc. unfold InsertLogSize, exec_insert. by rewrite Hc. Qed.

(** On a closed store the ingestion handler changes nothing, whatever
    it is sent, and answers 500 to the requests it would store. *)
Lemma serve_all_closed requests : forall c c' ws,
  closed (db c) = true -> serve_all c requests = (c', ws) ->
  c' = c
  /\ Forall2 (fun req w =>
                rec_Code w <> 200
                /\ (rec_Code w = 500 <-> accepted_size req.2 <> None))
       requests ws.
Proof.
  induction requests as [|[now r] requests IH]; intros c c' ws Hc; simpl.
  - intros [= <- <-]. split; [done|constructor].
  - destruct (makeIngestionHandler c now r) as [c1 w] eqn:Hh.
    destruct (serve_all c1 requests) as [c2 ws'] eqn:Hrest. intros [= <- <-].
    destruct (accepted_size r) as [size|] eqn:Hacc.
    + rewrite (makeIngestionHandler_accepted _ _ _ _ Hacc) in Hh.
      rewrite (InsertLogSize_closed c now size Hc) in Hh. injection Hh as <- <-.
      destruct (IH _ _ _ Hc Hrest) as (-> & Hws). split; [done|].
      constructor; [|done]. simpl. rewrite Hacc. done.
    + destruct (makeIngestionHandler_rejected c now r Hacc) as (w' & Hh' & Hcode & _).
      rewrite Hh in Hh'. injection Hh' as -> <-.
      destruct (IH _ _ _ Hc Hrest) as (-> & Hws). split; [done|].
      constructor; [|done]. simpl. rewrite Hacc.
      split; [destruct Hcode; congruence|].
      split; [destruct Hcode; congruence|done].
Qed.

(** [Close] reports no error, also when called again, and leaves the
    table as it was.  From then on every operation of the controller is
    refused with an error and a nil result, and the ingestion endpoint
    stores nothing, whatever requests it serves: it answers none of them
    200, and 500 exactly those it would have stored, a POST with a
    readable body that is not empty. *)
Theorem Close_refuses_operations (c : SQLiteController) (now start end_ : Time)
    (size : Z) (requests : list (Time * Request)) :
  exists c1 ws,
    Close c = (c1, None)
    /\ Close c1 = (c1, None)
    /\ table c1 = table c
    /\ InsertLogSize c1 now size = (c1, Some ErrDatabaseClosed)
    /\ GetAll c1 = ([], Some ErrDatabaseClosed)
    /\ QueryByTimeRange c1 start end_ = ([], Some ErrDatabaseClosed)
    /\ serve_all c1 requests = (c1, ws)
    /\ Forall2 (fun req w =>
                  rec_Code w <> 200
                  /\ (rec_Code w = 500 <-> accepted_size req.2 <> None))
         requests ws.
Proof.
  destruct (Close c) as [c1 e] eqn:HClose. injection HClose as <- <-.
  set (c1 := mkController _).
  destruct (serve_all c1 requests) as [c2 ws] eqn:Hrun.
  destruct (serve_all_closed requests c1 c2 ws eq_refl Hrun) as (-> & Hws).
  exists c1, ws. repeat split; done.
Qed.

(* ===================================================================== *)
(** * The store under a clock that moves on *)
(* ===================================================================== *)

Lemma StronglySorted_fmap_inv {A B} (f : A -> B) (R1 : relation A)
    (R2 : relation B) (l : list A) :
  (forall x y, R2 (f x) (f y) -> R1 x y) ->
  StronglySorted R2 (f <$> l) -> StronglySorted R1 l.
Proof.
  intros HR. induction l as [|x l IH]; [constructor|].
  rewrite fmap_cons. intros Hs.
  apply StronglySorted_inv in Hs as [Hl Hx]. constructor; [by apply IH|].
  apply Forall_forall. intros y Hy. apply HR.
  apply (proj1 (Forall_forall _ _) Hx). by apply list_elem_of_fmap_2.
Qed.






(* ===================================================================== *)
(** * The ingestion endpoint under concurrent clients *)
(* ===================================================================== *)





(* ===================================================================== *)
(** * The summary after ingestion: the time of the last update *)
(* ===================================================================== *)

Lemma accepted_elem requests now size :
  (now, size) ∈ accepted requests -> exists r, (now, r) ∈ requests.
Proof.
  unfold accepted. intros Hin.
  apply list_elem_of_omap in Hin as ([now' r] & Hin & Hacc).
  destruct (accepted_size r) as [size'|]; [|done]. injection Hacc as <- _.
  by exists r.
Qed.

Lemma accepted_increasing requests :
  StronglySorted (fun a b : Time * Request => abs_ns a.1 < abs_ns b.1) requests ->
  StronglySorted (fun a b : Time * Z => abs_ns a.1 < abs_ns b.1)
    (accepted requests).
Proof.
  induction 1 as [|[now r] requests Hs IH Hx]; [constructor|].
  unfold accepted. cbn [omap list_omap]. fold (accepted requests).
  destruct (accepted_size r) as [size|]; [|done]. simpl.
  constructor; [done|]. apply Forall_forall. intros [now' size'] Hin.
  apply accepted_elem in Hin as (r' & Hin).
  by apply (proj1 (Forall_forall _ _) Hx (now', r')).
Qed.

(** While the clock moves on between the requests the ingestion endpoint
    of a fresh store serves, the summary endpoint reports as last update
    the clock reading, as RFC 3339 text, of the last request that was
    stored, provided that reading lies after the zero time. *)
Theorem stats_summary_last_updated (requests : list (Time * Request))
    (c' : SQLiteController) (ws : list ResponseRecorder) (now : Time) (size : Z) :
  serve_all NewSQLiteController requests = (c', ws) ->
  len requests <= Int64.max_int64 ->
  StronglySorted (fun a b : Time * Request => abs_ns a.1 < abs_ns b.1) requests ->
  last (accepted requests) = Some (now, size) ->
  0 < abs_ns now ->
  exists st,
    stats_summary c' = Returns (sendSuccessResponse (Stats st))
    /\ LastUpdated st = Format_RFC3339 now.
Proof.
  intros Hrun Hlen Hclock Hlast Hpos.
  destruct (serve_all_fresh _ _ _ Hrun Hlen) as (logs & Hall & Hmap & _).
  apply accepted_increasing in Hclock. rewrite <- Hmap in Hclock, Hlast.
  apply (StronglySorted_fmap_inv (fun r => (Timestamp r, Filesize r))
           (key_lt ts_key)) in Hclock; [|done].
  change (map ?f logs) with (f <$> logs) in Hlast.
  rewrite fmap_last in Hlast.
  destruct (last logs) as [x|] eqn:Hx; [|done]. injection Hlast as Hnow Hsize.
  apply last_Some in Hx as (before & ->).
  unfold stats_summary. rewrite Hall.
  destruct (before ++ [x]) as [|first rest] eqn:Hlogs;
    [by destruct before|].
  destruct (calculateStats_lastUpdated first rest) as (st & u & -> & Hu & Hmax & _ & Hex).
  exists st. split; [done|]. rewrite Hu. f_equal.
  assert (Hle : abs_ns now <= abs_ns u).
  { rewrite <- Hnow. apply Hmax. rewrite <- Hlogs. set_solver. }
  destruct Hex as (z & Hz & ->); [lia|].
  rewrite <- Hlogs in Hz, Hmax, Hclock. apply elem_of_app in Hz as [Hz|Hz].
  - pose proof (StronglySorted_app_1_elem_of _ _ _ z x Hclock Hz) as Hlt.
    unfold key_lt, ts_key in Hlt. rewrite Hnow in Hlt.
    specialize (Hlt ltac:(set_solver)). lia.
  - apply list_elem_of_singleton in Hz as ->. done.
Qed.

Lemma stats_summary_last_updated_witness :
  exists st,
    stats_summary (serve_all NewSQLiteController test_requests).1
      = Returns (sendSuccessResponse (Stats st))
    /\ LastUpdated st = Format_RFC3339 (Date 2024 1 1 10 0 3 0).
Proof.
  apply (stats_summary_last_updated test_requests
           (serve_all NewSQLiteController test_requests).1
           (serve_all NewSQLiteController test_requests).2
           (Date 2024 1 1 10 0 3 0) 21).
  - vm_compute. reflexivity.
  - vm_compute. discriminate.
  - repeat constructor; vm_compute; reflexivity.
  - vm_compute. reflexivity.
  - vm_compute. reflexivity.
Defined.
